(** * obsidian-fatebook: a shallow embedding of [main.js]

    The plugin scans markdown notes for links to fatebook.io questions,
    fetches title / resolution / prediction through a REST endpoint and
    rewrites the link text; it also drives three embedded web views and a
    polling login check.

    [main.js] is present in two revisions (lines 1-376 and lines 377-755 of
    the listing).  Functions whose text is the same in both ([debounce],
    [getQuestionIdFromUrl], the scanning loop of [enhanceMarkdownLinks]) are
    embedded once; [enhanceFatebookLink], which differs in the four glyph
    literals only, is embedded once over these literals; functions that
    differ otherwise live in the modules [Rev1] and [Rev2]. *)

From Stdlib Require Import String Ascii.
From Stdlib Require Import List NArith ZArith Lia Bool Arith.
From Stdlib Require Import SpecFloat.
Import ListNotations.

Set Implicit Arguments.
Set Warnings "-register-all".

(* ================================================================== *)
(** ** JavaScript strings *)

(** A JavaScript string is a sequence of UTF-16 code units. *)
Definition char16 := N.
Definition jsstring := list char16.

(** ASCII literals of the source, as code units. *)
Definition js (s : string) : jsstring :=
  map (fun a => N_of_ascii a) (list_ascii_of_string s).

Fixpoint jsstring_eqb (a b : jsstring) : bool :=
  match a, b with
  | [], [] => true
  | x :: a', y :: b' => N.eqb x y && jsstring_eqb a' b'
  | _, _ => false
  end.

(** [s.startsWith(needle)] on the remaining input. *)
Fixpoint prefixb (needle s : jsstring) : bool :=
  match needle, s with
  | [], _ => true
  | x :: n', y :: s' => N.eqb x y && prefixb n' s'
  | _ :: _, [] => false
  end.

(** [String.prototype.indexOf]: the first position at which [needle]
    occurs, [-1] when it does not occur. *)
Fixpoint indexOf_from (needle s : jsstring) (i : Z) : Z :=
  if prefixb needle s then i
  else match s with
       | [] => (-1)%Z
       | _ :: s' => indexOf_from needle s' (i + 1)
       end.

Definition indexOf (s needle : jsstring) : Z := indexOf_from needle s 0.

(** [String.prototype.lastIndexOf]: the last position at which [needle]
    occurs, [-1] when it does not occur. *)
Fixpoint lastIndexOf_from (needle s : jsstring) (i : Z) : Z :=
  match s with
  | [] => if prefixb needle [] then i else (-1)%Z
  | _ :: s' =>
      let r := lastIndexOf_from needle s' (i + 1) in
      if (0 <=? r)%Z then r
      else if prefixb needle s then i else (-1)%Z
  end.

Definition lastIndexOf (s needle : jsstring) : Z := lastIndexOf_from needle s 0.

(** [s.substring(start)]: a negative start counts as 0, one beyond the end
    as the end. *)
Definition substring_from (s : jsstring) (start : Z) : jsstring :=
  skipn (Z.to_nat (Z.max 0 start)) s.

(** [s.substring(from, to)] for [0 <= from <= to]. *)
Definition substring (s : jsstring) (from to : nat) : jsstring :=
  firstn (to - from) (skipn from s).

(* ================================================================== *)
(** ** Regular expressions

    The two regular-expression literals of the source use literal
    characters, character classes, [*], [+] and the lazy [*?] on a class,
    [?] on a group, alternation, capturing groups and [$].  The matcher is
    the backtracking matcher of ECMAScript, written with continuations: a
    continuation receives the remaining input and the captures so far. *)

Inductive regex : Type :=
| RChar (c : char16)              (* a pattern character, escaped or not *)
| RLit (l : jsstring)             (* a run of pattern characters *)
| RClass (p : char16 -> bool)     (* [.] or a bracketed class *)
| RSeq (r1 r2 : regex)
| RAlt (r1 r2 : regex)            (* [r1|r2], left alternative first *)
| RGroup (n : nat) (r : regex)    (* the [n]-th capturing group *)
| ROpt (r : regex)                (* [r?], greedy *)
| RStar (p : char16 -> bool)      (* [class*], greedy *)
| RPlus (p : char16 -> bool)      (* [class+], greedy *)
| RStarLazy (p : char16 -> bool)  (* [class*?] *)
| REnd.                           (* [$] without the [m] flag *)

Definition captures := list (nat * jsstring).

Fixpoint capture (n : nat) (caps : captures) : option jsstring :=
  match caps with
  | [] => None
  | (m, s) :: rest => if Nat.eqb m n then Some s else capture n rest
  end.

Section Matcher.
Variable A : Type.

(** Greedy repetition of a class: take as many characters as possible,
    give one back after each failure of the continuation. *)
Fixpoint star_greedy (p : char16 -> bool) (s : jsstring)
         (k : jsstring -> option A) : option A :=
  match s with
  | c :: s' =>
      if p c then
        match star_greedy p s' k with
        | Some r => Some r
        | None => k s
        end
      else k s
  | [] => k []
  end.

(** Lazy repetition: try the continuation first, take one more character
    after each failure. *)
Fixpoint star_lazy (p : char16 -> bool) (s : jsstring)
         (k : jsstring -> option A) : option A :=
  match k s with
  | Some r => Some r
  | None =>
      match s with
      | c :: s' => if p c then star_lazy p s' k else None
      | [] => None
      end
  end.

Fixpoint lit (l s : jsstring) (k : jsstring -> option A) : option A :=
  match l with
  | [] => k s
  | c :: l' =>
      match s with
      | x :: s' => if N.eqb x c then lit l' s' k else None
      | [] => None
      end
  end.

Fixpoint rmatch (r : regex) (s : jsstring) (caps : captures)
         (k : jsstring -> captures -> option A) : option A :=
  match r with
  | RChar c =>
      match s with
      | x :: s' => if N.eqb x c then k s' caps else None
      | [] => None
      end
  | RLit l => lit l s (fun s1 => k s1 caps)
  | RClass p =>
      match s with
      | x :: s' => if p x then k s' caps else None
      | [] => None
      end
  | RSeq r1 r2 => rmatch r1 s caps (fun s1 c1 => rmatch r2 s1 c1 k)
  | RAlt r1 r2 =>
      match rmatch r1 s caps k with
      | Some x => Some x
      | None => rmatch r2 s caps k
      end
  | RGroup n r1 =>
      rmatch r1 s caps
        (fun s1 c1 => k s1 ((n, firstn (length s - length s1) s) :: c1))
  | ROpt r1 =>
      match rmatch r1 s caps k with
      | Some x => Some x
      | None => k s caps
      end
  | RStar p => star_greedy p s (fun s1 => k s1 caps)
  | RPlus p =>
      match s with
      | x :: s' => if p x then star_greedy p s' (fun s1 => k s1 caps) else None
      | [] => None
      end
  | RStarLazy p => star_lazy p s (fun s1 => k s1 caps)
  | REnd =>
      match s with
      | [] => k s caps
      | _ :: _ => None
      end
  end.
End Matcher.

(** The result of a successful [exec]: [index], the matched text [m[0]],
    the captures, and the input left after the match. *)
Record MatchResult := mkMatch {
  m_index : nat;
  m_text : jsstring;
  m_caps : captures;
  m_rest : jsstring
}.

(** One attempt at the current position. *)
Definition match_here (r : regex) (s : jsstring) : option (jsstring * captures) :=
  rmatch r s [] (fun s1 c1 => Some (s1, c1)).

(** The unanchored search of [exec]: the leftmost position at which the
    pattern matches, from position [idx] of the input, of which [s] is what
    is left. *)
Fixpoint search (r : regex) (s : jsstring) (idx : nat) : option MatchResult :=
  match match_here r s with
  | Some (rest, caps) =>
      Some (mkMatch idx (firstn (length s - length rest) s) caps rest)
  | None =>
      match s with
      | [] => None
      | _ :: s' => search r s' (S idx)
      end
  end.

(** [regex.exec(content)] with [regex.lastIndex = lastIndex] (the [g]
    flag); the new [lastIndex] is [m_index + length m_text]. *)
Definition exec (r : regex) (content : jsstring) (lastIndex : nat)
  : option MatchResult :=
  if Nat.ltb (length content) lastIndex then None
  else search r (skipn lastIndex content) lastIndex.

Definition m_end (m : MatchResult) : nat := m_index m + length (m_text m).

(** [m[n]] for a capturing group that took part in the match. *)
Definition m_group (n : nat) (m : MatchResult) : jsstring :=
  match capture n (m_caps m) with
  | Some s => s
  | None => []
  end.

(** Character classes of the source. *)
Definition c_lbracket : char16 := 91%N.   (* [ *)
Definition c_rbracket : char16 := 93%N.   (* ] *)
Definition c_lparen : char16 := 40%N.     (* ( *)
Definition c_rparen : char16 := 41%N.     (* ) *)
Definition c_question : char16 := 63%N.   (* ? *)
Definition c_amp : char16 := 38%N.        (* & *)
Definition c_slash : char16 := 47%N.      (* / *)
Definition c_dash : char16 := 45%N.       (* - *)

(** Line terminators, which [.] does not match: LF, CR, U+2028, U+2029. *)
Definition is_line_terminator (c : char16) : bool :=
  N.eqb c 10%N || N.eqb c 13%N || N.eqb c 8232%N || N.eqb c 8233%N.

Definition dot (c : char16) : bool := negb (is_line_terminator c).
Definition not_rbracket (c : char16) : bool := negb (N.eqb c c_rbracket).
Definition not_rparen (c : char16) : bool := negb (N.eqb c c_rparen).

(** The link pattern of [enhanceMarkdownLinks], flag [g]: an opening
    bracket, group 1 = any run of characters other than the closing bracket,
    a closing bracket and an opening parenthesis, group 2 = [http], an
    optional [s], [://], an optional [www.], [fatebook.io/q/] and one or
    more characters other than the closing parenthesis, then a closing
    parenthesis. *)
Definition urlPattern : regex :=
  RSeq (RLit (js "http"))
 (RSeq (ROpt (RChar 115%N))
 (RSeq (RLit (js "://"))
 (RSeq (ROpt (RLit (js "www.")))
 (RSeq (RLit (js "fatebook.io/q/"))
       (RPlus not_rparen))))).

Definition linkRegex : regex :=
  RSeq (RChar c_lbracket)
 (RSeq (RGroup 1 (RStar not_rbracket))
 (RSeq (RChar c_rbracket)
 (RSeq (RChar c_lparen)
 (RSeq (RGroup 2 urlPattern)
       (RChar c_rparen))))).

(** The identifier pattern of [getQuestionIdFromUrl]: group 1 = greedy run
    of [.], the separator [--], group 2 = lazy run of [.], then one of
    [?], end of input, [&]. *)
Definition idTail : regex := RAlt (RChar c_question) (RAlt REnd (RChar c_amp)).

Definition idRegex : regex :=
  RSeq (RGroup 1 (RStar dot))
 (RSeq (RLit (js "--"))
 (RSeq (RGroup 2 (RStarLazy dot))
       idTail)).

(* ================================================================== *)
(** ** [getQuestionIdFromUrl] *)

(** [lastSegment.match(idRegex)]: a regular expression without the [g]
    flag searches from position 0. *)
Definition match_ (r : regex) (s : jsstring) : option MatchResult :=
  search r s 0.

Definition getQuestionIdFromUrl (url : jsstring) : jsstring :=
  let lastSegment := substring_from url (lastIndexOf url (js "/") + 1) in
  match match_ idRegex lastSegment with
  | Some parts => m_group 2 parts
  | None =>
      (* [lastSegment || ""] *)
      match lastSegment with
      | [] => js ""
      | _ :: _ => lastSegment
      end
  end.

(** Notions used to state what [getQuestionIdFromUrl] returns: the last
    path segment of a URL (what follows the final [/], the whole string
    when there is none), and the part of a string before its first [?] or
    [&]. *)
Definition lastSegmentOf (url seg : jsstring) : Prop :=
  ~ In c_slash seg /\ (url = seg \/ exists pre, url = pre ++ [c_slash] ++ seg).

Fixpoint upto_delimiter (s : jsstring) : jsstring :=
  match s with
  | [] => []
  | c :: s' =>
      if N.eqb c c_question || N.eqb c c_amp then []
      else c :: upto_delimiter s'
  end.

(** What follows the identifier: the end of the input, or [?] or [&]. *)
Definition after_delimiter (s : jsstring) : option jsstring :=
  match s with
  | [] => Some []
  | c :: s' => if N.eqb c c_question || N.eqb c c_amp then Some s' else None
  end.

(** Patterns without capturing groups. *)
Fixpoint group_free (r : regex) : bool :=
  match r with
  | RSeq r1 r2 | RAlt r1 r2 => group_free r1 && group_free r2
  | RGroup _ _ => false
  | ROpt r1 => group_free r1
  | _ => true
  end.

(** What the scanning loop uses of a match. *)
Definition view (m : MatchResult) : jsstring * jsstring * jsstring :=
  (m_text m, m_group 1 m, m_group 2 m).

(* ================================================================== *)
(** ** JavaScript values and the host's number operations *)

(** Numbers are the host's IEEE-754 doubles.  The program only multiplies
    by 100, prints with [toFixed(0)], converts to and from strings and
    tests for truth; these operations of the JavaScript runtime are an
    interface, so that what is proved holds whatever they compute. *)
Class NumberOps : Type := {
  number : Type;
  number_truthy : number -> bool;            (* neither 0, -0 nor NaN *)
  number_toString : number -> jsstring;      (* Number::toString *)
  parseFloat_string : jsstring -> number;    (* parseFloat of a string *)
  number_mul : number -> number -> number;   (* [x * y] *)
  number_100 : number;                       (* the literal [100] *)
  number_toFixed0 : number -> jsstring       (* [x.toFixed(0)] *)
}.

(** The four string literals that [enhanceFatebookLink] assigns to
    [statusEmoji].  The two listings hold different literals (see
    [Rev1.glyphs] and [Rev2.glyphs]); the rest of the function is the same
    text. *)
Class StatusGlyphs : Type := {
  glyph_check : jsstring;    (* [resolved], [resolution === 'YES'] *)
  glyph_cross : jsstring;    (* [resolved], [resolution === 'NO'] *)
  glyph_shrug : jsstring;    (* [resolved], any other [resolution] *)
  glyph_scales : jsstring    (* not [resolved] *)
}.

Section Values.
Context {ops : NumberOps} {glyphs : StatusGlyphs}.

(** What [response.json()] and a cross-frame message deliver. *)
Inductive JsValue : Type :=
| VUndefined
| VNull
| VBool (b : bool)
| VNumber (x : number)
| VString (s : jsstring)
| VArray (elems : list JsValue)
| VObject (fields : list (jsstring * JsValue)).

(** Own property of an object, the first binding of the name. *)
Fixpoint lookup (name : jsstring) (fields : list (jsstring * JsValue))
  : option JsValue :=
  match fields with
  | [] => None
  | (k, v) :: rest => if jsstring_eqb k name then Some v else lookup name rest
  end.

(** ToBoolean. *)
Definition truthy (v : JsValue) : bool :=
  match v with
  | VUndefined | VNull => false
  | VBool b => b
  | VNumber x => number_truthy x
  | VString s => match s with [] => false | _ :: _ => true end
  | VArray _ | VObject _ => true
  end.

(** ToString: what a template literal, a property key and [parseFloat]
    apply to a value; [None] is the TypeError it throws.  An object is
    converted by its [toString] method, then by [valueOf].  The members of
    an object that was parsed from JSON or cloned from a message are never
    callable: with an own member [toString] no method is found that gives
    a primitive ([Object.prototype.valueOf] returns the object itself) and
    the conversion throws; without one, [Object.prototype.toString] gives
    ['[object Object]'].  An array joins its elements with commas, [null]
    and [undefined] elements as the empty string; the conversion of an
    element may throw. *)
Fixpoint toStr (v : JsValue) : option jsstring :=
  match v with
  | VUndefined => Some (js "undefined")
  | VNull => Some (js "null")
  | VBool true => Some (js "true")
  | VBool false => Some (js "false")
  | VNumber x => Some (number_toString x)
  | VString s => Some s
  | VArray elems =>
      (fix join (l : list JsValue) : option jsstring :=
         match l with
         | [] => Some []
         | x :: rest =>
             match (match x with
                    | VUndefined | VNull => Some []
                    | _ => toStr x
                    end) with
             | None => None
             | Some first =>
                 match rest with
                 | [] => Some first
                 | _ :: _ =>
                     match join rest with
                     | None => None
                     | Some others => Some (first ++ js "," ++ others)
                     end
                 end
             end
         end) elems
  | VObject fields =>
      match lookup (js "toString") fields with
      | Some _ => None
      | None => Some (js "[object Object]")
      end
  end.

(** [v.name] for a value that is neither [null] nor [undefined], and for
    the names the program reads ([title], [resolved], [resolution],
    [yourLatestPrediction], [user], [isFatebook], [action], [embedId],
    [predictionLink], [box], [width], [height]): none of them is defined
    on a prototype, so the result is the own property or [undefined]. *)
Definition getField (v : JsValue) (name : jsstring) : JsValue :=
  match v with
  | VObject fields =>
      match lookup name fields with
      | Some x => x
      | None => VUndefined
      end
  | _ => VUndefined
  end.

(** [v.name] in general: a TypeError ([None]) on [null] and [undefined]. *)
Definition getProp (v : JsValue) (name : jsstring) : option JsValue :=
  match v with
  | VUndefined | VNull => None
  | _ => Some (getField v name)
  end.

(** [v === 'literal'] *)
Definition strict_eq_string (v : JsValue) (s : jsstring) : bool :=
  match v with
  | VString t => jsstring_eqb t s
  | _ => false
  end.

(** [parseFloat(v)]: ToString, which may throw, then the longest numeric
    prefix. *)
Definition parseFloat (v : JsValue) : option number :=
  option_map parseFloat_string (toStr v).

(* ================================================================ *)
(** ** The network *)

(** [response.json()] rejects, or resolves with the parsed body. *)
Inductive JsonBody : Type :=
| BodyInvalid
| BodyJson (v : JsValue).

Record Response : Type := mkResponse {
  status : N;
  body : JsonBody
}.

(** [response.ok]: the status is in the range 200-299. *)
Definition response_ok (r : Response) : bool :=
  (200 <=? status r)%N && (status r <=? 299)%N.

(** [await fetch(url)] rejects (network failure), or resolves. *)
Inductive FetchOutcome : Type :=
| FetchRejected
| FetchResolved (r : Response).

(* ================================================================ *)
(** ** Settings and [enhanceFatebookLink] *)

Definition fatebookHost : jsstring := js "fatebook.io".
Definition fatebookUrl : jsstring := js "https://fatebook.io/".
Definition apiKey : jsstring := js "oeslwryqqz9hs15tuzfsvs".

Definition getQuestionUrl (questionId : jsstring) : jsstring :=
  fatebookUrl ++ js "api/v0/getQuestion?questionId=" ++ questionId
              ++ js "&apiKey=" ++ apiKey.

Definition statusEmoji (resolved resolution : JsValue) : jsstring :=
  if truthy resolved then
    if strict_eq_string resolution (js "YES") then glyph_check
    else if strict_eq_string resolution (js "NO") then glyph_cross
    else glyph_shrug
  else glyph_scales.

(** The initialiser of [predictionText]; [None] when [parseFloat]
    throws. *)
Definition predictionText (yourLatestPrediction : JsValue) : option jsstring :=
  match yourLatestPrediction with
  | VUndefined => Some (js "")
  | p =>
      match parseFloat p with
      | Some x => Some (js " (You: "
                        ++ number_toFixed0 (number_mul x number_100)
                        ++ js "% yes)")
      | None => None
      end
  end.

(** [enhanceFatebookLink(questionId)]; [fetch] is what the network
    answers to this call.  [None] is the [null] result; every exception
    is caught (and logged to the console, which nothing reads): a rejected
    fetch, the error thrown for a status that is not ok, a body that is
    not JSON, the destructuring of [null], and the TypeError of a
    conversion to a string in [parseFloat] or in the template literal. *)
Definition enhanceFatebookLink (fetch : jsstring -> FetchOutcome)
           (questionId : jsstring) : option jsstring :=
  match fetch (getQuestionUrl questionId) with
  | FetchRejected => None
  | FetchResolved response =>
      if negb (response_ok response) then None   (* throw new Error(...) *)
      else
        match body response with
        | BodyInvalid => None
        | BodyJson v =>
            (* destructuring throws on [null] *)
            match getProp v (js "title"), getProp v (js "resolved"),
                  getProp v (js "resolution"),
                  getProp v (js "yourLatestPrediction") with
            | Some title, Some resolved, Some resolution,
              Some yourLatestPrediction =>
                if truthy title then
                  match predictionText yourLatestPrediction with
                  | Some predictionText =>
                      match toStr title with
                      | Some titleText =>
                          Some (statusEmoji resolved resolution ++ js " "
                                ++ titleText ++ predictionText)
                      | None => None
                      end
                  | None => None
                  end
                else None
            | _, _, _, _ => None
            end
        end
  end.

(* ================================================================ *)
(** ** [enhanceMarkdownLinks] *)

Record Change : Type := mkChange {
  from : jsstring;
  to : jsstring
}.

(** The body of the scanning loop for one match: the pushed change, if
    any. *)
Definition linkChange (fetch : jsstring -> FetchOutcome) (m : MatchResult)
  : option Change :=
  let fullMatch := m_text m in
  let linkText := m_group 1 m in
  let url := m_group 2 m in
  let questionId := getQuestionIdFromUrl url in
  match enhanceFatebookLink fetch questionId with
  | Some enhancedText =>
      (* [enhancedText && enhancedText !== linkText] *)
      match enhancedText with
      | [] => None
      | _ :: _ =>
          if negb (jsstring_eqb enhancedText linkText) then
            Some (mkChange fullMatch
                    (js "[" ++ enhancedText ++ js "](" ++ url ++ js ")"))
          else None
      end
  | None => None
  end.

Definition pushed (c : option Change) : list Change :=
  match c with
  | Some x => [x]
  | None => []
  end.

(** The [while ((match = regex.exec(content)) !== null)] loop.  [net n]
    is what the network answers to the [n]-th fetch of the run.  The loop
    is given as many iterations as the content has characters, plus one;
    [None] would mean that they did not suffice. *)
Fixpoint scanLoop (fuel : nat) (net : nat -> jsstring -> FetchOutcome)
         (content : jsstring) (lastIndex n : nat) (changes : list Change)
  : option (list Change) :=
  match fuel with
  | O => None
  | S fuel' =>
      match exec linkRegex content lastIndex with
      | None => Some changes
      | Some m =>
          scanLoop fuel' net content (m_end m) (S n)
                   (changes ++ pushed (linkChange (net n) m))
      end
  end.

Definition collectChanges (net : nat -> jsstring -> FetchOutcome)
           (content : jsstring) : option (list Change) :=
  scanLoop (S (length content)) net content 0 0 [].

(** [editor.replaceRange(text, offsetToPos(a), offsetToPos(b))] on the
    editor's value. *)
Definition replaceRange (value text : jsstring) (a b : nat) : jsstring :=
  firstn a value ++ text ++ skipn b value.

(** One iteration of [for (const change of changes)]. *)
Definition applyChange (value : jsstring) (change : Change) : jsstring :=
  let index := indexOf value (from change) in
  if (index =? -1)%Z then value
  else replaceRange value (to change) (Z.to_nat index)
                    (Z.to_nat index + length (from change)).

Definition applyChanges (value : jsstring) (changes : list Change) : jsstring :=
  fold_left applyChange changes value.

Record Editor : Type := mkEditor {
  editor_id : nat;             (* the identity of the editor object *)
  editor_value : jsstring      (* [editor.getValue()] *)
}.

Record View : Type := mkView {
  view_editor : option Editor;
  view_file : nat              (* the identity of [view.file] *)
}.

Inductive EnhanceOutcome : Type :=
| NoEditor                       (* returned at the first guard *)
| ViewChanged                    (* 'Editor or file changed?' *)
| Rewritten (changes : list Change) (value : jsstring)
| Diverged.                      (* the loop did not finish *)

(** [enhanceMarkdownLinks(view)] of the first revision.  [view] is the
    view when the function is called; [later] is the same view object
    when the loop has finished (other code runs while the function awaits
    its fetches).  The result gives the value of the editor after the
    run. *)
Definition enhanceMarkdownLinks (net : nat -> jsstring -> FetchOutcome)
           (view : option View) (later : View) : EnhanceOutcome :=
  match view with
  | None => NoEditor
  | Some v =>
      match view_editor v with
      | None => NoEditor
      | Some editor =>
          let file := view_file v in
          let content := editor_value editor in
          match collectChanges net content with
          | None => Diverged
          | Some changes =>
              match view_editor later with
              | Some editor' =>
                  if Nat.eqb (editor_id editor') (editor_id editor)
                     && Nat.eqb (view_file later) file
                  then Rewritten changes
                         (applyChanges (editor_value editor') changes)
                  else ViewChanged
              | None => ViewChanged
              end
          end
      end
  end.

(** A run during which nothing else touches the view. *)
Definition enhanceDocument (net : nat -> jsstring -> FetchOutcome)
           (doc : jsstring) : EnhanceOutcome :=
  let view := mkView (Some (mkEditor 0 doc)) 0 in
  enhanceMarkdownLinks net (Some view) view.

(* ================================================================ *)
(** ** Notions used to state the properties of link enhancement *)

(** The text of a markdown link. *)
Definition markdownLink (text url : jsstring) : jsstring :=
  js "[" ++ text ++ js "](" ++ url ++ js ")".

(** The matches the scanning loop visits, in order. *)
Fixpoint allMatches (fuel : nat) (content : jsstring) (lastIndex : nat)
  : list MatchResult :=
  match fuel with
  | O => []
  | S fuel' =>
      match exec linkRegex content lastIndex with
      | None => []
      | Some m => m :: allMatches fuel' content (m_end m)
      end
  end.

Definition matchedLinks (content : jsstring) : list MatchResult :=
  allMatches (S (length content)) content 0.

(** What the loop pushes for the matches [ms], the first of which is
    answered by the [n]-th fetch. *)
Fixpoint changesFor (net : nat -> jsstring -> FetchOutcome) (n : nat)
         (ms : list MatchResult) : list Change :=
  match ms with
  | [] => []
  | m :: rest => pushed (linkChange (net n) m) ++ changesFor net (S n) rest
  end.



(** Documents built from links: each item is the text before a link, the
    link's text and its target; [renderItems items ++ tail] is the
    document. *)
Definition Item : Type := (jsstring * jsstring * jsstring)%type.

Definition renderItem (it : Item) : jsstring :=
  let '(gap, text, url) := it in gap ++ markdownLink text url.

Fixpoint renderItems (items : list Item) : jsstring :=
  match items with
  | [] => []
  | it :: rest => renderItem it ++ renderItems rest
  end.

Definition bracket_free (s : jsstring) : Prop :=
  ~ In c_lbracket s /\ ~ In c_rbracket s.

(** The targets the link pattern accepts, without an opening bracket. *)
Definition isQuestionUrl (u : jsstring) : Prop :=
  exists scheme host path,
    u = scheme ++ host ++ js "fatebook.io/q/" ++ path
    /\ (scheme = js "http://" \/ scheme = js "https://")
    /\ (host = [] \/ host = js "www.")
    /\ path <> [] /\ ~ In c_rparen path /\ ~ In c_lbracket path.

(** A document in which an opening bracket only ever opens a link to a
    question, and link texts hold no bracket. *)
Definition plainItem (it : Item) : Prop :=
  let '(gap, text, url) := it in
  ~ In c_lbracket gap /\ bracket_free text /\ isQuestionUrl url.

Definition plainDocument (items : list Item) (tail : jsstring) : Prop :=
  Forall plainItem items /\ ~ In c_lbracket tail.


(** With fixed answers of the API: the enhanced text of a target, the
    change pushed for a link, and an item after a run. *)
Definition itemView (it : Item) : jsstring * jsstring * jsstring :=
  let '(_, t, u) := it in (markdownLink t u, t, u).

Definition enhanced (fetch : jsstring -> FetchOutcome) (u : jsstring)
  : option jsstring :=
  enhanceFatebookLink fetch (getQuestionIdFromUrl u).

Definition changeOf (fetch : jsstring -> FetchOutcome) (t u : jsstring)
  : option Change :=
  match enhanced fetch u with
  | Some e =>
      match e with
      | [] => None
      | _ :: _ =>
          if negb (jsstring_eqb e t)
          then Some (mkChange (markdownLink t u) (markdownLink e u))
          else None
      end
  | None => None
  end.

Definition itemChanges (fetch : jsstring -> FetchOutcome) (items : list Item)
  : list Change :=
  flat_map (fun it : Item => let '(_, t, u) := it in pushed (changeOf fetch t u))
           items.

Definition enhanceItem (fetch : jsstring -> FetchOutcome) (it : Item) : Item :=
  let '(g, t, u) := it in
  match changeOf fetch t u with
  | Some _ => match enhanced fetch u with
              | Some e => (g, e, u)
              | None => (g, t, u)
              end
  | None => (g, t, u)
  end.

(** No change would be pushed for the item. *)
Definition settled (fetch : jsstring -> FetchOutcome) (it : Item) : Prop :=
  let '(_, t, u) := it in changeOf fetch t u = None.

(** The enhanced texts of the targets of [items] hold no bracket. *)
Definition enhancedPlain (fetch : jsstring -> FetchOutcome) (items : list Item)
  : Prop :=
  Forall (fun it : Item =>
            let '(_, _, u) := it in
            forall e, enhanced fetch u = Some e -> bracket_free e) items.

(** Any document, as the scan sees it.  The link pattern matches at no
    position of [g] when [s] follows. *)
Definition noMatchWithin (g s : jsstring) : Prop :=
  forall a b, g = a ++ b -> b <> [] -> match_here linkRegex (b ++ s) = None.

(** The targets the link pattern accepts. *)
Definition isLinkTarget (u : jsstring) : Prop :=
  exists scheme host path,
    u = scheme ++ host ++ js "fatebook.io/q/" ++ path
    /\ (scheme = js "http://" \/ scheme = js "https://")
    /\ (host = [] \/ host = js "www.")
    /\ path <> [] /\ ~ In c_rparen path.

(** An item of a scanned document: the text the scan skips before a
    match, in which the pattern finds nothing whatever the text of the
    link that follows and whatever comes after that link; the text of the
    matched link, which may hold opening brackets; and its target, which
    holds none. *)
Definition scannedItem (it : Item) : Prop :=
  let '(g, t, u) := it in
  (forall t' rest, ~ In c_rbracket t' ->
                   noMatchWithin g (markdownLink t' u ++ rest))
  /\ ~ In c_rbracket t /\ isQuestionUrl u.

Definition scannedDocument (items : list Item) (tail : jsstring) : Prop :=
  Forall scannedItem items /\ noMatchWithin tail [].

(** No link that the scan of [doc] matches holds an opening bracket in
    its target. *)
Definition targetsWithoutOpeningBracket (doc : jsstring) : Prop :=
  forall m, In m (matchedLinks doc) -> ~ In c_lbracket (m_group 2 m).

(** The enhanced texts of the links that the scan of [doc] matches hold
    no bracket. *)
Definition enhancedTextsPlain (fetch : jsstring -> FetchOutcome) (doc : jsstring)
  : Prop :=
  forall m e, In m (matchedLinks doc) ->
              enhanced fetch (m_group 2 m) = Some e -> bracket_free e.

End Values.

(* ================================================================== *)
(** ** [debounce]

    [debounce(func, wait)] returns [executedFunction], which shares the
    variable [timeout] with the closures [later] it creates.  The host's
    timers are a table of pending timers; the clock counts milliseconds.
    [setTimeout] returns a fresh identifier, [clearTimeout] removes the
    timer with the given identifier if it is pending, and the host runs the
    callback of a pending timer at some moment at which its delay has
    elapsed, removing it from the table. *)

Module Debounce.
Section Debounce.
Variable Args : Type.          (* the arguments [...args] of a call *)
Variable wait : nat.

(** A pending timer created by [setTimeout(later, wait)]; [timer_args] are
    the arguments captured by the closure [later]. *)
Record Timer : Type := mkTimer {
  timer_id : nat;
  timer_due : nat;
  timer_args : Args
}.

(** What can be observed of a run, in order: calls of [executedFunction]
    and calls of [func], each with its time and arguments. *)
Inductive Entry : Type :=
| Called (time : nat) (args : Args)
| Ran (time : nat) (args : Args).

Record State : Type := mkState {
  now : nat;
  next_id : nat;                 (* identifiers not yet handed out *)
  timers : list Timer;           (* the host's pending timers *)
  timeout : option nat;          (* the variable [timeout] *)
  log : list Entry
}.

Definition initial : State := mkState 0 1 [] None [].

Definition clearTimeout (id : option nat) (ts : list Timer) : list Timer :=
  match id with
  | None => ts
  | Some i => filter (fun t => negb (Nat.eqb (timer_id t) i)) ts
  end.

(** [executedFunction(...args)] *)
Definition executedFunction (args : Args) (s : State) : State :=
  let ts := clearTimeout (timeout s) (timers s) in
  let id := next_id s in
  mkState (now s) (S id)
          (ts ++ [mkTimer id (now s + wait) args])
          (Some id)
          (log s ++ [Called (now s) args]).

(** The closure [later] of a call with arguments [args]. *)
Definition later (args : Args) (s : State) : State :=
  mkState (now s) (next_id s)
          (clearTimeout (timeout s) (timers s))
          (timeout s)
          (log s ++ [Ran (now s) args]).

Fixpoint find_timer (id : nat) (ts : list Timer) : option Timer :=
  match ts with
  | [] => None
  | t :: rest => if Nat.eqb (timer_id t) id then Some t else find_timer id rest
  end.

(** The host runs the callback of timer [id], if it is pending and due. *)
Definition fire (id : nat) (s : State) : State :=
  match find_timer id (timers s) with
  | Some t =>
      if Nat.leb (timer_due t) (now s) then
        later (timer_args t)
              (mkState (now s) (next_id s)
                       (filter (fun t' => negb (Nat.eqb (timer_id t') id)) (timers s))
                       (timeout s) (log s))
      else s
  | None => s
  end.

Inductive Event : Type :=
| Call (args : Args)     (* the debounced function is called *)
| Elapse (ms : nat)      (* time passes *)
| Fire (id : nat).       (* the host attempts timer [id] *)

Definition step (s : State) (e : Event) : State :=
  match e with
  | Call args => executedFunction args s
  | Elapse ms => mkState (now s + ms) (next_id s) (timers s) (timeout s) (log s)
  | Fire id => fire id s
  end.

Definition run (events : list Event) : State := fold_left step events initial.

(** Every call of [func] comes directly after the call of
    [executedFunction] whose arguments it receives, [wait] milliseconds
    later or more: no call and no other execution lies between them. *)
Definition runs_follow_quiet_calls (l : list Entry) : Prop :=
  forall pre t args post,
    l = pre ++ Ran t args :: post ->
    exists pre' t0, pre = pre' ++ [Called t0 args] /\ t0 + wait <= t.

(** At most one timer is pending: the one of the last call, which is the
    last entry of the log and whose identifier [timeout] holds. *)
Definition pending_is_last_call (s : State) : Prop :=
  timers s = []
  \/ exists t pre t0,
       timers s = [t] /\ timeout s = Some (timer_id t)
       /\ log s = pre ++ [Called t0 (timer_args t)]
       /\ timer_due t = t0 + wait.


(** Notions used to state what a burst of calls does: the arguments of
    the executions of [func] recorded in a log, in order; a run of events
    during which less than [wait] milliseconds pass after each call
    ([quiet] is the time since the last call); and the arguments of the
    last call of a run of events that follows a call with [args]. *)
Fixpoint executions (l : list Entry) : list Args :=
  match l with
  | [] => []
  | Called _ _ :: rest => executions rest
  | Ran _ args :: rest => args :: executions rest
  end.

Fixpoint rapid (quiet : nat) (events : list Event) : bool :=
  match events with
  | [] => true
  | Call _ :: rest => rapid 0 rest
  | Elapse ms :: rest => Nat.ltb (quiet + ms) wait && rapid (quiet + ms) rest
  | Fire _ :: rest => rapid quiet rest
  end.

Fixpoint last_call (args : Args) (events : list Event) : Args :=
  match events with
  | [] => args
  | Call args' :: rest => last_call args' rest
  | _ :: rest => last_call args rest
  end.

End Debounce.
End Debounce.

(* ================================================================== *)
(** ** The plugin object and the page, first revision (lines 1-376) *)

Module Rev1.

(** The glyph literals of the first listing (lines 176-183), as UTF-16
    code units.  They read a-circumflex, oe, ellipsis, space; a-circumflex,
    OE, space; eth, Y-diaeresis, currency sign, middle dot; a-circumflex,
    s-caron, en dash: the UTF-8 bytes of the glyphs of the second listing
    read as Windows-1252. *)
Definition glyphs : StatusGlyphs := {|
  glyph_check := [226; 339; 8230; 32]%N;
  glyph_cross := [226; 338; 32]%N;
  glyph_shrug := [240; 376; 164; 183]%N;
  glyph_scales := [226; 353; 8211]%N
|}.

Section Plugin.
Context {ops : NumberOps}.

(** An [iframe] element: the value last assigned to [src], and the inline
    styles the plugin sets. *)
Record Iframe : Type := mkIframe {
  src : JsValue;
  display : jsstring;
  width : jsstring;
  height : jsstring
}.

(** Calls into the host that leave no trace in the fields below. *)
Inductive Effect : Type :=
| ConsoleLog (msg : jsstring)
| ConsoleError (msg : jsstring)
| EditorFocus
| EditorInsertAtCursor (text : jsstring)   (* [editor.replaceRange(text, cursor)] *)
| EnhanceStarted                           (* [this.enhanceMarkdownLinks(activeView)] *)
| NoticeShown (msg : jsstring)
| RebuildView.

Record World : Type := mkWorld {
  predictWebview : option Iframe;    (* [None]: not yet set *)
  questionWebview : option Iframe;
  loginWebview : option Iframe;      (* [None]: [null] *)
  isLoginModalOpen : bool;
  isLoggedIn : bool;
  loginCallbacks : list nat;         (* the [resolve] functions, by promise *)
  resolved : list nat;               (* promises that have been resolved *)
  next_promise : nat;
  intervals : list nat;              (* pending interval timers *)
  next_interval : nat;
  polls : list nat;                  (* poll ticks awaiting their session check, by interval *)
  started : list nat;                (* every poll tick ever started, by interval *)
  hasActiveView : bool;              (* [getActiveViewOfType(MarkdownView)] is not null *)
  effects : list Effect
}.

Definition with_effects (w : World) (es : list Effect) : World :=
  mkWorld (predictWebview w) (questionWebview w) (loginWebview w)
          (isLoginModalOpen w) (isLoggedIn w) (loginCallbacks w) (resolved w)
          (next_promise w) (intervals w) (next_interval w) (polls w)
          (started w) (hasActiveView w) (effects w ++ es).

Definition with_predictWebview (w : World) (f : option Iframe) : World :=
  mkWorld f (questionWebview w) (loginWebview w)
          (isLoginModalOpen w) (isLoggedIn w) (loginCallbacks w) (resolved w)
          (next_promise w) (intervals w) (next_interval w) (polls w)
          (started w) (hasActiveView w) (effects w).

Definition with_questionWebview (w : World) (f : option Iframe) : World :=
  mkWorld (predictWebview w) f (loginWebview w)
          (isLoginModalOpen w) (isLoggedIn w) (loginCallbacks w) (resolved w)
          (next_promise w) (intervals w) (next_interval w) (polls w)
          (started w) (hasActiveView w) (effects w).

Definition with_loginWebview (w : World) (f : option Iframe) : World :=
  mkWorld (predictWebview w) (questionWebview w) f
          (isLoginModalOpen w) (isLoggedIn w) (loginCallbacks w) (resolved w)
          (next_promise w) (intervals w) (next_interval w) (polls w)
          (started w) (hasActiveView w) (effects w).

Definition with_isLoggedIn (w : World) (b : bool) : World :=
  mkWorld (predictWebview w) (questionWebview w) (loginWebview w)
          (isLoginModalOpen w) b (loginCallbacks w) (resolved w)
          (next_promise w) (intervals w) (next_interval w) (polls w)
          (started w) (hasActiveView w) (effects w).

(** The outcome of a synchronous piece of code. *)
Inductive Outcome : Type :=
| Done (w : World)
| Threw (w : World)
    (* a TypeError escapes, leaving the plugin as [w]; the host reports
       it and the page goes on *)
| PrototypeWrite (member : jsstring) (value : JsValue).
    (* [src] was assigned on a member of [Object.prototype] (on
       [Object.prototype] itself for the member [__proto__]); what the
       page does afterwards is outside this model *)

(** The plugin after a handler has returned or thrown. *)
Definition after (o : Outcome) : option World :=
  match o with
  | Done w | Threw w => Some w
  | PrototypeWrite _ _ => None
  end.

(** [setupWebview(type)] *)
Definition setupWebview (type : jsstring) : Iframe :=
  mkIframe
    (VString (fatebookUrl
              ++ (if jsstring_eqb type (js "login") then js "" else js "embed/")
              ++ type))
    (js "") (js "") (js "").

Definition set_display (d : jsstring) (f : Iframe) : Iframe :=
  mkIframe (src f) d (width f) (height f).
Definition set_src (v : JsValue) (f : Iframe) : Iframe :=
  mkIframe v (display f) (width f) (height f).
Definition set_width (wd : jsstring) (f : Iframe) : Iframe :=
  mkIframe (src f) (display f) wd (height f).
Definition set_height (ht : jsstring) (f : Iframe) : Iframe :=
  mkIframe (src f) (display f) (width f) ht.
Definition set_size (wd ht : jsstring) (f : Iframe) : Iframe :=
  mkIframe (src f) (display f) wd ht.

(** [closePredictionModal()] *)
Definition closePredictionModal (w : World) : World :=
  let w1 := with_effects w [ConsoleLog (js "Closing prediction modal")] in
  let w2 :=
    match predictWebview w1 with
    | Some f => with_predictWebview w1 (Some (set_display (js "none") f))
    | None => with_effects w1 [ConsoleError (js "Prediction webview not found")]
    end in
  if hasActiveView w2 then with_effects w2 [EditorFocus] else w2.

(** [handlePredictionCreated(predictionLink)]; [None] when the template
    literal throws, which is before anything is done. *)
Definition handlePredictionCreated (predictionLink : JsValue) (w : World)
  : option World :=
  if hasActiveView w then
    match toStr predictionLink with
    | Some link =>
        Some (with_effects w [EditorInsertAtCursor (js "[](" ++ link ++ js ")");
                              EnhanceStarted])
    | None => None
    end
  else Some w.

(** What [webviews[embedId] || null] can yield besides [null]: one of the
    three frames, or a member that the object literal inherits from
    [Object.prototype]. *)
Inductive Target : Type :=
| TPredict
| TQuestion
| TLogin
| TInherited (member : jsstring).

(** The properties of [Object.prototype]; each holds an object. *)
Definition objectPrototypeMembers : list jsstring :=
  map js ["constructor"; "__defineGetter__"; "__defineSetter__";
          "hasOwnProperty"; "__lookupGetter__"; "__lookupSetter__";
          "isPrototypeOf"; "propertyIsEnumerable"; "toString"; "valueOf";
          "__proto__"; "toLocaleString"]%string.

Definition some_if {A : Type} (o : option A) (t : Target) : option Target :=
  match o with
  | Some _ => Some t
  | None => None
  end.

(** [getWebviewByEmbedId(embedId)]; the key of [webviews[embedId]] is
    [embedId] converted to a string.  [None] when that conversion throws,
    [Some None] when the function returns [null]. *)
Definition getWebviewByEmbedId (w : World) (embedId : JsValue)
  : option (option Target) :=
  match toStr embedId with
  | None => None
  | Some key =>
      Some
        (if jsstring_eqb key (js "predict-modal")
         then some_if (predictWebview w) TPredict
         else if jsstring_eqb key (js "question-loader")
         then some_if (questionWebview w) TQuestion
         else if jsstring_eqb key (js "login")
         then some_if (loginWebview w) TLogin
         else if existsb (jsstring_eqb key) objectPrototypeMembers
         then Some (TInherited key)
         else None)
  end.

Definition update_target (t : Target) (g : Iframe -> Iframe) (w : World) : World :=
  match t with
  | TPredict => with_predictWebview w (option_map g (predictWebview w))
  | TQuestion => with_questionWebview w (option_map g (questionWebview w))
  | TLogin => with_loginWebview w (option_map g (loginWebview w))
  | TInherited _ => w
  end.

(** The members of [data] other than [action] and [embedId]. *)
Definition rest_of (data : JsValue) : JsValue :=
  match data with
  | VObject fields =>
      VObject (filter (fun kv => negb (jsstring_eqb (fst kv) (js "action")
                                       || jsstring_eqb (fst kv) (js "embedId")))
                      fields)
  | _ => VObject []
  end.

(** One of the two statements guarded by [action === 'resize_iframe']:
    [iframe.style.width] or [.height] is assigned [rest.box.width] or
    [.height] followed by [px].  It throws when [rest.box] is [null] or
    [undefined], when the conversion to a string throws, and when
    [iframe.style] is undefined. *)
Definition resizeStatement (member : jsstring) (set : jsstring -> Iframe -> Iframe)
           (rest : JsValue) (t : Target) (w : World) : Outcome :=
  match getProp (getField rest (js "box")) member with
  | Some v =>
      match toStr v with
      | Some text =>
          match t with
          | TInherited _ => Threw w
          | _ => Done (update_target t (set (text ++ js "px")) w)
          end
      | None => Threw w
      end
  | None => Threw w
  end.

(** The statements guarded by [action === 'resize_iframe']. *)
Definition resizeIframe (rest : JsValue) (t : Target) (w : World) : Outcome :=
  match resizeStatement (js "width") set_width rest t w with
  | Done w1 => resizeStatement (js "height") set_height rest t w1
  | o => o
  end.

(** The body of [case 'load-url'] once [iframe] is not null; [resize] is
    what the branch guarded by [action === 'resize_iframe'] does. *)
Definition loadUrlBody (resize : JsValue -> Target -> World -> Outcome)
           (action rest : JsValue) (t : Target) (w : World) : Outcome :=
  if strict_eq_string action (js "resize_iframe") then resize rest t w
  else if strict_eq_string action (js "load-url") then
    match t with
    | TInherited member => PrototypeWrite member (getField rest (js "src"))
    | _ => Done (update_target t (set_src (getField rest (js "src"))) w)
    end
  else Done w.

(** [handleIframeMessage({ data })], with the resize branch as a
    parameter. *)
Definition handleIframeMessageWith
           (resize : JsValue -> Target -> World -> Outcome)
           (data : JsValue) (w : World) : Outcome :=
  (* [if (!data?.isFatebook) return;] *)
  if negb (truthy (getField data (js "isFatebook"))) then Done w
  else
    let action := getField data (js "action") in
    let embedId := getField data (js "embedId") in
    let rest := rest_of data in
    if strict_eq_string action (js "prediction_cancel") then
      Done (closePredictionModal w)
    else if strict_eq_string action (js "prediction_create_success") then
      match handlePredictionCreated (getField rest (js "predictionLink")) w with
      | Some w1 => Done (closePredictionModal w1)
      | None => Threw w
      end
    else if strict_eq_string action (js "load-url") then
      match getWebviewByEmbedId w embedId with
      | Some (Some iframe) => loadUrlBody resize action rest iframe w
      | Some None => Done w
      | None => Threw w
      end
    else
      (* the template literal is evaluated before [console.log] is called *)
      match toStr action with
      | Some text =>
          Done (with_effects w [ConsoleLog (js "Unhandled Fatebook action: "
                                              ++ text)])
      | None => Threw w
      end.

(** [handleIframeMessage({ data })] as the source has it. *)
Definition handleIframeMessage (data : JsValue) (w : World) : Outcome :=
  handleIframeMessageWith resizeIframe data w.

(** [checkLoginStatus()], given how its [fetch] ends. *)
Definition checkLoginStatus (o : FetchOutcome) (w : World) : World :=
  match o with
  | FetchResolved response =>
      with_isLoggedIn w (negb (N.eqb (status response) 401))
  | FetchRejected => with_isLoggedIn w false
  end.

(** [openLoginModal()]; it contains no [await]. *)
Definition openLoginModal (w : World) : World :=
  if isLoginModalOpen w || isLoggedIn w then w
  else
    let frame :=
      match loginWebview w with
      | Some f => f
      | None => setupWebview (js "login")
      end in
    let frame := set_size (js "400px") (js "1000px")
                          (set_display (js "block") frame) in
    let checkLoginInterval := next_interval w in
    mkWorld (predictWebview w) (questionWebview w) (Some frame)
            true (isLoggedIn w) (loginCallbacks w) (resolved w)
            (next_promise w)
            (intervals w ++ [checkLoginInterval]) (S checkLoginInterval)
            (polls w) (started w) (hasActiveView w) (effects w).

(** [ensureLoggedIn()] after [await this.checkLoginStatus()]. *)
Definition ensureLoggedInResume (w : World) : World :=
  if negb (isLoggedIn w) then
    let resolve := next_promise w in
    let w1 :=
      mkWorld (predictWebview w) (questionWebview w) (loginWebview w)
              (isLoginModalOpen w) (isLoggedIn w)
              (loginCallbacks w ++ [resolve]) (resolved w)
              (S resolve) (intervals w) (next_interval w) (polls w)
              (started w) (hasActiveView w) (effects w) in
    if negb (isLoginModalOpen w1) then openLoginModal w1 else w1
  else w.

Definition ensureLoggedIn (o : FetchOutcome) (w : World) : World :=
  ensureLoggedInResume (checkLoginStatus o w).

Fixpoint remove_one (id : nat) (l : list nat) : list nat :=
  match l with
  | [] => []
  | x :: rest => if Nat.eqb x id then rest else x :: remove_one id rest
  end.

Definition clearInterval (id : nat) (l : list nat) : list nat :=
  filter (fun x => negb (Nat.eqb x id)) l.

(** The host runs the callback of interval [id], if it is pending: a poll
    tick starts and awaits its session check. *)
Definition intervalFires (id : nat) (w : World) : World :=
  if existsb (Nat.eqb id) (intervals w) then
    mkWorld (predictWebview w) (questionWebview w) (loginWebview w)
            (isLoginModalOpen w) (isLoggedIn w) (loginCallbacks w) (resolved w)
            (next_promise w) (intervals w) (next_interval w)
            (polls w ++ [id]) (started w ++ [id]) (hasActiveView w) (effects w)
  else w.

(** The poll tick of interval [checkLoginInterval] after
    [await this.checkLoginStatus()].  The tick is an async function: a
    TypeError on [this.loginWebview.style] would end it there. *)
Definition pollResume (checkLoginInterval : nat) (w : World) : World :=
  if isLoggedIn w then
    let cleared := clearInterval checkLoginInterval (intervals w) in
    match loginWebview w with
    | None =>
        mkWorld (predictWebview w) (questionWebview w) (loginWebview w)
                (isLoginModalOpen w) (isLoggedIn w) (loginCallbacks w)
                (resolved w) (next_promise w) cleared (next_interval w)
                (polls w) (started w) (hasActiveView w) (effects w)
    | Some f =>
        mkWorld (predictWebview w) (questionWebview w)
                (Some (set_display (js "none") f))
                false (isLoggedIn w)
                []
                (resolved w ++ loginCallbacks w)
                (next_promise w) cleared (next_interval w)
                (polls w) (started w) (hasActiveView w)
                (effects w ++ NoticeShown (js "Login successful")
                           :: (if hasActiveView w then [RebuildView] else []))
    end
  else w.

(** A poll tick of interval [id] gets the answer of its session check and
    resumes (the assignment in [checkLoginStatus] and the rest of the tick
    run in consecutive microtasks). *)
Definition pollCompletes (id : nat) (o : FetchOutcome) (w : World) : World :=
  if existsb (Nat.eqb id) (polls w) then
    let w1 :=
      mkWorld (predictWebview w) (questionWebview w) (loginWebview w)
              (isLoginModalOpen w) (isLoggedIn w) (loginCallbacks w) (resolved w)
              (next_promise w) (intervals w) (next_interval w)
              (remove_one id (polls w)) (started w) (hasActiveView w) (effects w) in
    pollResume id (checkLoginStatus o w1)
  else w.

(** The plugin when [onload] has registered the message listener:
    [checkLoginStatus] has run, the two embeds exist. *)
Definition loaded (o : FetchOutcome) (view : bool) : World :=
  checkLoginStatus o
    (mkWorld (Some (setupWebview (js "predict-modal")))
             (Some (setupWebview (js "question-loader")))
             None false false [] [] 0 [] 1 [] [] view []).

Inductive Event : Type :=
| Message (data : JsValue)              (* a [message] event on the window *)
| EnsureLoggedIn (o : FetchOutcome)     (* a call of [ensureLoggedIn] *)
| IntervalFires (id : nat)
| PollCompletes (id : nat) (o : FetchOutcome)
| ViewChanges (view : bool).            (* the active view appears or goes *)

(** One event; [None] when the handler leaves the model (a prototype is
    written). *)
Definition step (w : World) (e : Event) : option World :=
  match e with
  | Message data => after (handleIframeMessage data w)
  | EnsureLoggedIn o => Some (ensureLoggedIn o w)
  | IntervalFires id => Some (intervalFires id w)
  | PollCompletes id o => Some (pollCompletes id o w)
  | ViewChanges view =>
      Some (mkWorld (predictWebview w) (questionWebview w) (loginWebview w)
                    (isLoginModalOpen w) (isLoggedIn w) (loginCallbacks w)
                    (resolved w) (next_promise w) (intervals w)
                    (next_interval w) (polls w) (started w) view (effects w))
  end.

Fixpoint run (w : World) (events : list Event) : option World :=
  match events with
  | [] => Some w
  | e :: rest =>
      match step w e with
      | Some w' => run w' rest
      | None => None
      end
  end.

(** The worlds the plugin can be in. *)
Definition reachable (w : World) : Prop :=
  exists o view events, run (loaded o view) events = Some w.


(** Notions used to state the properties of this revision: the inline
    sizes of the three frames, the login part of a world, and two
    invariants of the interval timers. *)
Definition frameSizes (w : World) : list (option (jsstring * jsstring)) :=
  map (option_map (fun f => (width f, height f)))
      [predictWebview w; questionWebview w; loginWebview w].

Definition loginState (w : World)
  : bool * bool * list nat * list nat * nat * list nat * nat * list nat * list nat :=
  (isLoginModalOpen w, isLoggedIn w, loginCallbacks w, resolved w,
   next_promise w, intervals w, next_interval w, polls w, started w).

(** Every pending interval and every poll tick in flight belongs to a
    login modal that was opened: the login frame exists and the timer's
    identifier has been handed out. *)
Definition timers_ok (w : World) : Prop :=
  forall id, In id (intervals w) \/ In id (polls w) ->
             loginWebview w <> None /\ id < next_interval w.

(** An interval that was cleared. *)
Definition retired (id : nat) (w : World) : Prop :=
  ~ In id (intervals w) /\ id < next_interval w.


(** Further notions, used to state invariants of the worlds the plugin
    can be in.  The promises [ensureLoggedIn] has handed out are resolved
    or queued, in the order of their creation: first the resolved ones,
    then the queue. *)
Definition promises_in_order (w : World) : Prop :=
  resolved w ++ loginCallbacks w = seq 0 (next_promise w).

(** The login frame is displayed exactly while [isLoginModalOpen] is set,
    and has the size [openLoginModal] gives it. *)
Definition login_frame_follows_flag (w : World) : Prop :=
  match loginWebview w with
  | None => isLoginModalOpen w = false
  | Some f =>
      display f = (if isLoginModalOpen w then js "block" else js "none")
      /\ width f = js "400px" /\ height f = js "1000px"
  end.

(** Where callers wait the modal is open, and where the modal is open an
    interval timer is pending. *)
Definition waiters_are_polled (w : World) : Prop :=
  (loginCallbacks w <> [] -> isLoginModalOpen w = true)
  /\ (isLoginModalOpen w = true -> intervals w <> []).

(** The two embeds exist and carry no inline size. *)
Definition embeds_present (w : World) : Prop :=
  exists p q,
    predictWebview w = Some p /\ questionWebview w = Some q
    /\ width p = js "" /\ height p = js ""
    /\ width q = js "" /\ height q = js "".

(** The console message of the [else] branch of [closePredictionModal]. *)
Definition webviewNotFound : Effect :=
  ConsoleError (js "Prediction webview not found").

(** What the plugin has set on the login frame besides [src]. *)
Definition loginStyle (w : World) : option (jsstring * jsstring * jsstring) :=
  option_map (fun f => (display f, width f, height f)) (loginWebview w).

(** The invariants together. *)
Definition invariants (w : World) : Prop :=
  promises_in_order w /\ login_frame_follows_flag w /\ waiters_are_polled w
  /\ embeds_present w /\ ~ In webviewNotFound (effects w) /\ timers_ok w.

End Plugin.
End Rev1.

(* ================================================================== *)
(** ** The second revision (lines 377-755)

    Of the functions the claims are about, [checkLoginStatus] differs: it
    asks the session endpoint through Electron's [net] module and looks for
    a [user] member in the answer. *)

Module Rev2.

(** The glyph literals of the second listing (lines 557-564), as UTF-16
    code units: U+2705 and a space, U+274C and a space, U+1F937 (a
    surrogate pair), U+2696. *)
Definition glyphs : StatusGlyphs := {|
  glyph_check := [9989; 32]%N;
  glyph_cross := [10060; 32]%N;
  glyph_shrug := [55358; 56631]%N;
  glyph_scales := [9878]%N
|}.

Section Plugin.
Context {ops : NumberOps}.

(** [checkLoginStatus()]: the new value of [this.isLoggedIn], given how
    [remote.net.fetch] ends.  Every exception is caught: a rejected fetch,
    a body that is not JSON, and [data.user] on [null]. *)
Definition checkLoginStatus (o : FetchOutcome) : bool :=
  match o with
  | FetchRejected => false
  | FetchResolved response =>
      match body response with
      | BodyInvalid => false
      | BodyJson data =>
          match getProp data (js "user") with
          | Some user =>
              match user with
              | VUndefined => false
              | _ => true
              end
          | None => false
          end
      end
  end.


(* ---------------------------------------------------------------- *)
(** *** The page and the login of the second revision

    The plugin object of this revision has the fields of the first one
    except [loginWebview] and [isLoginModalOpen]; a world of the first
    revision holds them, with these two left at [None] and [false].
    [closePredictionModal] and the body of [handlePredictionCreated] are
    the same text as in the first revision. *)

(** [setupWebview(type)] *)
Definition setupWebview (type : jsstring) : Rev1.Iframe :=
  Rev1.mkIframe (VString (fatebookUrl ++ js "embed/" ++ type))
                (js "") (js "") (js "").

(** [getWebviewByEmbedId(embedId)]: the object literal has two members.
    [None] when the conversion of [embedId] to a string throws,
    [Some None] when the function returns [null]. *)
Definition getWebviewByEmbedId (p : Rev1.World) (embedId : JsValue)
  : option (option Rev1.Target) :=
  match toStr embedId with
  | None => None
  | Some key =>
      Some
        (if jsstring_eqb key (js "predict-modal")
         then Rev1.some_if (Rev1.predictWebview p) Rev1.TPredict
         else if jsstring_eqb key (js "question-loader")
         then Rev1.some_if (Rev1.questionWebview p) Rev1.TQuestion
         else if existsb (jsstring_eqb key) Rev1.objectPrototypeMembers
         then Some (Rev1.TInherited key)
         else None)
  end.

(** [ensureLoggedIn()]: no session check and no modal; when [isLoggedIn]
    is false the caller's promise joins the queue. *)
Definition ensureLoggedIn (p : Rev1.World) : Rev1.World :=
  if negb (Rev1.isLoggedIn p) then
    let resolve := Rev1.next_promise p in
    Rev1.mkWorld (Rev1.predictWebview p) (Rev1.questionWebview p)
                 (Rev1.loginWebview p) (Rev1.isLoginModalOpen p)
                 (Rev1.isLoggedIn p)
                 (Rev1.loginCallbacks p ++ [resolve]) (Rev1.resolved p)
                 (S resolve) (Rev1.intervals p) (Rev1.next_interval p)
                 (Rev1.polls p) (Rev1.started p) (Rev1.hasActiveView p)
                 (Rev1.effects p)
  else p.

(** A call of [enhanceMarkdownLinks(view)], up to the end of its first
    statement [await this.ensureLoggedIn()]. *)
Definition enhanceMarkdownLinksCalled (p : Rev1.World) : Rev1.World :=
  ensureLoggedIn (Rev1.with_effects p [Rev1.EnhanceStarted]).

(** [handlePredictionCreated(predictionLink)]: the text of the first
    revision; the call of [enhanceMarkdownLinks] it ends with now begins
    with [ensureLoggedIn].  [None] when the template literal throws. *)
Definition handlePredictionCreated (predictionLink : JsValue) (p : Rev1.World)
  : option Rev1.World :=
  if Rev1.hasActiveView p
  then option_map ensureLoggedIn (Rev1.handlePredictionCreated predictionLink p)
  else Some p.

(** The outcome of a handler on a state of type [S]. *)
Inductive Outcome (S : Type) : Type :=
| Done (s : S)
| Threw (s : S)
    (* as in the first revision: a TypeError escapes, leaving the state
       [s] *)
| PrototypeWrite (member : jsstring) (value : JsValue).
    (* as in the first revision: [src] was assigned on a member of
       [Object.prototype] *)

Arguments Done {S} s.
Arguments Threw {S} s.
Arguments PrototypeWrite {S} member value.

(** The state after a handler has returned or thrown. *)
Definition after {S : Type} (o : Outcome S) : option S :=
  match o with
  | Done s | Threw s => Some s
  | PrototypeWrite _ _ => None
  end.

(** The [switch] of [handleIframeMessage], after the guard. *)
Definition dispatch (data : JsValue) (p : Rev1.World) : Outcome Rev1.World :=
  if negb (truthy (getField data (js "isFatebook"))) then Done p
  else
    let action := getField data (js "action") in
    let embedId := getField data (js "embedId") in
    let rest := Rev1.rest_of data in
    if strict_eq_string action (js "prediction_cancel") then
      Done (Rev1.closePredictionModal p)
    else if strict_eq_string action (js "prediction_create_success") then
      match handlePredictionCreated (getField rest (js "predictionLink")) p with
      | Some p1 => Done (Rev1.closePredictionModal p1)
      | None => Threw p
      end
    else if strict_eq_string action (js "load-url") then
      match getWebviewByEmbedId p embedId with
      | Some (Some (Rev1.TInherited member)) =>
          PrototypeWrite member (getField rest (js "src"))
      | Some (Some iframe) =>
          Done (Rev1.update_target iframe
                  (Rev1.set_src (getField rest (js "src"))) p)
      | Some None => Done p
      | None => Threw p
      end
    else
      match toStr action with
      | Some text =>
          Done (Rev1.with_effects p
                  [Rev1.ConsoleLog (js "Unhandled Fatebook action: " ++ text)])
      | None => Threw p
      end.

(** Where [setupLogin] stands: awaiting the first session check, awaiting
    the promise of [openLoginModal], past it, or ended by an exception of
    [openLoginModal]. *)
Inductive Stage : Type :=
| AwaitingCheck
| AwaitingLogin
| Ready
| Failed.

Record World : Type := mkWorld {
  page : Rev1.World;
  stage : Stage;
  listening : bool;          (* the [message] listener is registered *)
  loginFrame : bool;         (* the login [webview] is attached to the body *)
  logged : list JsValue      (* [console.log('Fatebook iframe message', data)] *)
}.

Definition on_page (f : Rev1.World -> Rev1.World) (w : World) : World :=
  mkWorld (f (page w)) (stage w) (listening w) (loginFrame w) (logged w).

(** [handleIframeMessage({ data })] *)
Definition handleIframeMessage (data : JsValue) (w : World) : Outcome World :=
  let w1 := mkWorld (page w) (stage w) (listening w) (loginFrame w)
                    (logged w ++ [data]) in
  match dispatch data (page w1) with
  | Done p => Done (on_page (fun _ => p) w1)
  | Threw p => Threw (on_page (fun _ => p) w1)
  | PrototypeWrite member value => PrototypeWrite member value
  end.

(** The statements of [setupLogin] after its two [await]s. *)
Definition finishSetup (w : World) : World :=
  let p := page w in
  let p1 := Rev1.with_questionWebview
              (Rev1.with_predictWebview p (Some (setupWebview (js "predict-modal"))))
              (Some (setupWebview (js "question-loader"))) in
  let p2 := if Rev1.hasActiveView p1 then enhanceMarkdownLinksCalled p1 else p1 in
  mkWorld p2 Ready true (loginFrame w) (logged w).

(** [openLoginModal()] up to its [return].  [shadowRoot] tells whether
    the host gives the new [webview] element a shadow root; without one
    the statement that reaches into it throws, before the element is
    attached and before any timer is set, and the promise of
    [openLoginModal] is rejected. *)
Definition openLoginModal (shadowRoot : bool) (w : World) : World :=
  if shadowRoot then
    let p := page w in
    let checkLoginInterval := Rev1.next_interval p in
    mkWorld
      (Rev1.mkWorld (Rev1.predictWebview p) (Rev1.questionWebview p)
                    (Rev1.loginWebview p) (Rev1.isLoginModalOpen p)
                    (Rev1.isLoggedIn p) (Rev1.loginCallbacks p)
                    (Rev1.resolved p) (Rev1.next_promise p)
                    (Rev1.intervals p ++ [checkLoginInterval])
                    (S checkLoginInterval)
                    (Rev1.polls p) (Rev1.started p) (Rev1.hasActiveView p)
                    (Rev1.effects p))
      AwaitingLogin (listening w) true (logged w)
  else mkWorld (page w) Failed (listening w) (loginFrame w) (logged w).

(** [setupLogin()] after [await this.checkLoginStatus()]. *)
Definition setupLoginResume (o : FetchOutcome) (shadowRoot : bool) (w : World)
  : World :=
  let w1 := on_page (fun p => Rev1.with_isLoggedIn p (checkLoginStatus o)) w in
  if Rev1.isLoggedIn (page w1) then finishSetup w1
  else openLoginModal shadowRoot w1.

(** The poll tick of interval [checkLoginInterval] after
    [await this.checkLoginStatus()]; [resolve()] lets [setupLogin]
    continue, once. *)
Definition pollResume (checkLoginInterval : nat) (w : World) : World :=
  let p := page w in
  if Rev1.isLoggedIn p then
    let p1 :=
      Rev1.mkWorld (Rev1.predictWebview p) (Rev1.questionWebview p)
                   (Rev1.loginWebview p) (Rev1.isLoginModalOpen p)
                   (Rev1.isLoggedIn p)
                   []
                   (Rev1.resolved p ++ Rev1.loginCallbacks p)
                   (Rev1.next_promise p)
                   (Rev1.clearInterval checkLoginInterval (Rev1.intervals p))
                   (Rev1.next_interval p)
                   (Rev1.polls p) (Rev1.started p) (Rev1.hasActiveView p)
                   (Rev1.effects p ++ [Rev1.NoticeShown (js "Login successful")]) in
    let w1 := mkWorld p1 (stage w) (listening w) false (logged w) in
    match stage w with
    | AwaitingLogin => finishSetup w1
    | _ => w1
    end
  else w.

(** A poll tick of interval [id] gets the answer of its session check and
    resumes. *)
Definition pollCompletes (id : nat) (o : FetchOutcome) (w : World) : World :=
  let p := page w in
  if existsb (Nat.eqb id) (Rev1.polls p) then
    let p1 :=
      Rev1.mkWorld (Rev1.predictWebview p) (Rev1.questionWebview p)
                   (Rev1.loginWebview p) (Rev1.isLoginModalOpen p)
                   (checkLoginStatus o)
                   (Rev1.loginCallbacks p) (Rev1.resolved p)
                   (Rev1.next_promise p) (Rev1.intervals p)
                   (Rev1.next_interval p)
                   (Rev1.remove_one id (Rev1.polls p)) (Rev1.started p)
                   (Rev1.hasActiveView p) (Rev1.effects p) in
    pollResume id (mkWorld p1 (stage w) (listening w) (loginFrame w) (logged w))
  else w.

(** The plugin when [onload] has returned: [setupLogin] awaits its first
    session check. *)
Definition loading (view : bool) : World :=
  mkWorld (Rev1.mkWorld None None None false false [] [] 0 [] 1 [] [] view [])
          AwaitingCheck false false [].

Inductive Event : Type :=
| SetupCheckCompletes (o : FetchOutcome) (shadowRoot : bool)
| EnhanceCalled                         (* [file-open], the debounced [editor-change] *)
| IntervalFires (id : nat)
| PollCompletes (id : nat) (o : FetchOutcome)
| Message (data : JsValue)              (* a [message] event on the window *)
| ViewChanges (view : bool).

(** One event; [None] when the handler leaves the model (a prototype is
    written).  A message reaches the handler once the listener is
    registered. *)
Definition step (w : World) (e : Event) : option World :=
  match e with
  | SetupCheckCompletes o shadowRoot =>
      match stage w with
      | AwaitingCheck => Some (setupLoginResume o shadowRoot w)
      | _ => Some w
      end
  | EnhanceCalled => Some (on_page enhanceMarkdownLinksCalled w)
  | IntervalFires id => Some (on_page (Rev1.intervalFires id) w)
  | PollCompletes id o => Some (pollCompletes id o w)
  | Message data =>
      if listening w then after (handleIframeMessage data w)
      else Some w
  | ViewChanges view =>
      Some (on_page
              (fun p =>
                 Rev1.mkWorld (Rev1.predictWebview p) (Rev1.questionWebview p)
                              (Rev1.loginWebview p) (Rev1.isLoginModalOpen p)
                              (Rev1.isLoggedIn p) (Rev1.loginCallbacks p)
                              (Rev1.resolved p) (Rev1.next_promise p)
                              (Rev1.intervals p) (Rev1.next_interval p)
                              (Rev1.polls p) (Rev1.started p) view
                              (Rev1.effects p)) w)
  end.

Fixpoint run (w : World) (events : list Event) : option World :=
  match events with
  | [] => Some w
  | e :: rest =>
      match step w e with
      | Some w' => run w' rest
      | None => None
      end
  end.

(** The worlds the plugin can be in. *)
Definition reachable (w : World) : Prop :=
  exists view events, run (loading view) events = Some w.

(** The outcome of the first revision's handler that corresponds to an
    outcome of [dispatch]. *)
Definition as_first (o : Outcome Rev1.World) : Rev1.Outcome :=
  match o with
  | Done p => Rev1.Done p
  | Threw p => Rev1.Threw p
  | PrototypeWrite member value => Rev1.PrototypeWrite member value
  end.

(** Notions used to state invariants of this revision: what holds at
    each stage of [setupLogin]; the promises handed out are the resolved
    ones followed by the queued ones; and two pages that agree on timers,
    on [isLoggedIn] and on which embeds exist. *)
Definition stage_ok (w : World) : Prop :=
  let p := page w in
  match stage w with
  | AwaitingCheck =>
      Rev1.intervals p = [] /\ Rev1.polls p = []
      /\ Rev1.predictWebview p = None /\ Rev1.questionWebview p = None
      /\ listening w = false /\ loginFrame w = false
      /\ Rev1.isLoggedIn p = false /\ Rev1.next_interval p = 1
  | AwaitingLogin =>
      Rev1.intervals p = [1] /\ (forall id, In id (Rev1.polls p) -> id = 1)
      /\ Rev1.predictWebview p = None /\ Rev1.questionWebview p = None
      /\ listening w = false /\ loginFrame w = true
      /\ Rev1.isLoggedIn p = false
  | Ready =>
      Rev1.intervals p = []
      /\ Rev1.predictWebview p <> None /\ Rev1.questionWebview p <> None
      /\ listening w = true /\ loginFrame w = false
  | Failed =>
      Rev1.intervals p = [] /\ Rev1.polls p = []
      /\ Rev1.predictWebview p = None /\ Rev1.questionWebview p = None
      /\ listening w = false /\ loginFrame w = false
      /\ Rev1.isLoggedIn p = false
  end.

Definition queue_ok (w : World) : Prop :=
  Rev1.resolved (page w) ++ Rev1.loginCallbacks (page w)
  = seq 0 (Rev1.next_promise (page w)).

Definition page_same (p p' : Rev1.World) : Prop :=
  Rev1.intervals p' = Rev1.intervals p /\ Rev1.polls p' = Rev1.polls p
  /\ Rev1.next_interval p' = Rev1.next_interval p
  /\ Rev1.isLoggedIn p' = Rev1.isLoggedIn p
  /\ (Rev1.predictWebview p' = None <-> Rev1.predictWebview p = None)
  /\ (Rev1.questionWebview p' = None <-> Rev1.questionWebview p = None).

Definition page_queue (p : Rev1.World) : Prop :=
  Rev1.resolved p ++ Rev1.loginCallbacks p = seq 0 (Rev1.next_promise p).

Definition invariants (w : World) : Prop := queue_ok w /\ stage_ok w.

(** The queue of a page only grows: nothing was resolved, callers may
    have joined. *)
Definition queue_grows (p p' : Rev1.World) : Prop :=
  Rev1.resolved p' = Rev1.resolved p
  /\ exists more, Rev1.loginCallbacks p' = Rev1.loginCallbacks p ++ more.

(** Set-up is complete, no interval is pending and no poll tick is in
    flight. *)
Definition settled (w : World) : Prop :=
  stage w = Ready /\ Rev1.polls (page w) = [] /\ Rev1.intervals (page w) = [].

End Plugin.
End Rev2.

(* ================================================================== *)
(** ** The number operations on binary64

    An instance of [NumberOps] on the IEEE-754 binary64 format of
    [SpecFloat]: correctly rounded decimal-to-binary conversion, the
    shortest decimal that reads back ([Number::toString]), [toFixed(0)]
    with ties resolved upwards in magnitude, and [parseFloat]'s prefix
    scan.  The examples and the concrete runs below evaluate with it. *)

Module Float64.
Definition prec : Z := 53.
Definition emax : Z := 1024.
Definition float64 : Type := spec_float.

Definition sign_js (neg : bool) : jsstring := if neg then js "-" else [].

(** Decimal digits of a natural number, most significant first. *)
Fixpoint uint_digits (d : Decimal.uint) : jsstring :=
  match d with
  | Decimal.Nil => []
  | Decimal.D0 r => 48%N :: uint_digits r
  | Decimal.D1 r => 49%N :: uint_digits r
  | Decimal.D2 r => 50%N :: uint_digits r
  | Decimal.D3 r => 51%N :: uint_digits r
  | Decimal.D4 r => 52%N :: uint_digits r
  | Decimal.D5 r => 53%N :: uint_digits r
  | Decimal.D6 r => 54%N :: uint_digits r
  | Decimal.D7 r => 55%N :: uint_digits r
  | Decimal.D8 r => 56%N :: uint_digits r
  | Decimal.D9 r => 57%N :: uint_digits r
  end.

Definition digits_of_Z (n : Z) : jsstring := uint_digits (N.to_uint (Z.to_N n)).

(** The double nearest to [digits * 10^exp10] (ties to even). *)
Definition of_decimal (neg : bool) (digits : Z) (exp10 : Z) : float64 :=
  match digits with
  | Zpos d =>
      if (0 <=? exp10)%Z then
        binary_normalize prec emax (Z.pow 10 exp10 * (if neg then Zneg d else Zpos d)) 0 neg
      else
        let den := Z.pow 10 (- exp10) in
        let sh := Z.max 0 (66 + Z.log2 den - Z.log2 digits) in
        let num := Z.shiftl digits sh in
        let q := Z.div num den in
        let sticky := if Z.eqb (Z.modulo num den) 0 then 0%Z else 1%Z in
        let m := (2 * q + sticky)%Z in
        binary_normalize prec emax (if neg then Z.opp m else m) (- sh - 1) neg
  | _ => S754_zero neg
  end.

Definition f64_100 : float64 := of_decimal false 100 0.
Definition f64_mul (x y : float64) : float64 := SFmul prec emax x y.

Definition f64_truthy (x : float64) : bool :=
  match x with
  | S754_zero _ | S754_nan => false
  | _ => true
  end.

(** [10^21 <= m * 2^e] *)
Definition ge_1e21 (m : positive) (e : Z) : bool :=
  if (0 <=? e)%Z then (Z.pow 10 21 <=? Zpos m * Z.pow 2 e)%Z
  else (Z.pow 10 21 * Z.pow 2 (- e) <=? Zpos m)%Z.

(** Rounding of the rational [num / den] to the nearest integer. *)
Definition round_half_up (num den : Z) : Z := Z.div (2 * num + den) (2 * den).
Definition round_half_even (num den : Z) : Z :=
  let q := Z.div num den in
  let r := Z.modulo num den in
  match Z.compare (2 * r) den with
  | Lt => q
  | Gt => (q + 1)%Z
  | Eq => if Z.even q then q else (q + 1)%Z
  end.

(** The number of decimal digits of the integer part of [num / den]:
    the [n] with [10^(n-1) <= num/den < 10^n], searched downwards from an
    upper estimate. *)
Fixpoint find_exp10 (fuel : nat) (num den : Z) (n : Z) : Z :=
  match fuel with
  | O => n
  | S fuel' =>
      (* is  10^(n-1) <= num/den ? *)
      let ok := if (1 <=? n)%Z then (Z.pow 10 (n - 1) * den <=? num)%Z
                else (den <=? num * Z.pow 10 (1 - n))%Z in
      if ok then n else find_exp10 fuel' num den (n - 1)
  end.

Definition scaled (num den k_minus_n : Z) : Z * Z :=
  if (0 <=? k_minus_n)%Z then (num * Z.pow 10 k_minus_n, den)%Z
  else (num, den * Z.pow 10 (- k_minus_n))%Z.

(** The shortest decimal [s * 10^(n-k)] that reads back as the same
    double, with [k] digits. *)
Fixpoint shortest (fuel : nat) (x : float64) (num den n : Z) (k : Z) : Z * Z * Z :=
  let '(a, b) := scaled num den (k - n) in
  let s0 := round_half_even a b in
  let '(s, n') := if Z.eqb s0 (Z.pow 10 k) then (Z.pow 10 (k - 1), (n + 1)%Z) else (s0, n) in
  match fuel with
  | O => (s, n', k)
  | S fuel' =>
      match x, of_decimal false s (n' - k) with
      | S754_finite _ m e, S754_finite _ m' e' =>
          if Pos.eqb m m' && Z.eqb e e' then (s, n', k)
          else shortest fuel' x num den n (k + 1)
      | _, _ => shortest fuel' x num den n (k + 1)
      end
  end.

Definition zeros (n : Z) : jsstring := repeat 48%N (Z.to_nat n).

Definition exp_part (n : Z) : jsstring :=
  js "e" ++ (if (0 <=? n - 1)%Z then js "+" else js "-") ++ digits_of_Z (Z.abs (n - 1)).

(** Number::toString, radix 10. *)
Definition f64_toString (x : float64) : jsstring :=
  match x with
  | S754_nan => js "NaN"
  | S754_zero _ => js "0"
  | S754_infinity neg => sign_js neg ++ js "Infinity"
  | S754_finite neg m e =>
      let num := if (0 <=? e)%Z then (Zpos m * Z.pow 2 e)%Z else Zpos m in
      let den := if (0 <=? e)%Z then 1%Z else Z.pow 2 (- e) in
      let n0 := find_exp10 400 num den (Z.div ((Z.log2 num - Z.log2 den + 1) * 30103) 100000 + 2) in
      let '(s, n, k) := shortest 17 x num den n0 1 in
      let ds := digits_of_Z s in
      sign_js neg ++
      (if (k <=? n)%Z && (n <=? 21)%Z then ds ++ zeros (n - k)
       else if (0 <? n)%Z && (n <=? 21)%Z then
              firstn (Z.to_nat n) ds ++ js "." ++ skipn (Z.to_nat n) ds
       else if (-6 <? n)%Z && (n <=? 0)%Z then js "0." ++ zeros (- n) ++ ds
       else if Z.eqb k 1 then ds ++ exp_part n
       else firstn 1 ds ++ js "." ++ skipn 1 ds ++ exp_part n)
  end.

(** [x.toFixed(0)] *)
Definition f64_toFixed0 (x : float64) : jsstring :=
  match x with
  | S754_finite neg m e =>
      if ge_1e21 m e then f64_toString x
      else
        let n := if (0 <=? e)%Z then (Zpos m * Z.pow 2 e)%Z
                 else round_half_up (Zpos m) (Z.pow 2 (- e)) in
        sign_js neg ++ digits_of_Z n
  | S754_zero _ => js "0"
  | _ => f64_toString x
  end.

(** White space and line terminators skipped by [parseFloat]. *)
Definition is_whitespace (c : char16) : bool :=
  (N.eqb c 9 || N.eqb c 10 || N.eqb c 11 || N.eqb c 12 || N.eqb c 13
   || N.eqb c 32 || N.eqb c 160 || N.eqb c 5760
   || ((8192 <=? c) && (c <=? 8202)) || N.eqb c 8232 || N.eqb c 8233
   || N.eqb c 8239 || N.eqb c 8287 || N.eqb c 12288 || N.eqb c 65279)%N.

Fixpoint skip_whitespace (s : jsstring) : jsstring :=
  match s with
  | c :: s' => if is_whitespace c then skip_whitespace s' else s
  | [] => []
  end.

Definition is_digit (c : char16) : bool := ((48 <=? c) && (c <=? 57))%N.

(** The leading digits of [s], their value on top of [acc], their number. *)
Fixpoint read_digits (s : jsstring) (acc : Z) (count : Z) : Z * Z * jsstring :=
  match s with
  | c :: s' =>
      if is_digit c then read_digits s' (10 * acc + Z.of_N (c - 48)) (count + 1)
      else (acc, count, s)
  | [] => (acc, count, [])
  end.

Definition read_sign (s : jsstring) : bool * jsstring :=
  match s with
  | 45%N :: s' => (true, s')
  | 43%N :: s' => (false, s')
  | _ => (false, s)
  end.

(** The exponent part, when it is well formed; 0 otherwise. *)
Definition read_exponent (s : jsstring) : Z :=
  match s with
  | c :: s' =>
      if N.eqb c 101 || N.eqb c 69 then
        let '(neg, s'') := read_sign s' in
        let '(v, count, _) := read_digits s'' 0 0 in
        if Z.eqb count 0 then 0%Z else if neg then Z.opp v else v
      else 0%Z
  | [] => 0%Z
  end.

(** [parseFloat] of a string: the longest prefix, after white space, that
    is a decimal literal; NaN when there is none. *)
Definition f64_parseFloat (input : jsstring) : float64 :=
  let '(neg, s) := read_sign (skip_whitespace input) in
  if prefixb (js "Infinity") s then S754_infinity neg
  else
    let '(int_value, int_count, rest) := read_digits s 0 0 in
    let '(value, frac_count, rest') :=
      match rest with
      | 46%N :: r => read_digits r int_value 0
      | _ => (int_value, 0%Z, rest)
      end in
    if Z.eqb int_count 0 && Z.eqb frac_count 0 then S754_nan
    else of_decimal neg value (read_exponent rest' - frac_count).

#[export] Instance ops : NumberOps := {|
  number := float64;
  number_truthy := f64_truthy;
  number_toString := f64_toString;
  parseFloat_string := f64_parseFloat;
  number_mul := f64_mul;
  number_100 := f64_100;
  number_toFixed0 := f64_toFixed0
|}.
End Float64.

(** Answers of the API used in the concrete runs below. *)
Definition question (fields : list (jsstring * @JsValue Float64.ops))
  : @FetchOutcome Float64.ops :=
  FetchResolved (mkResponse 200 (BodyJson (VObject fields))).

Definition openQuestion (title : string) : @FetchOutcome Float64.ops :=
  question [(js "title", VString (js title)); (js "resolved", VBool false)].

(** A string in which [parseFloat] finds no number at once: it is empty,
    or its first character is neither white space, nor a digit, nor a
    sign, nor a dot, nor the [I] of [Infinity]. *)
Definition starts_no_number (s : jsstring) : bool :=
  match s with
  | [] => true
  | c :: _ =>
      negb (Float64.is_whitespace c || Float64.is_digit c
            || N.eqb c 43 || N.eqb c 45 || N.eqb c 46 || N.eqb c 73)
  end.

(* ================================================================== *)
(** * Properties *)

Section StringFacts.

Lemma prefixb_app : forall n s, prefixb n (n ++ s) = true.
Proof.
  induction n as [|c n IH]; intros s; simpl; [reflexivity|].
  rewrite N.eqb_refl, IH. reflexivity.
Qed.

Lemma prefixb_true : forall n s, prefixb n s = true -> exists t, s = n ++ t.
Proof.
  induction n as [|c n IH]; intros s H; simpl in *.
  - exists s. reflexivity.
  - destruct s as [|x s]; [discriminate|].
    apply andb_true_iff in H. destruct H as [Hx Hn].
    apply N.eqb_eq in Hx. subst x.
    destruct (IH _ Hn) as [t ->]. exists t. reflexivity.
Qed.

Lemma jsstring_eqb_eq : forall a b, jsstring_eqb a b = true <-> a = b.
Proof.
  induction a as [|x a IH]; intros [|y b]; simpl; split; intros H;
    try reflexivity; try discriminate.
  - apply andb_true_iff in H. destruct H as [H1 H2].
    apply N.eqb_eq in H1. apply IH in H2. congruence.
  - injection H as -> ->. rewrite N.eqb_refl. simpl. apply IH. reflexivity.
Qed.

Lemma jsstring_eqb_refl : forall a, jsstring_eqb a a = true.
Proof. intros a. apply jsstring_eqb_eq. reflexivity. Qed.

Lemma jsstring_eqb_neq : forall a b, jsstring_eqb a b = false <-> a <> b.
Proof.
  intros a b. split.
  - intros H E. apply jsstring_eqb_eq in E. congruence.
  - intros H. destruct (jsstring_eqb a b) eqn:E; [|reflexivity].
    apply jsstring_eqb_eq in E. contradiction.
Qed.

End StringFacts.

Section MatcherFacts.
Variable A : Type.

Lemma lit_app : forall l s (k : jsstring -> option A), lit l (l ++ s) k = k s.
Proof.
  induction l as [|c l IH]; intros s k; simpl; [reflexivity|].
  rewrite N.eqb_refl. apply IH.
Qed.

Lemma lit_some : forall l s (k : jsstring -> option A) r,
  lit l s k = Some r -> exists t, s = l ++ t /\ k t = Some r.
Proof.
  induction l as [|c l IH]; intros s k r H; simpl in *.
  - exists s. auto.
  - destruct s as [|x s]; [discriminate|].
    destruct (N.eqb x c) eqn:E; [|discriminate].
    apply N.eqb_eq in E. subst x.
    destruct (IH _ _ _ H) as [t [-> Hk]]. exists t. auto.
Qed.

Lemma lit_prefixb_false : forall l s (k : jsstring -> option A),
  prefixb l s = false -> lit l s k = None.
Proof.
  intros l s k H. destruct (lit l s k) as [r|] eqn:E; [|reflexivity].
  apply lit_some in E. destruct E as [t [-> _]].
  rewrite prefixb_app in H. discriminate.
Qed.

(** A greedy run ends where the continuation succeeds. *)
Lemma star_greedy_some : forall p s (k : jsstring -> option A) r,
  star_greedy p s k = Some r ->
  exists a t, s = a ++ t /\ forallb p a = true /\ k t = Some r.
Proof.
  induction s as [|c s IH]; intros k r H; simpl in H.
  - exists [], []. auto.
  - destruct (p c) eqn:Hp.
    + destruct (star_greedy p s k) eqn:E.
      * injection H as ->. destruct (IH _ _ E) as [a [t [-> [Ha Hk]]]].
        exists (c :: a), t. simpl. rewrite Hp. auto.
      * exists [], (c :: s). auto.
    + exists [], (c :: s). auto.
Qed.

(** When the continuation fails on every shorter remainder, the greedy run
    gives what the continuation gives on the whole input. *)
Lemma star_greedy_stop : forall p t (k : jsstring -> option A),
  (forall a' t', t = a' ++ t' -> a' <> [] -> k t' = None) ->
  star_greedy p t k = k t.
Proof.
  induction t as [|c t IH]; intros k Hnone; simpl; [reflexivity|].
  destruct (p c); [|reflexivity].
  destruct (star_greedy p t k) eqn:E; [|reflexivity].
  exfalso.
  apply star_greedy_some in E. destruct E as [a0 [t0 [-> [_ Hk']]]].
  rewrite (Hnone (c :: a0) t0) in Hk'; [discriminate|reflexivity|discriminate].
Qed.

(** On input that the class accepts throughout, the greedy run stops at
    the shortest remainder on which the continuation succeeds. *)
Lemma star_greedy_last : forall p a t (k : jsstring -> option A) r,
  forallb p a = true ->
  k t = Some r ->
  (forall a' t', t = a' ++ t' -> a' <> [] -> k t' = None) ->
  star_greedy p (a ++ t) k = Some r.
Proof.
  intros p a t k r Hall Hk Hnone.
  induction a as [|c a IH]; simpl.
  - rewrite star_greedy_stop by exact Hnone. exact Hk.
  - simpl in Hall. apply andb_true_iff in Hall. destruct Hall as [Hc Hall].
    rewrite Hc, (IH Hall). reflexivity.
Qed.

Lemma star_greedy_none : forall p s (k : jsstring -> option A),
  (forall a t, s = a ++ t -> k t = None) -> star_greedy p s k = None.
Proof.
  intros p s k H. destruct (star_greedy p s k) as [r|] eqn:E; [|reflexivity].
  apply star_greedy_some in E. destruct E as [a [t [-> [_ Hk]]]].
  rewrite (H a t eq_refl) in Hk. discriminate.
Qed.

Lemma star_lazy_some : forall p s (k : jsstring -> option A) r,
  star_lazy p s k = Some r ->
  exists a t, s = a ++ t /\ forallb p a = true /\ k t = Some r.
Proof.
  induction s as [|c s IH]; intros k r H; simpl in H.
  - destruct (k []) eqn:E; [|discriminate]. injection H as ->.
    exists [], []. auto.
  - destruct (k (c :: s)) eqn:E.
    + injection H as ->. exists [], (c :: s). auto.
    + destruct (p c) eqn:Hp; [|discriminate].
      destruct (IH _ _ H) as [a [t [-> [Ha Hk]]]].
      exists (c :: a), t. simpl. rewrite Hp. auto.
Qed.

(** A lazy run stops at the longest remainder on which the continuation
    succeeds. *)
Lemma star_lazy_first : forall p a t (k : jsstring -> option A) r,
  forallb p a = true ->
  k t = Some r ->
  (forall a1 a2, a = a1 ++ a2 -> a2 <> [] -> k (a2 ++ t) = None) ->
  star_lazy p (a ++ t) k = Some r.
Proof.
  induction a as [|c a IH]; intros t k r Hall Hk Hnone; simpl.
  - destruct t; simpl; rewrite Hk; reflexivity.
  - assert (H0 : k (c :: a ++ t) = None)
      by (apply (Hnone [] (c :: a) eq_refl); discriminate).
    rewrite H0. simpl in Hall. apply andb_true_iff in Hall. destruct Hall as [Hc Hall].
    rewrite Hc. apply IH; auto.
    intros a1 a2 E Hne. apply (Hnone (c :: a1) a2); [|exact Hne].
    simpl. rewrite E. reflexivity.
Qed.

End MatcherFacts.

Section LastIndexOf.

Lemma lastIndexOf_from_absent : forall c s i,
  ~ In c s -> lastIndexOf_from [c] s i = (-1)%Z.
Proof.
  induction s as [|x s IH]; intros i H; simpl; [reflexivity|].
  rewrite IH by (intros H1; apply H; right; exact H1).
  simpl. destruct (N.eqb c x) eqn:E.
  - apply N.eqb_eq in E. subst x. exfalso. apply H. left. reflexivity.
  - reflexivity.
Qed.

Lemma lastIndexOf_from_char : forall c pre post i,
  (0 <= i)%Z -> ~ In c post ->
  lastIndexOf_from [c] (pre ++ c :: post) i = (i + Z.of_nat (length pre))%Z.
Proof.
  induction pre as [|x pre IH]; intros post i Hi H.
  - simpl. rewrite lastIndexOf_from_absent by exact H. simpl.
    rewrite N.eqb_refl. simpl. lia.
  - cbn [app lastIndexOf_from length]. rewrite IH by (try lia; exact H).
    destruct (0 <=? i + 1 + Z.of_nat (length pre))%Z eqn:E.
    + lia.
    + apply Z.leb_gt in E. lia.
Qed.

Lemma lastSegment_computed : forall url seg,
  lastSegmentOf url seg ->
  substring_from url (lastIndexOf url (js "/") + 1) = seg.
Proof.
  intros url seg [Hno [-> | [pre ->]]]; unfold substring_from, lastIndexOf.
  - change (js "/") with [c_slash].
    rewrite lastIndexOf_from_absent by exact Hno. reflexivity.
  - change (js "/") with [c_slash]. cbn [app].
    rewrite lastIndexOf_from_char by (try lia; exact Hno).
    replace (Z.to_nat (Z.max 0 (0 + Z.of_nat (length pre) + 1))) with (length pre + 1) by lia.
    rewrite skipn_app.
    rewrite skipn_all2 by lia.
    replace (length pre + 1 - length pre) with 1 by lia. reflexivity.
Qed.

End LastIndexOf.

Section IdRegex.

Lemma idTail_match : forall s caps,
  rmatch idTail s caps (fun s1 c1 => Some (s1, c1))
  = option_map (fun t => (t, caps)) (after_delimiter s).
Proof.
  intros [|c s] caps; simpl; [reflexivity|].
  destruct (N.eqb c c_question); simpl; [reflexivity|].
  destruct (N.eqb c c_amp); reflexivity.
Qed.

Lemma upto_delimiter_split : forall s,
  exists rest, s = upto_delimiter s ++ rest /\ after_delimiter rest <> None.
Proof.
  induction s as [|c s [rest [IH1 IH2]]]; simpl.
  - exists []. split; [reflexivity|discriminate].
  - destruct (N.eqb c c_question || N.eqb c c_amp) eqn:E.
    + exists (c :: s). split; [reflexivity|]. simpl. rewrite E. discriminate.
    + exists rest. split; [simpl; congruence|exact IH2].
Qed.

Lemma upto_delimiter_inner : forall s a1 a2 rest,
  upto_delimiter s = a1 ++ a2 -> a2 <> [] -> after_delimiter (a2 ++ rest) = None.
Proof.
  induction s as [|c s IH]; intros a1 a2 rest H Hne; simpl in H.
  - destruct a1; destruct a2; try discriminate. contradiction.
  - destruct (N.eqb c c_question || N.eqb c c_amp) eqn:E.
    + destruct a1; destruct a2; try discriminate. contradiction.
    + destruct a1 as [|x a1]; simpl in H.
      * destruct a2 as [|y a2]; [contradiction|].
        injection H as <- _. simpl. rewrite E. reflexivity.
      * injection H as _ H. apply (IH _ _ _ H Hne).
Qed.

Lemma forallb_app_l : forall (p : char16 -> bool) a b,
  forallb p (a ++ b) = true -> forallb p a = true.
Proof. intros p a b H. rewrite forallb_app in H. apply andb_true_iff in H. tauto. Qed.

Lemma forallb_app_r : forall (p : char16 -> bool) a b,
  forallb p (a ++ b) = true -> forallb p b = true.
Proof. intros p a b H. rewrite forallb_app in H. apply andb_true_iff in H. tauto. Qed.

Lemma length_app_sub : forall (a b : jsstring), length (a ++ b) - length b = length a.
Proof. intros a b. rewrite length_app. lia. Qed.

Lemma firstn_app_exact : forall (a b : jsstring), firstn (length (a ++ b) - length b) (a ++ b) = a.
Proof.
  intros a b. rewrite length_app_sub. rewrite firstn_app, Nat.sub_diag, firstn_all.
  simpl. apply app_nil_r.
Qed.

(** The lazy group and the tail of the identifier pattern on input
    without line terminators. *)
Lemma idRegex_after_separator : forall b caps,
  forallb dot b = true ->
  exists rest,
    rmatch (RSeq (RGroup 2 (RStarLazy dot)) idTail) b caps
           (fun s1 c1 => Some (s1, c1))
    = Some (rest, (2, upto_delimiter b) :: caps).
Proof.
  intros b caps Hdot.
  destruct (upto_delimiter_split b) as [rest [Hb Hrest]].
  destruct (after_delimiter rest) as [tail|] eqn:Htail; [|contradiction].
  exists tail. cbn [rmatch].
  remember (upto_delimiter b) as ident eqn:Hid.
  assert (Hinner : forall a1 a2, ident = a1 ++ a2 -> a2 <> [] ->
                                 after_delimiter (a2 ++ rest) = None).
  { intros a1 a2 E Hne. rewrite Hid in E.
    apply (@upto_delimiter_inner b a1 a2 rest E Hne). }
  clear Hid. subst b.
  apply star_lazy_first.
  - apply forallb_app_l in Hdot. exact Hdot.
  - rewrite idTail_match, Htail. simpl.
    rewrite firstn_app_exact. reflexivity.
  - intros a1 a2 E Hne. rewrite idTail_match.
    rewrite (Hinner a1 a2 E Hne). reflexivity.
Qed.

Lemma search_here : forall r s i rest caps,
  match_here r s = Some (rest, caps) ->
  search r s i = Some (mkMatch i (firstn (length s - length rest) s) caps rest).
Proof. intros r s i rest caps H. destruct s; simpl; rewrite H; reflexivity. Qed.

Lemma search_none : forall r s i,
  (forall a t, s = a ++ t -> match_here r t = None) -> search r s i = None.
Proof.
  induction s as [|c s IH]; intros i H; simpl.
  - rewrite (H [] [] eq_refl). reflexivity.
  - rewrite (H [] (c :: s) eq_refl). apply IH.
    intros a t E. apply (H (c :: a) t). simpl. rewrite E. reflexivity.
Qed.

Lemma idRegex_needs_separator : forall s r,
  match_here idRegex s = Some r -> exists a b, s = a ++ js "--" ++ b.
Proof.
  intros s r H. unfold match_here, idRegex in H. cbn [rmatch] in H.
  apply star_greedy_some in H. destruct H as [a [t [-> [_ H]]]].
  apply lit_some in H. destruct H as [b [-> _]].
  exists a, b. reflexivity.
Qed.

Lemma idRegex_match : forall a b,
  forallb dot (a ++ js "--" ++ b) = true ->
  (forall a' b', a ++ js "--" ++ b = a' ++ js "--" ++ b' -> length a' <= length a) ->
  exists rest,
    match_here idRegex (a ++ js "--" ++ b)
    = Some (rest, [(2, upto_delimiter b); (1, a)]).
Proof.
  intros a b Hdot Hlast.
  destruct (idRegex_after_separator b [(1, a)]) as [rest Hrest].
  { apply forallb_app_r in Hdot. apply forallb_app_r in Hdot. exact Hdot. }
  exists rest. unfold match_here, idRegex. cbn [rmatch].
  apply star_greedy_last.
  - apply forallb_app_l in Hdot. exact Hdot.
  - cbn beta. rewrite lit_app. rewrite firstn_app_exact. exact Hrest.
  - intros a' t' E Hne.
    match goal with |- ?l = None => destruct l as [r|] eqn:Hl; [|reflexivity] end.
    exfalso. apply lit_some in Hl. destruct Hl as [b' [-> _]].
    assert (Hlen : length (a ++ a') <= length a).
    { apply (Hlast (a ++ a') b'). rewrite E, <- app_assoc. reflexivity. }
    rewrite length_app in Hlen. destruct a'; [contradiction|]. simpl in Hlen. lia.
Qed.

End IdRegex.

(** C3, amended: for a URL whose last path segment [seg] (what follows the
    final [/], the whole URL when there is none) holds no line terminator,
    [getQuestionIdFromUrl] returns, when [seg] contains the separator
    [--], the part after the last [--] up to the first [?] or [&] or the
    end of the segment, and otherwise the whole segment, which is the empty
    string when the segment is empty. *)
Theorem getQuestionIdFromUrl_last_segment :
  forall url seg,
    lastSegmentOf url seg ->
    forallb dot seg = true ->
    (forall a b,
        seg = a ++ js "--" ++ b ->
        (forall a' b', seg = a' ++ js "--" ++ b' -> length a' <= length a) ->
        getQuestionIdFromUrl url = upto_delimiter b)
    /\ ((forall a b, seg <> a ++ js "--" ++ b) ->
        getQuestionIdFromUrl url = seg).
Proof.
  intros url seg Hseg Hdot. unfold getQuestionIdFromUrl.
  rewrite (lastSegment_computed Hseg). split.
  - intros a b -> Hlast.
    destruct (idRegex_match a b Hdot Hlast) as [rest Hm].
    unfold match_. rewrite (@search_here _ _ 0 _ _ Hm). reflexivity.
  - intros Hno. unfold match_. rewrite search_none.
    + destruct seg; reflexivity.
    + intros a t E. destruct (match_here idRegex t) as [r|] eqn:Hm; [|reflexivity].
      exfalso. apply idRegex_needs_separator in Hm. destruct Hm as [a' [b' ->]].
      apply (Hno (a ++ a') b'). rewrite E, <- app_assoc. reflexivity.
Qed.

Section GroupFree.
Variable A : Type.

(** A match of a group-free pattern consumes a prefix of the input and
    hands the captures on as they are. *)
Lemma rmatch_group_free : forall r s caps (k : jsstring -> captures -> option A) res,
  group_free r = true ->
  rmatch r s caps k = Some res ->
  exists a t, s = a ++ t /\ k t caps = Some res.
Proof.
  induction r as [c|l|p|r1 IH1 r2 IH2|r1 IH1 r2 IH2|n r1 IH1|r1 IH1|p|p|p|];
    intros s caps k res Hg H; simpl in Hg, H.
  - destruct s as [|x s]; [discriminate|].
    destruct (N.eqb x c); [|discriminate]. exists [x], s. auto.
  - apply lit_some in H. destruct H as [t [-> Hk]]. exists l, t. auto.
  - destruct s as [|x s]; [discriminate|].
    destruct (p x); [|discriminate]. exists [x], s. auto.
  - apply andb_true_iff in Hg. destruct Hg as [Hg1 Hg2].
    apply IH1 in H; [|exact Hg1]. destruct H as [a [t [-> H]]].
    apply IH2 in H; [|exact Hg2]. destruct H as [a' [t' [-> H]]].
    exists (a ++ a'), t'. rewrite app_assoc. auto.
  - apply andb_true_iff in Hg. destruct Hg as [Hg1 Hg2].
    destruct (rmatch r1 s caps k) as [x|] eqn:E.
    + injection H as ->. apply (IH1 _ _ _ _ Hg1 E).
    + apply (IH2 _ _ _ _ Hg2 H).
  - discriminate.
  - destruct (rmatch r1 s caps k) as [x|] eqn:E.
    + injection H as ->. apply (IH1 _ _ _ _ Hg E).
    + exists [], s. auto.
  - apply star_greedy_some in H. destruct H as [a [t [-> [_ H]]]]. exists a, t. auto.
  - destruct s as [|x s]; [discriminate|].
    destruct (p x); [|discriminate].
    apply star_greedy_some in H. destruct H as [a [t [-> [_ H]]]].
    exists (x :: a), t. auto.
  - apply star_lazy_some in H. destruct H as [a [t [-> [_ H]]]]. exists a, t. auto.
  - destruct s; [|discriminate]. exists [], []. auto.
Qed.

End GroupFree.

Section LinkRegex.

(** A match of the link pattern is the text of a markdown link; its two
    captures are the text and the target. *)
Lemma linkRegex_shape : forall s rest caps,
  match_here linkRegex s = Some (rest, caps) ->
  exists t u,
    s = markdownLink t u ++ rest /\ caps = [(2, u); (1, t)].
Proof.
  intros s rest caps H. unfold match_here, linkRegex in H.
  cbn [rmatch] in H.
  destruct s as [|x s]; [discriminate|].
  destruct (N.eqb x c_lbracket) eqn:Ex; [|discriminate].
  apply N.eqb_eq in Ex. subst x.
  apply star_greedy_some in H. destruct H as [t [s2 [-> [_ H]]]].
  rewrite firstn_app_exact in H.
  destruct s2 as [|x s2]; [discriminate|].
  destruct (N.eqb x c_rbracket) eqn:Ex; [|discriminate].
  apply N.eqb_eq in Ex. subst x.
  destruct s2 as [|x s3]; [discriminate|].
  destruct (N.eqb x c_lparen) eqn:Ex; [|discriminate].
  apply N.eqb_eq in Ex. subst x.
  apply rmatch_group_free in H; [|reflexivity].
  destruct H as [u [s4 [-> H]]].
  rewrite firstn_app_exact in H.
  destruct s4 as [|x s4]; [discriminate|].
  destruct (N.eqb x c_rparen) eqn:Ex; [|discriminate].
  apply N.eqb_eq in Ex. subst x.
  injection H as <- <-.
  exists t, u. split; [|reflexivity].
  unfold markdownLink. simpl. f_equal.
  rewrite <- !app_assoc. simpl. rewrite <- !app_assoc. reflexivity.
Qed.

Lemma search_some : forall r s i m,
  search r s i = Some m ->
  exists a t,
    s = a ++ t /\ m_index m = i + length a
    /\ match_here r t = Some (m_rest m, m_caps m)
    /\ m_text m = firstn (length t - length (m_rest m)) t.
Proof.
  induction s as [|c s IH]; intros i m H; simpl in H.
  - destruct (match_here r []) as [[rest caps]|] eqn:E; [|discriminate].
    injection H as <-. exists [], []. simpl. rewrite E. repeat split; auto.
  - destruct (match_here r (c :: s)) as [[rest caps]|] eqn:E.
    + injection H as <-. exists [], (c :: s). simpl. rewrite E.
      repeat split; auto.
    + apply IH in H. destruct H as [a [t [-> [Hi [Hm Ht]]]]].
      exists (c :: a), t. simpl. repeat split; auto. lia.
Qed.

Lemma firstn_length_app : forall (x y : jsstring), firstn (length x) (x ++ y) = x.
Proof.
  intros x y. rewrite firstn_app, Nat.sub_diag, firstn_all. simpl. apply app_nil_r.
Qed.

(** What [exec] finds with the link pattern. *)
Lemma exec_linkRegex : forall content i m,
  exec linkRegex content i = Some m ->
  exists t u,
    m_text m = markdownLink t u
    /\ m_group 1 m = t /\ m_group 2 m = u
    /\ i <= m_index m
    /\ m_end m <= length content
    /\ firstn (m_index m) content ++ m_text m ++ m_rest m = content.
Proof.
  intros content i m H. unfold exec in H.
  destruct (Nat.ltb (length content) i) eqn:Hi; [discriminate|].
  apply Nat.ltb_ge in Hi.
  apply search_some in H. destruct H as [a [s [Hs [Hidx [Hm Htext]]]]].
  apply linkRegex_shape in Hm. destruct Hm as [t [u [Hs' Hcaps]]].
  exists t, u. unfold m_group, m_end. rewrite Hcaps. simpl.
  rewrite Htext, Hs'. rewrite firstn_app_exact.
  assert (Hc : content = firstn i content ++ a ++ markdownLink t u ++ m_rest m).
  { rewrite <- Hs', <- Hs. symmetry. apply firstn_skipn. }
  assert (Hlen : length (firstn i content) = i) by (apply firstn_length_le; exact Hi).
  assert (Hl : length content
               = i + (length a + (length (markdownLink t u) + length (m_rest m)))).
  { rewrite Hc at 1. rewrite !length_app, Hlen. reflexivity. }
  repeat split; try lia.
  rewrite Hidx.
  assert (Hf : firstn (i + length a) content = firstn i content ++ a).
  { rewrite Hc at 1. rewrite <- Hlen at 1.
    rewrite app_assoc, <- length_app. apply firstn_length_app. }
  rewrite Hf, <- app_assoc. symmetry. exact Hc.
Qed.

Lemma markdownLink_length : forall t u, 0 < length (markdownLink t u).
Proof. intros t u. unfold markdownLink. simpl. lia. Qed.

Lemma exec_linkRegex_progress : forall content i m,
  exec linkRegex content i = Some m -> i < m_end m.
Proof.
  intros content i m H. apply exec_linkRegex in H.
  destruct H as [t [u [Ht [_ [_ [Hi _]]]]]].
  unfold m_end. rewrite Ht. pose proof (markdownLink_length t u). lia.
Qed.

End LinkRegex.

Section IndexOf.

Lemma indexOf_from_found : forall needle s i,
  indexOf_from needle s i <> (-1)%Z -> (0 <= i)%Z ->
  exists pre post,
    s = pre ++ needle ++ post
    /\ indexOf_from needle s i = (i + Z.of_nat (length pre))%Z.
Proof.
  induction s as [|c s IH]; intros i H Hi; simpl in *.
  - destruct (prefixb needle []) eqn:E; [|contradiction].
    apply prefixb_true in E. destruct E as [t E].
    exists [], t. split; [exact E|simpl; lia].
  - destruct (prefixb needle (c :: s)) eqn:E.
    + apply prefixb_true in E. destruct E as [t E].
      exists [], t. split; [exact E|simpl; lia].
    + destruct (IH (i + 1)%Z H ltac:(lia)) as [pre [post [-> Hr]]].
      exists (c :: pre), post. split; [reflexivity|]. rewrite Hr. simpl length. lia.
Qed.

Lemma indexOf_from_range : forall needle s i,
  (0 <= i)%Z -> indexOf_from needle s i = (-1)%Z \/ (i <= indexOf_from needle s i)%Z.
Proof.
  induction s as [|c s IH]; intros i Hi; simpl.
  - destruct (prefixb needle []); [right; lia|left; reflexivity].
  - destruct (prefixb needle (c :: s)); [right; lia|].
    destruct (IH (i + 1)%Z ltac:(lia)) as [H|H]; [left; exact H|right; lia].
Qed.

Lemma indexOf_absent : forall needle s i,
  (forall pre post, s <> pre ++ needle ++ post) ->
  indexOf_from needle s i = (-1)%Z.
Proof.
  induction s as [|c s IH]; intros i H; simpl.
  - destruct (prefixb needle []) eqn:E; [|reflexivity].
    apply prefixb_true in E. destruct E as [t E]. exfalso. apply (H [] t). exact E.
  - destruct (prefixb needle (c :: s)) eqn:E.
    + apply prefixb_true in E. destruct E as [t E]. exfalso. apply (H [] t). exact E.
    + apply IH. intros pre post E'. apply (H (c :: pre) post). rewrite E'. reflexivity.
Qed.

End IndexOf.

Section EnhanceFacts.
Context {ops : NumberOps} {glyphs : StatusGlyphs}.


(** The change pushed for a match, when there is one. *)
Lemma linkChange_some : forall fetch m c,
  linkChange fetch m = Some c ->
  exists e,
    enhanceFatebookLink fetch (getQuestionIdFromUrl (m_group 2 m)) = Some e
    /\ e <> m_group 1 m
    /\ from c = m_text m
    /\ to c = markdownLink e (m_group 2 m).
Proof.
  intros fetch m c H. unfold linkChange in H.
  destruct (enhanceFatebookLink fetch (getQuestionIdFromUrl (m_group 2 m)))
    as [e|] eqn:E; [|discriminate].
  destruct e as [|x e]; [discriminate|].
  destruct (jsstring_eqb (x :: e) (m_group 1 m)) eqn:Eq; [discriminate|].
  injection H as <-. exists (x :: e). simpl.
  apply jsstring_eqb_neq in Eq. auto.
Qed.

Lemma linkChange_none : forall fetch m,
  linkChange fetch m = None <->
  (enhanceFatebookLink fetch (getQuestionIdFromUrl (m_group 2 m)) = None
   \/ enhanceFatebookLink fetch (getQuestionIdFromUrl (m_group 2 m)) = Some []
   \/ enhanceFatebookLink fetch (getQuestionIdFromUrl (m_group 2 m))
      = Some (m_group 1 m)).
Proof.
  intros fetch m. unfold linkChange.
  destruct (enhanceFatebookLink fetch (getQuestionIdFromUrl (m_group 2 m)))
    as [e|] eqn:E.
  - destruct e as [|x e].
    + split; auto.
    + destruct (jsstring_eqb (x :: e) (m_group 1 m)) eqn:Eq; simpl.
      * apply jsstring_eqb_eq in Eq. rewrite Eq. split; auto.
      * apply jsstring_eqb_neq in Eq. split; [discriminate|].
        intros [H|[H|H]]; try discriminate. injection H as H. contradiction.
  - split; auto.
Qed.

(** The loop ends, having visited [allMatches] and pushed [changesFor]. *)
Lemma scanLoop_changesFor : forall fuel net content i n acc,
  length content - i < fuel ->
  scanLoop fuel net content i n acc
  = Some (acc ++ changesFor net n (allMatches fuel content i)).
Proof.
  induction fuel as [|fuel IH]; intros net content i n acc Hlen; [lia|].
  simpl. destruct (exec linkRegex content i) as [m|] eqn:E.
  - rewrite IH.
    + simpl. rewrite app_assoc. reflexivity.
    + pose proof (exec_linkRegex_progress _ _ E) as Hp.
      apply exec_linkRegex in E.
      destruct E as [t [u [_ [_ [_ [_ [He _]]]]]]]. lia.
  - simpl. rewrite app_nil_r. reflexivity.
Qed.

Lemma collectChanges_changesFor : forall net content,
  collectChanges net content = Some (changesFor net 0 (matchedLinks content)).
Proof.
  intros net content. unfold collectChanges, matchedLinks.
  rewrite scanLoop_changesFor by lia. reflexivity.
Qed.

(** Every pushed change comes from a recorded link. *)
Lemma changesFor_recorded : forall net ms n c,
  In c (changesFor net n ms) ->
  exists k m e,
    nth_error ms k = Some m
    /\ enhanceFatebookLink (net (n + k)) (getQuestionIdFromUrl (m_group 2 m)) = Some e
    /\ from c = m_text m
    /\ to c = markdownLink e (m_group 2 m).
Proof.
  induction ms as [|m ms IH]; intros n c H; simpl in H; [contradiction|].
  apply in_app_or in H. destruct H as [H|H].
  - destruct (linkChange (net n) m) as [c'|] eqn:E; simpl in H; [|contradiction].
    destruct H as [<-|[]].
    apply linkChange_some in E. destruct E as [e [He [_ [Hf Ht]]]].
    exists 0, m, e. rewrite Nat.add_0_r. auto.
  - apply IH in H. destruct H as [k [m' [e [Hk [He [Hf Ht]]]]]].
    exists (S k), m', e. rewrite Nat.add_succ_r. auto.
Qed.

Lemma allMatches_shape : forall fuel content i m,
  In m (allMatches fuel content i) ->
  m_text m = markdownLink (m_group 1 m) (m_group 2 m).
Proof.
  induction fuel as [|fuel IH]; intros content i m H; simpl in H; [contradiction|].
  destruct (exec linkRegex content i) as [m0|] eqn:E; [|contradiction].
  destruct H as [<-|H].
  - apply exec_linkRegex in E. destruct E as [t [u [Ht [H1 [H2 _]]]]].
    rewrite H1, H2. exact Ht.
  - apply (IH _ _ _ H).
Qed.



End EnhanceFacts.

Section EnhanceFacts2.
Context {ops : NumberOps} {glyphs : StatusGlyphs}.


Lemma changesFor_nil : forall net ms n,
  (forall k m, nth_error ms k = Some m -> linkChange (net (n + k)) m = None) ->
  changesFor net n ms = [].
Proof.
  induction ms as [|m ms IH]; intros n H; simpl; [reflexivity|].
  pose proof (H 0 m eq_refl) as H0. rewrite Nat.add_0_r in H0. rewrite H0. simpl.
  apply IH. intros k m' Hk. rewrite Nat.add_succ_comm. apply (H (S k) m' Hk).
Qed.

Lemma enhanceDocument_changesFor : forall net content,
  enhanceDocument net content
  = Rewritten (changesFor net 0 (matchedLinks content))
              (applyChanges content (changesFor net 0 (matchedLinks content))).
Proof.
  intros net content. unfold enhanceDocument, enhanceMarkdownLinks. simpl.
  rewrite collectChanges_changesFor. reflexivity.
Qed.


(** A run on a document whose links already show their enhanced text, or
    have none, records no change and leaves the document as it is. *)
Lemma enhance_settled_document :
  forall net content,
    (forall n m,
        nth_error (matchedLinks content) n = Some m ->
        enhanceFatebookLink (net n) (getQuestionIdFromUrl (m_group 2 m)) = None
        \/ enhanceFatebookLink (net n) (getQuestionIdFromUrl (m_group 2 m))
           = Some (m_group 1 m)) ->
    enhanceDocument net content = Rewritten [] content.
Proof.
  intros net content H. rewrite enhanceDocument_changesFor.
  rewrite changesFor_nil; [reflexivity|].
  intros k m Hk. apply linkChange_none. simpl.
  destruct (H k m Hk) as [E|E]; auto.
Qed.

End EnhanceFacts2.

Section ListFacts.
Variable T : Type.

(** Two ways of splitting one list. *)
Lemma app_eq_split : forall (a b c d : list T),
  a ++ b = c ++ d -> length a <= length c ->
  exists l, c = a ++ l /\ b = l ++ d.
Proof.
  induction a as [|x a IH]; intros b c d E Hl; simpl in *.
  - exists c. auto.
  - destruct c as [|y c]; simpl in *; [lia|].
    injection E as -> E. destruct (IH b c d E ltac:(lia)) as [l [-> ->]].
    exists l. auto.
Qed.

Lemma occurrence_after : forall (a b c d : list T) x,
  a ++ b = c ++ x :: d -> ~ In x a -> length a <= length c.
Proof.
  induction a as [|y a IH]; intros b c d x E Hn; simpl in *; [lia|].
  destruct c as [|z c]; simpl in *.
  - injection E as -> _. exfalso. apply Hn. left. reflexivity.
  - injection E as _ E. apply IH in E; [lia|]. intros H. apply Hn. right. exact H.
Qed.

Lemma first_delimiter : forall (a b c d : list T) x,
  a ++ x :: b = c ++ x :: d -> ~ In x a -> ~ In x c -> a = c /\ b = d.
Proof.
  induction a as [|y a IH]; intros b c d x E Ha Hc; destruct c as [|z c]; simpl in *.
  - injection E as ->. auto.
  - injection E as <- _. exfalso. apply Hc. left. reflexivity.
  - injection E as -> _. exfalso. apply Ha. left. reflexivity.
  - injection E as -> E. apply IH in E; [|tauto|tauto]. destruct E as [-> ->]. auto.
Qed.

End ListFacts.

Section PlainLinks.
Variable A : Type.

(** A greedy run over input the class accepts, up to a character it
    rejects, stops there when the continuation succeeds. *)
Lemma star_greedy_take : forall p a s (k : jsstring -> option A) r,
  forallb p a = true ->
  (forall hd tl, s = hd :: tl -> p hd = false) ->
  k s = Some r ->
  star_greedy p (a ++ s) k = Some r.
Proof.
  induction a as [|c a IH]; intros s k r Ha Hs Hk; simpl.
  - destruct s as [|hd tl]; simpl; [exact Hk|].
    rewrite (Hs hd tl eq_refl). exact Hk.
  - simpl in Ha. apply andb_true_iff in Ha. destruct Ha as [Hc Ha].
    rewrite Hc, (IH s k r Ha Hs Hk). reflexivity.
Qed.

Lemma not_in_forallb : forall c (s : jsstring),
  ~ In c s -> forallb (fun x => negb (N.eqb x c)) s = true.
Proof.
  induction s as [|x s IH]; intros H; simpl; [reflexivity|].
  rewrite IH by (intros Hi; apply H; right; exact Hi).
  destruct (N.eqb x c) eqn:E; [|reflexivity].
  apply N.eqb_eq in E. subst. exfalso. apply H. left. reflexivity.
Qed.

Lemma urlPattern_matches : forall u rest caps
    (k : jsstring -> captures -> option A) r,
  isQuestionUrl u ->
  k (c_rparen :: rest) caps = Some r ->
  rmatch urlPattern (u ++ c_rparen :: rest) caps k = Some r.
Proof.
  intros u rest caps k r [scheme [host [path [-> [Hs [Hh [Hp [Hn _]]]]]]]] Hk.
  destruct path as [|x path]; [contradiction|].
  assert (Hx : not_rparen x = true).
  { unfold not_rparen. destruct (N.eqb x c_rparen) eqn:E; [|reflexivity].
    apply N.eqb_eq in E. subst. exfalso. apply Hn. left. reflexivity. }
  assert (Hplus : star_greedy not_rparen (path ++ c_rparen :: rest)
                              (fun s1 => k s1 caps) = Some r).
  { apply star_greedy_take.
    - apply not_in_forallb. intros Hi. apply Hn. right. exact Hi.
    - intros hd tl E. injection E as <- _. reflexivity.
    - exact Hk. }
  unfold urlPattern.
  destruct Hs as [-> | ->]; destruct Hh as [-> | ->];
    cbn -[star_greedy not_rparen]; rewrite <- ?app_assoc;
    cbn -[star_greedy not_rparen]; rewrite Hx, Hplus; reflexivity.
Qed.

End PlainLinks.

Section PlainScan.

Lemma isQuestionUrl_chars : forall u,
  isQuestionUrl u -> ~ In c_rparen u /\ ~ In c_lbracket u.
Proof.
  intros u [scheme [host [path [-> [Hs [Hh [_ [Hr Hl]]]]]]]].
  split; intros Hi;
    repeat (apply in_app_or in Hi; destruct Hi as [Hi|Hi]);
    try (destruct Hs as [-> | ->]; simpl in Hi;
         repeat (destruct Hi as [Hi|Hi]; [discriminate|]); contradiction);
    try (destruct Hh as [-> | ->]; simpl in Hi;
         repeat (destruct Hi as [Hi|Hi]; [discriminate|]); contradiction);
    try (simpl in Hi; repeat (destruct Hi as [Hi|Hi]; [discriminate|]); contradiction);
    tauto.
Qed.

Lemma markdownLink_cons : forall t u rest,
  markdownLink t u ++ rest
  = c_lbracket :: t ++ c_rbracket :: c_lparen :: u ++ c_rparen :: rest.
Proof.
  intros t u rest. unfold markdownLink. simpl. f_equal.
  rewrite <- !app_assoc. simpl. rewrite <- !app_assoc. reflexivity.
Qed.

(** The link pattern matches a link whose text holds no closing bracket
    and whose target is a question URL. *)
Lemma linkRegex_matches : forall t u rest,
  ~ In c_rbracket t -> isQuestionUrl u ->
  match_here linkRegex (markdownLink t u ++ rest) = Some (rest, [(2, u); (1, t)]).
Proof.
  intros t u rest Ht Hu. rewrite markdownLink_cons.
  unfold match_here, linkRegex. cbn [rmatch]. rewrite N.eqb_refl.
  apply star_greedy_take.
  - apply not_in_forallb. exact Ht.
  - intros hd tl E. injection E as <- _. reflexivity.
  - rewrite !N.eqb_refl. rewrite firstn_app_exact.
    apply urlPattern_matches; [exact Hu|].
    rewrite N.eqb_refl.
    replace (u ++ c_rparen :: rest) with (u ++ (c_rparen :: rest)) by reflexivity.
    rewrite firstn_app_exact. reflexivity.
Qed.

Lemma match_here_not_bracket : forall c s,
  c <> c_lbracket -> match_here linkRegex (c :: s) = None.
Proof.
  intros c s H. unfold match_here, linkRegex. cbn [rmatch].
  apply N.eqb_neq in H. rewrite H. reflexivity.
Qed.

Lemma search_skip_gap : forall g s i,
  ~ In c_lbracket g ->
  search linkRegex (g ++ s) i = search linkRegex s (i + length g).
Proof.
  induction g as [|c g IH]; intros s i H; simpl.
  - rewrite Nat.add_0_r. reflexivity.
  - rewrite match_here_not_bracket by (intros ->; apply H; left; reflexivity).
    rewrite IH by (intros Hi; apply H; right; exact Hi).
    f_equal. lia.
Qed.

Lemma search_no_bracket : forall g i,
  ~ In c_lbracket g -> search linkRegex g i = None.
Proof.
  intros g i H. rewrite <- (app_nil_r g). rewrite search_skip_gap by exact H.
  reflexivity.
Qed.

Lemma skipn_length_app : forall (a b : jsstring), skipn (length a) (a ++ b) = b.
Proof.
  intros a b. rewrite skipn_app, skipn_all, Nat.sub_diag. reflexivity.
Qed.

Lemma exec_at : forall pre s,
  exec linkRegex (pre ++ s) (length pre) = search linkRegex s (length pre).
Proof.
  intros pre s. unfold exec.
  assert (H : Nat.ltb (length (pre ++ s)) (length pre) = false).
  { apply Nat.ltb_ge. rewrite length_app. lia. }
  rewrite H, skipn_length_app. reflexivity.
Qed.

(** The scan of a plain document visits its links, in order. *)
Lemma allMatches_plain : forall items tail fuel pre,
  plainDocument items tail ->
  length items < fuel ->
  map view (allMatches fuel (pre ++ renderItems items ++ tail) (length pre))
  = map itemView items.
Proof.
  induction items as [|[[g t] u] items IH]; intros tail fuel pre [Hi Ht] Hf.
  - destruct fuel as [|fuel]; [lia|]. simpl.
    rewrite exec_at, search_no_bracket by exact Ht. reflexivity.
  - destruct fuel as [|fuel]; [simpl in Hf; lia|].
    inversion Hi as [|? ? Hit Hi']; subst.
    simpl in Hit. destruct Hit as [Hg [[_ Hrb] Hu]].
    cbn [allMatches renderItems renderItem].
    rewrite exec_at. rewrite <- !app_assoc.
    rewrite search_skip_gap by exact Hg.
    rewrite (@search_here _ _ (length pre + length g) _ _
               (linkRegex_matches t (renderItems items ++ tail) Hrb Hu)).
    rewrite firstn_app_exact.
    cbn [map]. f_equal.
    + unfold m_end. cbn [m_index m_text].
      replace (pre ++ g ++ markdownLink t u ++ renderItems items ++ tail)
        with ((pre ++ g ++ markdownLink t u) ++ renderItems items ++ tail)
        by (rewrite <- !app_assoc; reflexivity).
      replace (length pre + length g + length (markdownLink t u))
        with (length (pre ++ g ++ markdownLink t u))
        by (rewrite !length_app; lia).
      apply IH; [split; assumption|simpl in Hf; lia].
Qed.

End PlainScan.

Section Idempotence.
#[local] Arguments markdownLink : simpl never.
Context {ops : NumberOps} {glyphs : StatusGlyphs}.
Variable fetch : jsstring -> FetchOutcome.   (* the fixed answers of the API *)

Lemma linkChange_view : forall m,
  linkChange fetch m
  = (let '(full, t, u) := view m in
     match (changeOf fetch) t u with
     | Some c => Some (mkChange full (to c))
     | None => None
     end).
Proof.
  intros m. unfold linkChange, view, changeOf, enhanced.
  destruct (enhanceFatebookLink fetch (getQuestionIdFromUrl (m_group 2 m)))
    as [[|x e]|]; try reflexivity.
  destruct (negb (jsstring_eqb (x :: e) (m_group 1 m))); reflexivity.
Qed.

Lemma changesFor_items : forall ms items n,
  map view ms = map itemView items ->
  changesFor (fun _ => fetch) n ms = (itemChanges fetch) items.
Proof.
  induction ms as [|m ms IH]; intros [|[[g t] u] items] n H;
    try discriminate; [reflexivity|].
  pose proof (f_equal (hd (view m)) H) as Hv.
  pose proof (f_equal (@tl _) H) as Htl.
  cbn [map hd tl] in Hv, Htl.
  cbn [changesFor itemChanges flat_map]. rewrite linkChange_view, Hv.
  rewrite (IH items (S n) Htl). f_equal.
  cbn [itemView]. unfold changeOf.
  destruct ((enhanced fetch) u) as [[|x e]|]; try reflexivity.
  destruct (negb (jsstring_eqb (x :: e) t)); reflexivity.
Qed.

Lemma renderItems_app : forall a b,
  renderItems (a ++ b) = renderItems a ++ renderItems b.
Proof.
  induction a as [|it a IH]; intros b; simpl; [reflexivity|].
  rewrite IH, app_assoc. reflexivity.
Qed.

Lemma renderItems_length : forall items, length items <= length (renderItems items).
Proof.
  induction items as [|[[g t] u] items IH]; simpl; [lia|].
  rewrite !length_app. pose proof (markdownLink_length t u). lia.
Qed.

(** In a plain document, the text of a link occurs only where an item
    with that text and target stands. *)
Lemma no_occurrence_before : forall done g t u rest pre post,
  Forall plainItem done ->
  Forall (fun it : Item => let '(_, t', u') := it in (t', u') <> (t, u)) done ->
  ~ In c_lbracket g ->
  ~ In c_rbracket t -> ~ In c_rparen u ->
  renderItems done ++ g ++ rest = pre ++ markdownLink t u ++ post ->
  length (renderItems done ++ g) <= length pre.
Proof.
  induction done as [|[[g0 t0] u0] done IH];
    intros g t u rest pre post Hp Hne Hg Ht Hu E.
  - cbn [renderItems app] in *. rewrite markdownLink_cons in E.
    eapply occurrence_after; [exact E|exact Hg].
  - inversion Hp as [|? ? Hit Hp']; subst.
    inversion Hne as [|? ? Hneq Hne']; subst.
    simpl in Hit. destruct Hit as [Hg0 [[Hl0 Hr0] Hu0]].
    destruct (isQuestionUrl_chars Hu0) as [Hu0r Hu0l].
    cbn [renderItems renderItem] in E. rewrite <- !app_assoc in E.
    assert (H1 : length g0 <= length pre).
    { rewrite markdownLink_cons in E. eapply occurrence_after; [exact E|exact Hg0]. }
    destruct (@app_eq_split _ _ _ _ _ E H1) as [pre1 [-> E1]].
    destruct pre1 as [|c pre1].
    + exfalso. cbn [app] in E1. rewrite !markdownLink_cons in E1.
      injection E1 as E1.
      apply first_delimiter in E1; [|exact Hr0|exact Ht].
      destruct E1 as [-> E1]. injection E1 as E1.
      apply first_delimiter in E1; [|exact Hu0r|exact Hu].
      destruct E1 as [-> _]. apply Hneq. reflexivity.
    + assert (H2 : length (markdownLink t0 u0) <= length (c :: pre1)).
      { rewrite <- app_comm_cons in E1.
        rewrite (markdownLink_cons t0 u0) in E1. injection E1 as <- E1.
        assert (Hin : ~ In c_lbracket
                        (t0 ++ c_rbracket :: c_lparen :: u0 ++ [c_rparen])).
        { intros Hi. apply in_app_or in Hi. destruct Hi as [Hi|Hi]; [tauto|].
          simpl in Hi. destruct Hi as [Hi|[Hi|Hi]]; try discriminate.
          apply in_app_or in Hi. destruct Hi as [Hi|Hi]; [tauto|].
          simpl in Hi. destruct Hi as [Hi|[]]. discriminate. }
        replace (t0 ++ c_rbracket :: c_lparen :: u0 ++
                    c_rparen :: renderItems done ++ g ++ rest)
          with ((t0 ++ c_rbracket :: c_lparen :: u0 ++ [c_rparen])
                  ++ renderItems done ++ g ++ rest) in E1
          by (rewrite <- !app_assoc; simpl; rewrite <- !app_assoc; reflexivity).
        apply occurrence_after in E1; [|exact Hin].
        unfold markdownLink. simpl. rewrite !length_app in *. simpl in *.
        rewrite !length_app in *. simpl in *. lia. }
      destruct (@app_eq_split _ _ _ _ _ E1 H2) as [pre2 [-> E2]].
      apply IH in E2; auto.
      cbn [renderItems renderItem]. rewrite !length_app in *. lia.
Qed.

Lemma indexOf_from_least : forall needle pre post i,
  (0 <= i)%Z ->
  (indexOf_from needle (pre ++ needle ++ post) i <= i + Z.of_nat (length pre))%Z
  /\ indexOf_from needle (pre ++ needle ++ post) i <> (-1)%Z.
Proof.
  induction pre as [|c pre IH]; intros post i Hi.
  - simpl. assert (H : indexOf_from needle (needle ++ post) i = i).
    { destruct (needle ++ post) eqn:E; simpl; rewrite <- ?E, prefixb_app;
        reflexivity. }
    rewrite H. lia.
  - cbn [app indexOf_from]. destruct (prefixb needle (c :: pre ++ needle ++ post)).
    + simpl length. lia.
    + destruct (IH post (i + 1)%Z ltac:(lia)) as [H1 H2]. simpl length. lia.
Qed.

(** Applying the change of the first unsettled item rewrites that item. *)
Lemma applyChange_item : forall done g t u e rest,
  Forall plainItem done ->
  Forall (fun it : Item => let '(_, t', u') := it in (t', u') <> (t, u)) done ->
  ~ In c_lbracket g -> ~ In c_rbracket t -> ~ In c_rparen u ->
  applyChange (renderItems done ++ g ++ markdownLink t u ++ rest)
              (mkChange (markdownLink t u) (markdownLink e u))
  = renderItems done ++ g ++ markdownLink e u ++ rest.
Proof.
  intros done g t u e rest Hp Hne Hg Ht Hu.
  set (doc := renderItems done ++ g ++ markdownLink t u ++ rest).
  assert (Hdoc : doc = (renderItems done ++ g) ++ markdownLink t u ++ rest)
    by (unfold doc; rewrite <- app_assoc; reflexivity).
  unfold applyChange, indexOf. cbn [from to].
  destruct (@indexOf_from_least (markdownLink t u) (renderItems done ++ g) rest
              0%Z ltac:(lia)) as [Hle Hfound].
  rewrite <- Hdoc in Hle, Hfound.
  destruct (@indexOf_from_found _ _ _ Hfound ltac:(lia)) as [pre [post [Hocc Hidx]]].
  assert (Hge : length (renderItems done ++ g) <= length pre).
  { apply (@no_occurrence_before done g t u (markdownLink t u ++ rest) pre post);
      auto. }
  assert (Hi : indexOf_from (markdownLink t u) doc 0
               = Z.of_nat (length (renderItems done ++ g))) by lia.
  rewrite Hi.
  assert (Hneq : (Z.of_nat (length (renderItems done ++ g)) =? -1)%Z = false)
    by (apply Z.eqb_neq; lia).
  rewrite Hneq, Nat2Z.id. unfold replaceRange.
  rewrite Hdoc. rewrite firstn_length_app.
  assert (Hs : forall (a b c : jsstring),
             skipn (length a + length b) (a ++ b ++ c) = c).
  { intros a b c. rewrite <- length_app, app_assoc. apply skipn_length_app. }
  rewrite Hs, <- !app_assoc. reflexivity.
Qed.

Lemma changeOf_some : forall t u c,
  (changeOf fetch) t u = Some c ->
  exists e, (enhanced fetch) u = Some e /\ e <> t
            /\ c = mkChange (markdownLink t u) (markdownLink e u).
Proof.
  intros t u c H. unfold changeOf in H.
  destruct ((enhanced fetch) u) as [[|x e]|]; try discriminate.
  destruct (jsstring_eqb (x :: e) t) eqn:E; simpl in H; [discriminate|].
  apply jsstring_eqb_neq in E. injection H as <-. exists (x :: e). auto.
Qed.

Lemma changeOf_enhanced : forall u e, (enhanced fetch) u = Some e -> (changeOf fetch) e u = None.
Proof.
  intros u e H. unfold changeOf. rewrite H. destruct e; [reflexivity|].
  rewrite jsstring_eqb_refl. reflexivity.
Qed.

Lemma enhanceItem_plain_settled : forall it,
  plainItem it -> (enhancedPlain fetch) [it] ->
  plainItem ((enhanceItem fetch) it) /\ (settled fetch) ((enhanceItem fetch) it).
Proof.
  intros [[g t] u] Hp He. inversion He as [|? ? Hb _]; subst.
  unfold enhanceItem. destruct ((changeOf fetch) t u) as [c|] eqn:Ec.
  - apply changeOf_some in Ec. destruct Ec as [e [Ee _]]. rewrite Ee.
    simpl in Hp. destruct Hp as [Hg [_ Hu]]. simpl. split.
    + repeat split; auto; apply (Hb e Ee).
    + apply changeOf_enhanced. exact Ee.
  - split; [exact Hp|exact Ec].
Qed.

Lemma applyChanges_items : forall pending done tail,
  Forall plainItem done -> Forall (settled fetch) done ->
  Forall plainItem pending -> (enhancedPlain fetch) pending ->
  applyChanges (renderItems done ++ renderItems pending ++ tail)
               ((itemChanges fetch) pending)
  = renderItems done ++ renderItems (map (enhanceItem fetch) pending) ++ tail.
Proof.
  induction pending as [|[[g t] u] pending IH];
    intros done tail Hd Hs Hp He; [reflexivity|].
  inversion Hp as [|? ? Hit Hp']; subst.
  inversion He as [|? ? Hb He']; subst.
  assert (Hone : (enhancedPlain fetch) [(g, t, u)]) by (constructor; [exact Hb|constructor]).
  destruct (enhanceItem_plain_settled Hit Hone) as [Hplain' Hsettled'].
  assert (Hnext : forall it',
             plainItem it' -> (settled fetch) it' ->
             applyChanges (renderItems (done ++ [it']) ++ renderItems pending ++ tail)
                          ((itemChanges fetch) pending)
             = renderItems (done ++ [it'])
               ++ renderItems (map (enhanceItem fetch) pending) ++ tail).
  { intros it' Hpl Hse. apply IH; auto.
    - apply Forall_app. split; [exact Hd|constructor; [exact Hpl|constructor]].
    - apply Forall_app. split; [exact Hs|constructor; [exact Hse|constructor]]. }
  cbn [itemChanges flat_map map]. fold (itemChanges fetch pending).
  unfold enhanceItem in *. fold (enhanceItem fetch) in *.
  destruct ((changeOf fetch) t u) as [c|] eqn:Ec.
  - destruct (changeOf_some _ _ Ec) as [e [Ee [Hne ->]]]. rewrite Ee in *.
    cbn [pushed app applyChanges fold_left]. fold (applyChanges).
    cbn [renderItems renderItem]. rewrite <- !app_assoc.
    simpl in Hit. destruct Hit as [Hg [[_ Hrb] Hu]].
    rewrite applyChange_item; auto.
    + specialize (Hnext (g, e, u) Hplain' Hsettled').
      rewrite renderItems_app in Hnext. cbn [renderItems renderItem] in Hnext.
      rewrite app_nil_r, <- !app_assoc in Hnext. exact Hnext.
    + clear - Hs Ec. induction Hs as [|[[g' t'] u'] done Hx Hs IH]; constructor; auto.
      intros E. injection E as -> ->. simpl in Hx. congruence.
    + apply (isQuestionUrl_chars Hu).
  - cbn [pushed app].
    specialize (Hnext (g, t, u) Hplain' Hsettled').
    rewrite renderItems_app in Hnext. cbn [renderItems renderItem] in Hnext.
    rewrite app_nil_r, <- !app_assoc in Hnext.
    cbn [renderItems renderItem]. rewrite <- !app_assoc. exact Hnext.
Qed.

Lemma itemChanges_settled : forall items,
  Forall (settled fetch) items -> (itemChanges fetch) items = [].
Proof.
  induction items as [|[[g t] u] items IH]; intros H; [reflexivity|].
  inversion H as [|? ? Hs H']; subst. simpl in Hs.
  cbn [itemChanges flat_map]. rewrite Hs. simpl. apply IH. exact H'.
Qed.

Lemma enhanceDocument_plain : forall items tail,
  plainDocument items tail ->
  enhanceDocument (fun _ => fetch) (renderItems items ++ tail)
  = Rewritten ((itemChanges fetch) items)
              (applyChanges (renderItems items ++ tail) ((itemChanges fetch) items)).
Proof.
  intros items tail Hp. rewrite enhanceDocument_changesFor.
  assert (Hc : changesFor (fun _ => fetch) 0 (matchedLinks (renderItems items ++ tail))
               = (itemChanges fetch) items).
  { apply changesFor_items. unfold matchedLinks.
    apply (@allMatches_plain items tail (S (length (renderItems items ++ tail))) [] Hp).
    rewrite length_app. pose proof (renderItems_length items). lia. }
  rewrite Hc. reflexivity.
Qed.

End Idempotence.

Section EnhanceFacts.
Context {ops : NumberOps} {glyphs : StatusGlyphs}.



End EnhanceFacts.

Section Rev1Facts.
Context {ops : NumberOps}.
Import Rev1.

Lemma closePredictionModal_keeps : forall w,
  frameSizes (closePredictionModal w) = frameSizes w
  /\ loginState (closePredictionModal w) = loginState w
  /\ loginWebview (closePredictionModal w) = loginWebview w.
Proof.
  intros w. unfold closePredictionModal, frameSizes, loginState.
  destruct w as [p q l mo li cb rs np iv ni po st hv ef]; simpl.
  destruct p as [f|]; simpl; destruct hv; simpl; auto.
Qed.

Lemma handlePredictionCreated_keeps : forall v w w1,
  handlePredictionCreated v w = Some w1 ->
  frameSizes w1 = frameSizes w
  /\ loginState w1 = loginState w
  /\ loginWebview w1 = loginWebview w.
Proof.
  intros v w w1 H. unfold handlePredictionCreated in H.
  destruct (hasActiveView w); [|injection H as <-; auto].
  destruct (toStr v); [|discriminate]. injection H as <-. auto.
Qed.

Lemma strict_eq_string_true : forall (v : JsValue) s,
  strict_eq_string v s = true -> v = VString s.
Proof.
  intros v s H. destruct v; try discriminate. simpl in H.
  apply jsstring_eqb_eq in H. congruence.
Qed.

(** Inside [case 'load-url'] the test for [resize_iframe] is false. *)
Lemma load_url_is_not_resize : forall action : JsValue,
  strict_eq_string action (js "load-url") = true ->
  strict_eq_string action (js "resize_iframe") = false.
Proof.
  intros action H. apply strict_eq_string_true in H. subst action. reflexivity.
Qed.

Lemma update_target_src_keeps : forall t v w,
  frameSizes (update_target t (set_src v) w) = frameSizes w
  /\ loginState (update_target t (set_src v) w) = loginState w
  /\ (loginWebview w <> None -> loginWebview (update_target t (set_src v) w) <> None).
Proof.
  intros t v w. destruct w as [p q l mo li cb rs np iv ni po st hv ef].
  destruct t; unfold frameSizes, loginState; simpl;
    try (destruct p; simpl; auto; fail);
    try (destruct q; simpl; auto; fail);
    try (destruct l; simpl; repeat split; auto; discriminate);
    auto.
Qed.

Lemma loadUrlBody_load_url : forall resize (action rest : JsValue) t w,
  strict_eq_string action (js "load-url") = true ->
  loadUrlBody resize action rest t w
  = match t with
    | TInherited member => PrototypeWrite member (getField rest (js "src"))
    | _ => Done (update_target t (set_src (getField rest (js "src"))) w)
    end.
Proof.
  intros resize action rest t w H. unfold loadUrlBody.
  rewrite (load_url_is_not_resize _ H), H. reflexivity.
Qed.


(** Where the handler throws: in a conversion to a string, before
    anything was changed. *)
Lemma handleIframeMessage_threw : forall data w w',
  handleIframeMessage data w = Threw w' ->
  w' = w
  /\ (toStr (getField data (js "action")) = None
      \/ toStr (getField data (js "embedId")) = None
      \/ toStr (getField (rest_of data) (js "predictionLink")) = None).
Proof.
  intros data w w' H. unfold handleIframeMessage, handleIframeMessageWith in H.
  destruct (negb (truthy (getField data (js "isFatebook")))); [discriminate|].
  destruct (strict_eq_string (getField data (js "action")) (js "prediction_cancel"));
    [discriminate|].
  destruct (strict_eq_string (getField data (js "action"))
                             (js "prediction_create_success")).
  { unfold handlePredictionCreated in H.
    destruct (hasActiveView w); [|discriminate].
    destruct (toStr (getField (rest_of data) (js "predictionLink"))) eqn:E;
      [discriminate|].
    injection H as <-. auto. }
  destruct (strict_eq_string (getField data (js "action")) (js "load-url")) eqn:Ea.
  { destruct (getWebviewByEmbedId w (getField data (js "embedId")))
      as [[t|]|] eqn:Eg; [|discriminate|].
    - rewrite loadUrlBody_load_url in H by exact Ea.
      destruct t; discriminate.
    - injection H as <-. unfold getWebviewByEmbedId in Eg.
      destruct (toStr (getField data (js "embedId"))); [discriminate|]. auto. }
  destruct (toStr (getField data (js "action"))) eqn:E; [discriminate|].
  injection H as <-. auto.
Qed.

Lemma handleIframeMessage_keeps : forall data w w',
  after (handleIframeMessage data w) = Some w' ->
  frameSizes w' = frameSizes w
  /\ loginState w' = loginState w
  /\ (loginWebview w <> None -> loginWebview w' <> None).
Proof.
  intros data w w' H.
  destruct (handleIframeMessage data w) as [w1|w1|member value] eqn:E;
    simpl in H; [|injection H as <-|discriminate].
  2:{ apply handleIframeMessage_threw in E. destruct E as [-> _]. auto. }
  injection H as <-. rename E into H.
  unfold handleIframeMessage, handleIframeMessageWith in H.
  destruct (negb (truthy (getField data (js "isFatebook")))).
  { injection H as <-. auto. }
  destruct (strict_eq_string (getField data (js "action")) (js "prediction_cancel")).
  { injection H as <-.
    destruct (closePredictionModal_keeps w) as [H1 [H2 H3]].
    rewrite H1, H2, H3. auto. }
  destruct (strict_eq_string (getField data (js "action"))
                             (js "prediction_create_success")).
  { destruct (handlePredictionCreated
                (getField (rest_of data) (js "predictionLink")) w)
      as [w2|] eqn:Eh; [|discriminate].
    injection H as <-.
    destruct (closePredictionModal_keeps w2) as [H1 [H2 H3]].
    destruct (handlePredictionCreated_keeps _ _ Eh) as [H4 [H5 H6]].
    rewrite H1, H2, H3, H4, H5, H6. auto. }
  destruct (strict_eq_string (getField data (js "action")) (js "load-url")) eqn:Ea.
  { destruct (getWebviewByEmbedId w (getField data (js "embedId"))) as [[t|]|].
    - rewrite loadUrlBody_load_url in H by exact Ea.
      destruct t; try discriminate; injection H as <-.
      + apply (update_target_src_keeps TPredict).
      + apply (update_target_src_keeps TQuestion).
      + apply (update_target_src_keeps TLogin).
    - injection H as <-. auto.
    - discriminate. }
  destruct (toStr (getField data (js "action"))); [|discriminate].
  injection H as <-. auto.
Qed.


(** C10: a [load-url] message whose [embedId] is [constructor], which is
    none of the known identifiers, does not find [null]: the lookup yields
    the member inherited from [Object.prototype], and [src] is assigned on
    it.  What the claim says of the other messages holds: without a truthy
    [isFatebook] the handler returns at once, and when
    [getWebviewByEmbedId] returns [null] a [load-url] message changes
    nothing. *)
Theorem unknown_embed_inherited_member :
  (forall w v,
      handleIframeMessage
        (VObject [(js "isFatebook", VBool true);
                  (js "action", VString (js "load-url"));
                  (js "embedId", VString (js "constructor"));
                  (js "src", v)]) w
      = PrototypeWrite (js "constructor") v)
  /\ (forall data w,
         truthy (getField data (js "isFatebook")) = false ->
         handleIframeMessage data w = Done w)
  /\ (forall data w,
         strict_eq_string (getField data (js "action")) (js "load-url") = true ->
         getWebviewByEmbedId w (getField data (js "embedId")) = Some None ->
         handleIframeMessage data w = Done w).
Proof.
  split; [|split].
  - intros w v. reflexivity.
  - intros data w H. unfold handleIframeMessage, handleIframeMessageWith.
    rewrite H. reflexivity.
  - intros data w Ha He. unfold handleIframeMessage, handleIframeMessageWith.
    destruct (negb (truthy (getField data (js "isFatebook")))); [reflexivity|].
    apply strict_eq_string_true in Ha. rewrite Ha. simpl. rewrite He. reflexivity.
Qed.

End Rev1Facts.

Section LoginFacts.
Context {ops : NumberOps}.
Import Rev1.

Lemma existsb_eqb_In : forall id l, existsb (Nat.eqb id) l = true <-> In id l.
Proof.
  intros id l. rewrite existsb_exists. split.
  - intros [x [Hx E]]. apply Nat.eqb_eq in E. subst. exact Hx.
  - intros H. exists id. split; [exact H|apply Nat.eqb_refl].
Qed.

Lemma In_remove_one : forall id x l, In x (remove_one id l) -> In x l.
Proof.
  induction l as [|y l IH]; simpl; [auto|].
  destruct (Nat.eqb y id); simpl; intuition.
Qed.

Lemma In_clearInterval : forall id x l,
  In x (clearInterval id l) <-> In x l /\ x <> id.
Proof.
  intros id x l. unfold clearInterval. rewrite filter_In.
  rewrite negb_true_iff, Nat.eqb_neq. tauto.
Qed.

Lemma timers_ok_loaded : forall o view, timers_ok (loaded o view).
Proof.
  intros o view id. unfold loaded, checkLoginStatus.
  destruct o; simpl; intros [[]|[]].
Qed.

Lemma timers_ok_checkLoginStatus : forall o w,
  timers_ok w -> timers_ok (checkLoginStatus o w).
Proof.
  intros o w H id. unfold checkLoginStatus. destruct o; simpl; apply H.
Qed.

Lemma timers_ok_openLoginModal : forall w,
  timers_ok w -> timers_ok (openLoginModal w).
Proof.
  intros w H id. unfold openLoginModal.
  destruct (isLoginModalOpen w || isLoggedIn w); [apply H|]. simpl.
  intros [Hi|Hp].
  - split; [discriminate|]. apply in_app_or in Hi. destruct Hi as [Hi|[<-|[]]].
    + destruct (H id (or_introl Hi)). lia.
    + lia.
  - split; [discriminate|]. destruct (H id (or_intror Hp)). lia.
Qed.

Lemma timers_ok_ensureLoggedIn : forall o w,
  timers_ok w -> timers_ok (ensureLoggedIn o w).
Proof.
  intros o w H. unfold ensureLoggedIn, ensureLoggedInResume.
  pose proof (@timers_ok_checkLoginStatus o w H) as H1.
  destruct (negb (isLoggedIn (checkLoginStatus o w))); [|exact H1].
  match goal with
  | |- timers_ok (if _ then openLoginModal ?x else ?x) =>
      assert (Hx : timers_ok x) by (intros id; simpl; apply H1);
      destruct (negb (isLoginModalOpen x));
      [apply timers_ok_openLoginModal; exact Hx|exact Hx]
  end.
Qed.

Lemma timers_ok_intervalFires : forall id w,
  timers_ok w -> timers_ok (intervalFires id w).
Proof.
  intros id w H x. unfold intervalFires.
  destruct (existsb (Nat.eqb id) (intervals w)) eqn:E; [|apply H]. simpl.
  apply existsb_eqb_In in E.
  intros [Hi|Hp]; [apply H; left; exact Hi|].
  apply in_app_or in Hp. destruct Hp as [Hp|[<-|[]]]; apply H; auto.
Qed.

Lemma timers_ok_pollResume : forall id w,
  timers_ok w -> timers_ok (pollResume id w).
Proof.
  intros id w H x. unfold pollResume.
  destruct (isLoggedIn w); [|apply H].
  destruct (loginWebview w) as [f|] eqn:El; simpl.
  - intros [Hi|Hp].
    + apply In_clearInterval in Hi. destruct Hi as [Hi _].
      destruct (H x (or_introl Hi)). split; [discriminate|assumption].
    + destruct (H x (or_intror Hp)). split; [discriminate|assumption].
  - intros [Hi|Hp].
    + apply In_clearInterval in Hi. destruct Hi as [Hi _].
      destruct (H x (or_introl Hi)) as [Hl _]. rewrite El in Hl. contradiction.
    + destruct (H x (or_intror Hp)) as [Hl _]. rewrite El in Hl. contradiction.
Qed.

Lemma timers_ok_pollCompletes : forall id o w,
  timers_ok w -> timers_ok (pollCompletes id o w).
Proof.
  intros id o w H. unfold pollCompletes.
  destruct (existsb (Nat.eqb id) (polls w)); [|exact H].
  apply timers_ok_pollResume. apply timers_ok_checkLoginStatus.
  intros x. simpl. intros [Hi|Hp]; apply H; auto.
  right. apply (@In_remove_one id x (polls w) Hp).
Qed.

Lemma loginState_fields : forall w w',
  loginState w' = loginState w ->
  intervals w' = intervals w /\ polls w' = polls w
  /\ next_interval w' = next_interval w /\ started w' = started w.
Proof.
  intros w w' H. unfold loginState in H. inversion H. auto.
Qed.

Lemma timers_ok_step : forall w e w',
  timers_ok w -> step w e = Some w' -> timers_ok w'.
Proof.
  intros w e w' H Hs. destruct e as [data|o|id|id o|view]; simpl in Hs.
  - destruct (after (handleIframeMessage data w)) as [w1|] eqn:E; [|discriminate].
    injection Hs as <-. apply handleIframeMessage_keeps in E.
    destruct E as [_ [Hl Hw]]. apply loginState_fields in Hl.
    destruct Hl as [Hi [Hp [Hn _]]].
    intros x. rewrite Hi, Hp, Hn. intros Hx. destruct (H x Hx). auto.
  - injection Hs as <-. apply timers_ok_ensureLoggedIn. exact H.
  - injection Hs as <-. apply timers_ok_intervalFires. exact H.
  - injection Hs as <-. apply timers_ok_pollCompletes. exact H.
  - injection Hs as <-. intros x. simpl. apply H.
Qed.

Lemma timers_ok_run : forall events w w',
  timers_ok w -> run w events = Some w' -> timers_ok w'.
Proof.
  induction events as [|e events IH]; intros w w' H Hr; simpl in Hr.
  - injection Hr as <-. exact H.
  - destruct (step w e) as [w1|] eqn:E; [|discriminate].
    apply (IH w1 w'); [|exact Hr]. apply (@timers_ok_step w e w1 H E).
Qed.

Lemma reachable_timers_ok : forall w, reachable w -> timers_ok w.
Proof.
  intros w [o [view [events H]]].
  apply (@timers_ok_run events (loaded o view) w (timers_ok_loaded o view) H).
Qed.

Lemma retired_step : forall id w e w',
  retired id w -> step w e = Some w' ->
  retired id w' /\ count_occ Nat.eq_dec (started w') id
                   = count_occ Nat.eq_dec (started w) id.
Proof.
  intros id w e w' [Hn Hlt] Hs. unfold retired.
  destruct e as [data|o|x|x o|view]; simpl in Hs.
  - destruct (after (handleIframeMessage data w)) as [w1|] eqn:E; [|discriminate].
    injection Hs as <-. apply handleIframeMessage_keeps in E.
    destruct E as [_ [Hl _]]. apply loginState_fields in Hl.
    destruct Hl as [Hi [_ [Hni Hst]]]. rewrite Hi, Hni, Hst. auto.
  - injection Hs as <-. unfold ensureLoggedIn, ensureLoggedInResume.
    assert (Hc : forall o w0, intervals (checkLoginStatus o w0) = intervals w0
                 /\ next_interval (checkLoginStatus o w0) = next_interval w0
                 /\ started (checkLoginStatus o w0) = started w0).
    { intros o0 w0. unfold checkLoginStatus. destruct o0; simpl; auto. }
    destruct (Hc o w) as [Hi [Hni Hst]].
    destruct (negb (isLoggedIn (checkLoginStatus o w))).
    + match goal with
      | |- context [if ?b then openLoginModal ?y else ?y] =>
          destruct b; [unfold openLoginModal;
                       destruct (isLoginModalOpen y || isLoggedIn y)|]
      end; simpl; rewrite ?Hi, ?Hni, ?Hst; repeat split; auto.
      intros Hin. apply in_app_or in Hin. destruct Hin as [Hin|[Hin|[]]];
        [contradiction|lia].
    + rewrite Hi, Hni, Hst. auto.
  - injection Hs as <-. unfold intervalFires.
    destruct (existsb (Nat.eqb x) (intervals w)) eqn:E; [|auto]. simpl.
    apply existsb_eqb_In in E. repeat split; auto.
    rewrite count_occ_app. simpl.
    destruct (Nat.eq_dec x id) as [->|]; [contradiction|lia].
  - injection Hs as <-. unfold pollCompletes.
    destruct (existsb (Nat.eqb x) (polls w)); [|auto].
    unfold pollResume, checkLoginStatus.
    destruct o; simpl;
      repeat match goal with
             | |- context [if ?b then _ else _] => destruct b; simpl
             | |- context [match loginWebview w with _ => _ end] =>
                 destruct (loginWebview w); simpl
             end;
      repeat split; auto;
      intros Hin; apply In_clearInterval in Hin; tauto.
  - injection Hs as <-. simpl. auto.
Qed.

Lemma retired_run : forall id events w w',
  retired id w -> run w events = Some w' ->
  count_occ Nat.eq_dec (started w') id = count_occ Nat.eq_dec (started w) id.
Proof.
  induction events as [|e events IH]; intros w w' H Hr; simpl in Hr.
  - injection Hr as <-. reflexivity.
  - destruct (step w e) as [w1|] eqn:E; [|discriminate].
    destruct (@retired_step id w e w1 H E) as [H1 H2].
    rewrite (IH w1 w' H1 Hr). exact H2.
Qed.

(** C7: in a world the plugin can reach, when a poll tick of the interval
    [id] gets the answer of its session check and finds [isLoggedIn] true,
    the interval is cleared, no poll tick of that interval is started
    afterwards whatever happens, every promise queued in [loginCallbacks]
    is resolved, and [loginCallbacks] is empty. *)
Theorem login_poll_clears_timer_and_releases_waiters :
  forall w id o,
    reachable w ->
    In id (polls w) ->
    isLoggedIn (checkLoginStatus o w) = true ->
    let w' := pollCompletes id o w in
    ~ In id (intervals w')
    /\ (forall events w'',
           run w' events = Some w'' ->
           count_occ Nat.eq_dec (started w'') id
           = count_occ Nat.eq_dec (started w') id)
    /\ (forall p, In p (loginCallbacks w) -> In p (resolved w'))
    /\ loginCallbacks w' = [].
Proof.
  intros w id o Hreach Hpoll Hlogged w'.
  pose proof (@reachable_timers_ok w Hreach id (or_intror Hpoll)) as [Hframe Hlt].
  assert (Hw' : exists f,
             loginWebview w = Some f
             /\ intervals w' = clearInterval id (intervals w)
             /\ next_interval w' = next_interval w
             /\ resolved w' = resolved w ++ loginCallbacks w
             /\ loginCallbacks w' = []).
  { subst w'. unfold pollCompletes.
    assert (He : existsb (Nat.eqb id) (polls w) = true)
      by (apply existsb_eqb_In; exact Hpoll).
    rewrite He.
    destruct (loginWebview w) as [f|] eqn:El; [|contradiction].
    exists f. split; [reflexivity|].
    destruct o as [|response]; simpl in Hlogged; [discriminate|].
    unfold pollResume, checkLoginStatus. simpl.
    rewrite Hlogged. simpl. auto. }
  destruct Hw' as [f [Hf [Hi [Hni [Hres Hcb]]]]].
  assert (Hret : retired id w').
  { split; [|lia]. rewrite Hi. intros Hin. apply In_clearInterval in Hin. tauto. }
  repeat split.
  - apply Hret.
  - intros events w'' Hr. apply (@retired_run id events w' w'' Hret Hr).
  - intros p Hp. rewrite Hres. apply in_or_app. right. exact Hp.
  - exact Hcb.
Qed.

(** C5, amended: after [checkLoginStatus], [isLoggedIn] is false when the
    fetch threw.  In the first revision it is true exactly when the fetch
    resolved with a status other than 401; in the second revision exactly
    when the fetch resolved, the body parsed as JSON, and the value is an
    object with a [user] member. *)
Theorem checkLoginStatus_sets_flag :
  (forall o w,
      (o = FetchRejected -> isLoggedIn (checkLoginStatus o w) = false)
      /\ (isLoggedIn (checkLoginStatus o w) = true <->
          exists response, o = FetchResolved response /\ status response <> 401%N))
  /\ (forall o,
         (o = FetchRejected -> Rev2.checkLoginStatus o = false)
         /\ (Rev2.checkLoginStatus o = true <->
             exists response fields user,
               o = FetchResolved response
               /\ body response = BodyJson (VObject fields)
               /\ lookup (js "user") fields = Some user
               /\ user <> VUndefined)).
Proof.
  split.
  - intros o w. split.
    + intros ->. destruct w; reflexivity.
    + unfold checkLoginStatus. destruct o as [|response]; simpl.
      * split; [discriminate|]. intros [r [H _]]. discriminate.
      * rewrite negb_true_iff, N.eqb_neq. split.
        -- intros H. exists response. auto.
        -- intros [r [H Hs]]. injection H as ->. exact Hs.
  - intros o. split.
    + intros ->. reflexivity.
    + unfold Rev2.checkLoginStatus. destruct o as [|response].
      * split; [discriminate|]. intros [r [f [u [H _]]]]. discriminate.
      * destruct (body response) as [|data] eqn:Eb.
        { split; [discriminate|]. intros [r [f [u [H [Hb _]]]]].
          injection H as <-. congruence. }
        split.
        -- intros H. destruct data; simpl in H; try discriminate.
           destruct (lookup (js "user") fields) as [user|] eqn:El; [|discriminate].
           exists response, fields, user. repeat split; auto.
           intros ->. discriminate.
        -- intros [r [f [u [H [Hb [Hl Hu]]]]]]. injection H as <-.
           rewrite Eb in Hb. injection Hb as ->. simpl. rewrite Hl.
           destruct u; try reflexivity. contradiction.
Qed.

End LoginFacts.

Section DebounceFacts.
Import Debounce.
Variable Args : Type.
Variable wait : nat.


Lemma follows_app_called : forall (l : list (Entry Args)) t a,
  runs_follow_quiet_calls wait l ->
  runs_follow_quiet_calls wait (l ++ [Called t a]).
Proof.
  intros l t a H pre t' a' post E.
  destruct post as [|y post].
  - apply app_inj_tail in E. destruct E as [_ E]. discriminate.
  - destruct (exists_last (l := y :: post)) as [post' [z Hz]]; [discriminate|].
    rewrite Hz in E.
    replace (pre ++ Ran t' a' :: post' ++ [z])
      with ((pre ++ Ran t' a' :: post') ++ [z]) in E
      by (rewrite <- app_assoc; reflexivity).
    apply app_inj_tail in E. destruct E as [E _].
    apply (H pre t' a' post'). exact E.
Qed.

Lemma follows_app_ran : forall (pre0 : list (Entry Args)) t0 a t,
  runs_follow_quiet_calls wait (pre0 ++ [Called t0 a]) ->
  t0 + wait <= t ->
  runs_follow_quiet_calls wait ((pre0 ++ [Called t0 a]) ++ [Ran t a]).
Proof.
  intros pre0 t0 a t H Ht pre t' a' post E.
  destruct post as [|y post].
  - apply app_inj_tail in E. destruct E as [<- E]. injection E as <- <-.
    exists pre0, t0. auto.
  - destruct (exists_last (l := y :: post)) as [post' [z Hz]]; [discriminate|].
    rewrite Hz in E.
    replace (pre ++ Ran t' a' :: post' ++ [z])
      with ((pre ++ Ran t' a' :: post') ++ [z]) in E
      by (rewrite <- app_assoc; reflexivity).
    apply app_inj_tail in E. destruct E as [E _].
    apply (H pre t' a' post'). exact E.
Qed.

Lemma clearTimeout_pending : forall (s : State Args),
  pending_is_last_call wait s -> clearTimeout (timeout s) (timers s) = [].
Proof.
  intros s [E|[t [pre [t0 [E [Ht _]]]]]]; rewrite E.
  - destruct (timeout s); reflexivity.
  - rewrite Ht. simpl. rewrite Nat.eqb_refl. reflexivity.
Qed.

Lemma step_invariant : forall (s : State Args) e,
  pending_is_last_call wait s /\ runs_follow_quiet_calls wait (log s) ->
  pending_is_last_call wait (step wait s e)
  /\ runs_follow_quiet_calls wait (log (step wait s e)).
Proof.
  intros s e [Hp Hl]. destruct e as [args|ms|id]; simpl.
  - split.
    + right. exists (mkTimer (next_id s) (now s + wait) args), (log s), (now s).
      unfold executedFunction. rewrite (clearTimeout_pending Hp). simpl. auto.
    + apply follows_app_called. exact Hl.
  - split; [|exact Hl]. destruct Hp as [E|[t [pre [t0 H]]]]; [left; exact E|].
    right. exists t, pre, t0. exact H.
  - unfold fire. destruct (find_timer id (timers s)) as [t|] eqn:Ef; [|auto].
    destruct (Nat.leb (timer_due t) (now s)) eqn:Ed; [|auto].
    apply Nat.leb_le in Ed.
    destruct Hp as [E|[t1 [pre [t0 [E [Ht [Hlog Hdue]]]]]]].
    + rewrite E in Ef. discriminate.
    + rewrite E in Ef. simpl in Ef.
      destruct (Nat.eqb (timer_id t1) id) eqn:Ei; [|discriminate].
      injection Ef as <-.
      unfold later. simpl. rewrite E. simpl. rewrite Ei. simpl. split.
      * left. destruct (timeout s); reflexivity.
      * rewrite Hlog. apply follows_app_ran; [|lia]. rewrite <- Hlog. exact Hl.
Qed.

Lemma run_invariant : forall events (s : State Args),
  pending_is_last_call wait s /\ runs_follow_quiet_calls wait (log s) ->
  pending_is_last_call wait (fold_left (step wait) events s)
  /\ runs_follow_quiet_calls wait (log (fold_left (step wait) events s)).
Proof.
  induction events as [|e events IH]; intros s H; simpl; [exact H|].
  apply IH. apply step_invariant. exact H.
Qed.

(** C6: whatever the calls, the passing of time and the attempts of the
    host to fire timers, every execution of [func] comes directly after the
    call whose arguments it receives, [wait] milliseconds later or more,
    with no call and no other execution in between; at most one timer is
    pending; and a call leaves exactly its own timer pending, so that it
    cancels the execution that was pending. *)
Theorem debounce_runs_after_quiet_period :
  forall events : list (Event Args),
    let s := run wait events in
    runs_follow_quiet_calls wait (log s)
    /\ length (timers s) <= 1
    /\ (forall args,
           timers (executedFunction wait args s)
           = [mkTimer (next_id s) (now s + wait) args]).
Proof.
  intros events s.
  assert (H : pending_is_last_call wait s /\ runs_follow_quiet_calls wait (log s)).
  { apply run_invariant. split.
    - left. reflexivity.
    - intros pre t a post E. destruct pre; discriminate. }
  destruct H as [Hp Hl]. split; [exact Hl|split].
  - destruct Hp as [E|[t [pre [t0 [E _]]]]]; rewrite E; simpl; lia.
  - intros args. unfold executedFunction. rewrite (clearTimeout_pending Hp).
    reflexivity.
Qed.

End DebounceFacts.

Section LastOccurrence.

Lemma lastIndexOf_from_range : forall needle s i,
  (0 <= i)%Z ->
  lastIndexOf_from needle s i = (-1)%Z \/ (i <= lastIndexOf_from needle s i)%Z.
Proof.
  induction s as [|c s IH]; intros i Hi; simpl.
  - destruct (prefixb needle []); [right; lia|left; reflexivity].
  - destruct (IH (i + 1)%Z ltac:(lia)) as [H|H].
    + rewrite H. simpl. destruct (prefixb needle (c :: s)); [right; lia|left; reflexivity].
    + destruct (0 <=? lastIndexOf_from needle s (i + 1))%Z eqn:E.
      * right. lia.
      * apply Z.leb_gt in E. lia.
Qed.

(** [lastIndexOf] is at or after every occurrence. *)
Lemma lastIndexOf_from_bound : forall needle a b i,
  (0 <= i)%Z ->
  (i + Z.of_nat (length a) <= lastIndexOf_from needle (a ++ needle ++ b) i)%Z.
Proof.
  induction a as [|c a IH]; intros b i Hi.
  - cbn [app length]. destruct (needle ++ b) as [|x s] eqn:E.
    + simpl. destruct needle; [simpl; lia|discriminate].
    + cbn [lastIndexOf_from].
      destruct (@lastIndexOf_from_range needle s (i + 1)%Z ltac:(lia)) as [H|H].
      * rewrite H. simpl. rewrite <- E, prefixb_app. lia.
      * destruct (0 <=? lastIndexOf_from needle s (i + 1))%Z eqn:E';
          [lia|apply Z.leb_gt in E'; lia].
  - cbn [app lastIndexOf_from length].
    pose proof (IH b (i + 1)%Z ltac:(lia)) as H.
    destruct (0 <=? lastIndexOf_from needle (a ++ needle ++ b) (i + 1))%Z eqn:E;
      [lia|apply Z.leb_gt in E; lia].
Qed.

Lemma last_occurrence : forall seg needle n,
  lastIndexOf seg needle = Z.of_nat n ->
  forall a b, seg = a ++ needle ++ b -> length a <= n.
Proof.
  intros seg needle n H a b ->. unfold lastIndexOf in H.
  pose proof (@lastIndexOf_from_bound needle a b 0%Z ltac:(lia)). lia.
Qed.

Lemma not_in_by_existsb : forall c (s : jsstring),
  existsb (N.eqb c) s = false -> ~ In c s.
Proof.
  intros c s H Hi.
  assert (E : existsb (N.eqb c) s = true).
  { apply existsb_exists. exists c. split; [exact Hi|apply N.eqb_refl]. }
  congruence.
Qed.

End LastOccurrence.

Section Backtracking.
Variable A : Type.

Lemma star_greedy_none_all : forall p s (k : jsstring -> option A),
  star_greedy p s k = None ->
  forall a t, s = a ++ t -> forallb p a = true -> k t = None.
Proof.
  induction s as [|c s IH]; intros k H a t E Ha; simpl in H.
  - destruct a; [|discriminate]. simpl in E. subst t. exact H.
  - destruct (p c) eqn:Hp.
    + destruct (star_greedy p s k) eqn:Es; [discriminate|].
      destruct a as [|x a]; simpl in E.
      * subst t. exact H.
      * injection E as -> E. simpl in Ha. apply andb_true_iff in Ha.
        apply (IH k Es a t E). tauto.
    + destruct a as [|x a]; simpl in E.
      * subst t. exact H.
      * injection E as -> E. simpl in Ha. rewrite Hp in Ha. discriminate.
Qed.

(** Where a greedy run ends, the continuation fails after every longer
    run. *)
Lemma star_greedy_longest : forall p s (k : jsstring -> option A) r,
  star_greedy p s k = Some r ->
  exists a t,
    s = a ++ t /\ forallb p a = true /\ k t = Some r
    /\ (forall a' t', t = a' ++ t' -> a' <> [] -> forallb p a' = true ->
                      k t' = None).
Proof.
  induction s as [|c s IH]; intros k r H; simpl in H.
  - exists [], []. repeat split; auto.
    intros a' t' E Hne. destruct a'; [contradiction|discriminate].
  - destruct (p c) eqn:Hp.
    + destruct (star_greedy p s k) as [r'|] eqn:Es.
      * injection H as ->. destruct (IH _ _ Es) as [a [t [-> [Ha [Hk Hmax]]]]].
        exists (c :: a), t. simpl. rewrite Hp. auto.
      * exists [], (c :: s). repeat split; auto.
        intros a' t' E Hne Ha'. destruct a' as [|x a']; [contradiction|].
        simpl in E. injection E as <- E. simpl in Ha'.
        apply andb_true_iff in Ha'.
        apply (star_greedy_none_all _ _ Es a' t' E). tauto.
    + exists [], (c :: s). repeat split; auto.
      intros a' t' E Hne Ha'. destruct a' as [|x a']; [contradiction|].
      simpl in E. injection E as <- E. simpl in Ha'. rewrite Hp in Ha'.
      discriminate.
Qed.

(** Where a lazy run ends, the continuation failed after every shorter
    run. *)
Lemma star_lazy_shortest : forall p s (k : jsstring -> option A) r,
  star_lazy p s k = Some r ->
  exists a t,
    s = a ++ t /\ forallb p a = true /\ k t = Some r
    /\ (forall a1 a2, a = a1 ++ a2 -> a2 <> [] -> k (a2 ++ t) = None).
Proof.
  induction s as [|c s IH]; intros k r H; simpl in H.
  - destruct (k []) eqn:E; [|discriminate]. injection H as ->.
    exists [], []. repeat split; auto.
    intros a1 a2 E' Hne. destruct a1; destruct a2; try discriminate. contradiction.
  - destruct (k (c :: s)) eqn:E.
    + injection H as ->. exists [], (c :: s). repeat split; auto.
      intros a1 a2 E' Hne. destruct a1; destruct a2; try discriminate. contradiction.
    + destruct (p c) eqn:Hp; [|discriminate].
      destruct (IH _ _ H) as [a [t [-> [Ha [Hk Hmin]]]]].
      exists (c :: a), t. simpl. rewrite Hp. repeat split; auto.
      intros a1 a2 E' Hne. destruct a1 as [|x a1]; simpl in E'.
      * subst a2. exact E.
      * injection E' as _ E'. apply (Hmin a1 a2 E' Hne).
Qed.

End Backtracking.

Section IdShape.

Lemma after_delimiter_none_head : forall c s rest,
  after_delimiter ((c :: s) ++ rest) = None ->
  c <> c_question /\ c <> c_amp.
Proof.
  intros c s rest H. simpl in H.
  destruct (N.eqb c c_question) eqn:E1; [discriminate|].
  destruct (N.eqb c c_amp) eqn:E2; [discriminate|].
  apply N.eqb_neq in E1. apply N.eqb_neq in E2. auto.
Qed.

(** What a match of the identifier pattern consists of: the greedy group,
    the separator, the lazy group [g2], and a remainder that begins with a
    delimiter or is empty.  The lazy group holds no delimiter and no
    separator. *)
Lemma idRegex_shape : forall t rest caps,
  match_here idRegex t = Some (rest, caps) ->
  exists g1 g2 t3,
    t = g1 ++ js "--" ++ g2 ++ t3
    /\ caps = [(2, g2); (1, g1)]
    /\ forallb dot g2 = true
    /\ ~ In c_question g2 /\ ~ In c_amp g2
    /\ (forall x y, g2 <> x ++ js "--" ++ y).
Proof.
  intros t rest caps H. unfold match_here, idRegex in H. cbn [rmatch] in H.
  apply star_greedy_longest in H.
  destruct H as [g1 [t1 [-> [Hg1 [H Hmax]]]]].
  apply lit_some in H. destruct H as [t2 [-> H]].
  apply star_lazy_shortest in H.
  destruct H as [g2 [t3 [-> [Hg2 [H Hmin]]]]].
  rewrite idTail_match in H.
  destruct (after_delimiter t3) as [tail|] eqn:Htail; [|discriminate].
  simpl in H. injection H as <- <-.
  rewrite !firstn_app_exact.
  assert (Hmin' : forall a1 a2, g2 = a1 ++ a2 -> a2 <> [] ->
                                after_delimiter (a2 ++ t3) = None).
  { intros a1 a2 E Hne. pose proof (Hmin a1 a2 E Hne) as Hk.
    rewrite idTail_match in Hk.
    destruct (after_delimiter (a2 ++ t3)); [discriminate|reflexivity]. }
  assert (Hchars : forall c, In c g2 -> c <> c_question /\ c <> c_amp).
  { intros c Hc. apply in_split in Hc. destruct Hc as [l1 [l2 ->]].
    apply (@after_delimiter_none_head c l2 t3).
    apply (Hmin' l1 (c :: l2) eq_refl). discriminate. }
  exists g1, g2, t3. repeat split; auto.
  - intros Hi. destruct (Hchars _ Hi) as [Hq _]. contradiction.
  - intros Hi. destruct (Hchars _ Hi) as [_ Ha]. contradiction.
  - intros x y E. subst g2.
    assert (Hk : lit (js "--") (js "--" ++ y ++ t3)
                   (fun s2 =>
                      star_lazy dot s2
                        (fun s1 =>
                           rmatch idTail s1
                             [(2, firstn (length s2 - length s1) s2);
                              (1, firstn
                                    (length (g1 ++ js "--" ++ (x ++ js "--" ++ y) ++ t3)
                                     - length (js "--" ++ y ++ t3))
                                    (g1 ++ js "--" ++ (x ++ js "--" ++ y) ++ t3))]
                             (fun s3 c1 => Some (s3, c1)))) = None).
    { apply (Hmax (js "--" ++ x) (js "--" ++ y ++ t3)).
      - rewrite <- !app_assoc. reflexivity.
      - discriminate.
      - apply forallb_app_l in Hg2. simpl. exact Hg2. }
    rewrite lit_app in Hk.
    assert (Hy : forallb dot y = true).
    { apply forallb_app_r in Hg2. apply forallb_app_r in Hg2. exact Hg2. }
    erewrite star_lazy_first in Hk; [discriminate|exact Hy| |].
    + rewrite idTail_match, Htail. reflexivity.
    + intros a1 a2 E Hne. rewrite idTail_match.
      rewrite (Hmin' (x ++ js "--" ++ a1) a2); [reflexivity| |exact Hne].
      rewrite E, <- !app_assoc. reflexivity.
Qed.

Lemma last_split : forall (c : char16) s,
  ~ In c s \/ exists pre post, s = pre ++ c :: post /\ ~ In c post.
Proof.
  induction s as [|x s IH].
  - left. intros [].
  - destruct IH as [Hn|[pre [post [-> Hn]]]].
    + destruct (N.eqb x c) eqn:E.
      * apply N.eqb_eq in E. subst x. right. exists [], s. auto.
      * apply N.eqb_neq in E. left. intros [H|H]; [congruence|contradiction].
    + right. exists (x :: pre), post. auto.
Qed.

Lemma lastSegment_exists : forall url, exists seg, lastSegmentOf url seg.
Proof.
  intros url. destruct (last_split c_slash url) as [Hn|[pre [post [-> Hn]]]].
  - exists url. split; auto.
  - exists post. split; [exact Hn|]. right. exists pre. reflexivity.
Qed.

Lemma lastSegmentOf_self : forall seg, ~ In c_slash seg -> lastSegmentOf seg seg.
Proof. intros seg H. split; auto. Qed.

(** [getQuestionIdFromUrl] in terms of the last segment. *)
Lemma getQuestionIdFromUrl_cases : forall url seg,
  lastSegmentOf url seg ->
  (match_ idRegex seg = None /\ getQuestionIdFromUrl url = seg)
  \/ (exists pre g1 g2 post,
         seg = pre ++ g1 ++ js "--" ++ g2 ++ post
         /\ getQuestionIdFromUrl url = g2
         /\ forallb dot g2 = true
         /\ ~ In c_question g2 /\ ~ In c_amp g2
         /\ (forall x y, g2 <> x ++ js "--" ++ y)).
Proof.
  intros url seg Hseg. unfold getQuestionIdFromUrl.
  rewrite (lastSegment_computed Hseg).
  destruct (match_ idRegex seg) as [parts|] eqn:E.
  - right. unfold match_ in E. apply search_some in E.
    destruct E as [pre [t [-> [_ [Hm _]]]]].
    apply idRegex_shape in Hm.
    destruct Hm as [g1 [g2 [t3 [-> [Hcaps H]]]]].
    exists pre, g1, g2, t3. split; [reflexivity|]. split; [|exact H].
    unfold m_group. rewrite Hcaps. reflexivity.
  - left. split; [reflexivity|]. destruct seg; reflexivity.
Qed.

Lemma not_in_part : forall (c : char16) a b d, ~ In c (a ++ b ++ d) -> ~ In c b.
Proof.
  intros c a b d H Hi. apply H. apply in_or_app. right.
  apply in_or_app. left. exact Hi.
Qed.

End IdShape.

(** X1: whatever the string, the identifier [getQuestionIdFromUrl] returns is
    a piece of its last path segment, so it holds no [/]; and it is either
    the whole segment, or a piece free of line terminators, of [?] and [&]
    and of the separator [--]. *)
Theorem getQuestionIdFromUrl_part_of_last_segment :
  forall url,
    exists seg pre post,
      lastSegmentOf url seg
      /\ seg = pre ++ getQuestionIdFromUrl url ++ post
      /\ ~ In c_slash (getQuestionIdFromUrl url)
      /\ (getQuestionIdFromUrl url = seg
          \/ (forallb dot (getQuestionIdFromUrl url) = true
              /\ ~ In c_question (getQuestionIdFromUrl url)
              /\ ~ In c_amp (getQuestionIdFromUrl url)
              /\ forall x y, getQuestionIdFromUrl url <> x ++ js "--" ++ y)).
Proof.
  intros url. destruct (lastSegment_exists url) as [seg Hseg].
  pose proof Hseg as [Hslash _].
  destruct (getQuestionIdFromUrl_cases Hseg)
    as [[_ E]|[pre [g1 [g2 [post [Hs [E H]]]]]]]; rewrite E.
  - exists seg, [], []. rewrite app_nil_r. simpl.
    split; [exact Hseg|]. auto.
  - exists seg, (pre ++ g1 ++ js "--"), post.
    split; [exact Hseg|]. split; [|split; [|right; exact H]].
    + rewrite Hs, <- !app_assoc. reflexivity.
    + rewrite Hs in Hslash.
      apply (@not_in_part c_slash (pre ++ g1 ++ js "--") g2 post).
      rewrite <- !app_assoc. exact Hslash.
Qed.

(** X2: an identifier passes through [getQuestionIdFromUrl] unchanged:
    applying the function to its own result gives that result again. *)
Theorem getQuestionIdFromUrl_idempotent :
  forall url,
    getQuestionIdFromUrl (getQuestionIdFromUrl url) = getQuestionIdFromUrl url.
Proof.
  intros url. destruct (lastSegment_exists url) as [seg Hseg].
  pose proof Hseg as [Hslash _].
  destruct (getQuestionIdFromUrl_cases Hseg)
    as [[Hnone E]|[pre [g1 [g2 [post [Hs [E [_ [_ [_ Hsep]]]]]]]]]]; rewrite E.
  - unfold getQuestionIdFromUrl.
    rewrite (lastSegment_computed (@lastSegmentOf_self seg Hslash)), Hnone.
    destruct seg; reflexivity.
  - assert (Hg2 : ~ In c_slash g2).
    { rewrite Hs in Hslash.
      apply (@not_in_part c_slash (pre ++ g1 ++ js "--") g2 post).
      rewrite <- !app_assoc. exact Hslash. }
    unfold getQuestionIdFromUrl.
    rewrite (lastSegment_computed (@lastSegmentOf_self g2 Hg2)).
    unfold match_. rewrite search_none; [destruct g2; reflexivity|].
    intros a t Eg. destruct (match_here idRegex t) as [r|] eqn:Hm; [|reflexivity].
    exfalso. apply idRegex_needs_separator in Hm. destruct Hm as [a' [b' ->]].
    apply (Hsep (a ++ a') b'). rewrite Eg, <- app_assoc. reflexivity.
Qed.

Section UrlShape.
Variable A : Type.

(** What the target pattern consumes. *)
Lemma urlPattern_shape : forall s caps (k : jsstring -> captures -> option A) res,
  rmatch urlPattern s caps k = Some res ->
  exists scheme host path rest,
    s = scheme ++ host ++ js "fatebook.io/q/" ++ path ++ rest
    /\ (scheme = js "http://" \/ scheme = js "https://")
    /\ (host = [] \/ host = js "www.")
    /\ path <> [] /\ forallb not_rparen path = true
    /\ k rest caps = Some res.
Proof.
  intros s caps k res H. unfold urlPattern in H. cbn [rmatch] in H.
  apply lit_some in H. destruct H as [s1 [-> H]].
  assert (Htail : forall s2,
             lit (js "://") s2
               (fun s3 =>
                  match lit (js "www.") s3
                          (fun s4 => lit (js "fatebook.io/q/") s4
                             (fun s5 => match s5 with
                                        | [] => None
                                        | x :: s' =>
                                            if not_rparen x
                                            then star_greedy not_rparen s'
                                                   (fun s6 => k s6 caps)
                                            else None
                                        end)) with
                  | Some x => Some x
                  | None => lit (js "fatebook.io/q/") s3
                              (fun s5 => match s5 with
                                         | [] => None
                                         | x :: s' =>
                                             if not_rparen x
                                             then star_greedy not_rparen s'
                                                    (fun s6 => k s6 caps)
                                             else None
                                         end)
                  end) = Some res ->
             exists host path rest,
               s2 = js "://" ++ host ++ js "fatebook.io/q/" ++ path ++ rest
               /\ (host = [] \/ host = js "www.")
               /\ path <> [] /\ forallb not_rparen path = true
               /\ k rest caps = Some res).
  { intros s2 H2. apply lit_some in H2. destruct H2 as [s3 [-> H2]].
    assert (Hpath : forall s4,
               lit (js "fatebook.io/q/") s4
                 (fun s5 => match s5 with
                            | [] => None
                            | x :: s' =>
                                if not_rparen x
                                then star_greedy not_rparen s' (fun s6 => k s6 caps)
                                else None
                            end) = Some res ->
               exists path rest,
                 s4 = js "fatebook.io/q/" ++ path ++ rest
                 /\ path <> [] /\ forallb not_rparen path = true
                 /\ k rest caps = Some res).
    { intros s4 H4. apply lit_some in H4. destruct H4 as [s5 [-> H4]].
      destruct s5 as [|x s']; [discriminate|].
      destruct (not_rparen x) eqn:Ex; [|discriminate].
      apply star_greedy_some in H4. destruct H4 as [a [t [-> [Ha Hk]]]].
      exists (x :: a), t. repeat split; auto; try discriminate.
      simpl. rewrite Ex, Ha. reflexivity. }
    match type of H2 with
    | match ?l with _ => _ end = _ => destruct l as [r1|] eqn:E
    end.
    - injection H2 as ->. apply lit_some in E. destruct E as [s4 [-> E]].
      apply Hpath in E. destruct E as [path [rest [-> [Hp [Hf Hk]]]]].
      exists (js "www."), path, rest. repeat split; auto.
    - apply Hpath in H2. destruct H2 as [path [rest [-> [Hp [Hf Hk]]]]].
      exists [], path, rest. repeat split; auto. }
  destruct s1 as [|x s1'].
  - apply Htail in H. destruct H as [host [path [rest [E _]]]]. discriminate.
  - destruct (N.eqb x 115) eqn:Ex.
    + apply N.eqb_eq in Ex. subst x.
      match type of H with
      | match ?l with _ => _ end = _ => destruct l as [r1|] eqn:E
      end.
      * injection H as ->. apply Htail in E.
        destruct E as [host [path [rest [-> [Hh [Hp [Hf Hk]]]]]]].
        exists (js "https://"), host, path, rest. repeat split; auto.
      * apply Htail in H.
        destruct H as [host [path [rest [E' _]]]]. discriminate.
    + apply Htail in H.
      destruct H as [host [path [rest [-> [Hh [Hp [Hf Hk]]]]]]].
      exists (js "http://"), host, path, rest. repeat split; auto.
Qed.

End UrlShape.

Section ScanShape.

Lemma forallb_neq_not_in : forall c (s : jsstring),
  forallb (fun x => negb (N.eqb x c)) s = true -> ~ In c s.
Proof.
  induction s as [|x s IH]; simpl; intros H Hi; [contradiction|].
  apply andb_true_iff in H. destruct H as [Hx Hs].
  destruct Hi as [->|Hi]; [rewrite N.eqb_refl in Hx; discriminate|].
  apply (IH Hs Hi).
Qed.

(** A match of the link pattern, with what its pieces are. *)
Lemma linkRegex_question_link : forall s rest caps,
  match_here linkRegex s = Some (rest, caps) ->
  exists t scheme host path,
    s = markdownLink t (scheme ++ host ++ js "fatebook.io/q/" ++ path) ++ rest
    /\ caps = [(2, scheme ++ host ++ js "fatebook.io/q/" ++ path); (1, t)]
    /\ ~ In c_rbracket t
    /\ (scheme = js "http://" \/ scheme = js "https://")
    /\ (host = [] \/ host = js "www.")
    /\ path <> [] /\ ~ In c_rparen path.
Proof.
  intros s rest caps H. unfold match_here, linkRegex in H.
  cbn [rmatch] in H.
  destruct s as [|x s]; [discriminate|].
  destruct (N.eqb x c_lbracket) eqn:Ex; [|discriminate].
  apply N.eqb_eq in Ex. subst x.
  apply star_greedy_some in H. destruct H as [t [s2 [-> [Ht H]]]].
  rewrite firstn_app_exact in H.
  destruct s2 as [|x s2]; [discriminate|].
  destruct (N.eqb x c_rbracket) eqn:Ex; [|discriminate].
  apply N.eqb_eq in Ex. subst x.
  destruct s2 as [|x s3]; [discriminate|].
  destruct (N.eqb x c_lparen) eqn:Ex; [|discriminate].
  apply N.eqb_eq in Ex. subst x.
  apply urlPattern_shape in H.
  destruct H as [scheme [host [path [s4 [-> [Hs [Hh [Hp [Hf H]]]]]]]]].
  destruct s4 as [|x s4]; [discriminate|].
  destruct (N.eqb x c_rparen) eqn:Ex; [|discriminate].
  apply N.eqb_eq in Ex. subst x.
  injection H as <- <-.
  exists t, scheme, host, path.
  assert (Hu : firstn
                 (length (scheme ++ host ++ js "fatebook.io/q/" ++ path ++ c_rparen :: s4)
                  - length (c_rparen :: s4))
                 (scheme ++ host ++ js "fatebook.io/q/" ++ path ++ c_rparen :: s4)
               = scheme ++ host ++ js "fatebook.io/q/" ++ path).
  { replace (scheme ++ host ++ js "fatebook.io/q/" ++ path ++ c_rparen :: s4)
      with ((scheme ++ host ++ js "fatebook.io/q/" ++ path) ++ c_rparen :: s4)
      by (rewrite <- !app_assoc; reflexivity).
    apply firstn_app_exact. }
  match goal with
  | |- _ /\ [(2, ?x); _] = _ /\ _ =>
      assert (Hx : x = scheme ++ host ++ js "fatebook.io/q/" ++ path) by exact Hu;
      rewrite Hx
  end.
  repeat split; auto.
  - rewrite markdownLink_cons. rewrite <- !app_assoc. reflexivity.
  - apply forallb_neq_not_in. exact Ht.
  - apply forallb_neq_not_in. exact Hf.
Qed.

Lemma exec_question_link : forall content i m,
  exec linkRegex content i = Some m ->
  exists t scheme host path,
    content = firstn (m_index m) content
              ++ markdownLink t (scheme ++ host ++ js "fatebook.io/q/" ++ path)
              ++ m_rest m
    /\ m_text m = markdownLink t (scheme ++ host ++ js "fatebook.io/q/" ++ path)
    /\ m_group 1 m = t
    /\ m_group 2 m = scheme ++ host ++ js "fatebook.io/q/" ++ path
    /\ ~ In c_rbracket t
    /\ (scheme = js "http://" \/ scheme = js "https://")
    /\ (host = [] \/ host = js "www.")
    /\ path <> [] /\ ~ In c_rparen path.
Proof.
  intros content i m H.
  destruct (exec_linkRegex _ _ H) as [t0 [u0 [Ht0 [Hg1 [Hg2 [_ [_ Hc]]]]]]].
  unfold exec in H.
  destruct (Nat.ltb (length content) i); [discriminate|].
  apply search_some in H. destruct H as [a [s [_ [_ [Hm _]]]]].
  apply linkRegex_question_link in Hm.
  destruct Hm as [t [scheme [host [path [_ [Hcaps [Ht [Hs [Hh [Hp Hn]]]]]]]]]].
  assert (E1 : m_group 1 m = t) by (unfold m_group; rewrite Hcaps; reflexivity).
  assert (E2 : m_group 2 m = scheme ++ host ++ js "fatebook.io/q/" ++ path)
    by (unfold m_group; rewrite Hcaps; reflexivity).
  exists t, scheme, host, path.
  assert (Htext : m_text m
                  = markdownLink t (scheme ++ host ++ js "fatebook.io/q/" ++ path))
    by congruence.
  repeat split; auto.
  rewrite <- Htext. symmetry. exact Hc.
Qed.

Lemma allMatches_exec : forall fuel content i m,
  In m (allMatches fuel content i) ->
  exists j, exec linkRegex content j = Some m.
Proof.
  induction fuel as [|fuel IH]; intros content i m H; simpl in H; [contradiction|].
  destruct (exec linkRegex content i) as [m0|] eqn:E; [|contradiction].
  destruct H as [<-|H]; [exists i; exact E|].
  apply (IH _ _ _ H).
Qed.

End ScanShape.

(** What a match of the scan is. *)
Lemma matched_question_link :
  forall content m,
    In m (matchedLinks content) ->
    exists pre t scheme host path post,
      content = pre ++ markdownLink t (scheme ++ host ++ js "fatebook.io/q/" ++ path)
                    ++ post
      /\ m_index m = length pre
      /\ m_text m = markdownLink t (scheme ++ host ++ js "fatebook.io/q/" ++ path)
      /\ m_group 1 m = t
      /\ m_group 2 m = scheme ++ host ++ js "fatebook.io/q/" ++ path
      /\ ~ In c_rbracket t
      /\ (scheme = js "http://" \/ scheme = js "https://")
      /\ (host = [] \/ host = js "www.")
      /\ path <> [] /\ ~ In c_rparen path.
Proof.
  intros content m H. unfold matchedLinks in H.
  apply allMatches_exec in H. destruct H as [j H].
  pose proof (exec_linkRegex _ _ H) as [t0 [u0 [_ [_ [_ [_ [Hend _]]]]]]].
  apply exec_question_link in H.
  destruct H as [t [scheme [host [path [Hc H]]]]].
  exists (firstn (m_index m) content), t, scheme, host, path, (m_rest m).
  split; [exact Hc|]. split; [|exact H].
  symmetry. apply firstn_length_le. unfold m_end in Hend. lia.
Qed.

(** X3: the scan only stops at links to questions: every match is the text
    [[t](u)] of a link that stands in the document at the match's index,
    whose text [t] holds no closing bracket and whose target [u] is
    [http://] or [https://], an optional [www.], [fatebook.io/q/] and a
    non-empty path without a closing parenthesis. *)
Theorem scan_matches_question_links :
  forall content m,
    In m (matchedLinks content) ->
    exists pre t scheme host path post,
      content = pre ++ markdownLink t (scheme ++ host ++ js "fatebook.io/q/" ++ path)
                    ++ post
      /\ m_index m = length pre
      /\ m_text m = markdownLink t (scheme ++ host ++ js "fatebook.io/q/" ++ path)
      /\ m_group 1 m = t
      /\ m_group 2 m = scheme ++ host ++ js "fatebook.io/q/" ++ path
      /\ ~ In c_rbracket t
      /\ (scheme = js "http://" \/ scheme = js "https://")
      /\ (host = [] \/ host = js "www.")
      /\ path <> [] /\ ~ In c_rparen path.
Proof.
  intros content m H. apply matched_question_link. exact H.
Qed.

Section Order.

(** Matches come in document order and do not overlap. *)
Lemma allMatches_sorted : forall fuel content i,
  (forall m, In m (allMatches fuel content i) ->
             i <= m_index m /\ m_end m <= length content)
  /\ (forall k1 k2 m1 m2,
         k1 < k2 ->
         nth_error (allMatches fuel content i) k1 = Some m1 ->
         nth_error (allMatches fuel content i) k2 = Some m2 ->
         m_end m1 <= m_index m2).
Proof.
  induction fuel as [|fuel IH]; intros content i; simpl.
  - split; [intros m []|]. intros k1 k2 m1 m2 _ H. destruct k1; discriminate.
  - destruct (exec linkRegex content i) as [m0|] eqn:E.
    + pose proof (exec_linkRegex_progress _ _ E) as Hp.
      destruct (exec_linkRegex _ _ E) as [t [u [_ [_ [_ [Hi [He _]]]]]]].
      destruct (IH content (m_end m0)) as [IH1 IH2].
      split.
      * intros m [<-|H]; [auto|]. destruct (IH1 m H). split; lia.
      * intros k1 k2 m1 m2 Hk H1 H2.
        destruct k2 as [|k2]; [lia|]. simpl in H2.
        destruct k1 as [|k1]; simpl in H1.
        -- injection H1 as <-. apply nth_error_In in H2.
           destruct (IH1 m2 H2). lia.
        -- apply (IH2 k1 k2 m1 m2); [lia|exact H1|exact H2].
    + split; [intros m []|]. intros k1 k2 m1 m2 _ H. destruct k1; discriminate.
Qed.

End Order.

(** X4: every match the loop visits is non-empty and lies inside the
    document, and the matches come in document order without overlapping:
    each starts at or after the end of the one before. *)
Theorem scan_matches_do_not_overlap :
  forall content,
    (forall m, In m (matchedLinks content) ->
               m_index m < m_end m /\ m_end m <= length content)
    /\ (forall k1 k2 m1 m2,
           k1 < k2 ->
           nth_error (matchedLinks content) k1 = Some m1 ->
           nth_error (matchedLinks content) k2 = Some m2 ->
           m_end m1 <= m_index m2).
Proof.
  intros content. unfold matchedLinks.
  destruct (allMatches_sorted (S (length content)) content 0) as [Hin Hord].
  split.
  - intros m Hm. destruct (Hin m Hm) as [_ He]. split; [|exact He].
    apply allMatches_shape in Hm.
    pose proof (markdownLink_length (m_group 1 m) (m_group 2 m)) as Hl.
    rewrite <- Hm in Hl. unfold m_end. lia.
  - exact Hord.
Qed.

Section Untouched.
Context {ops : NumberOps} {glyphs : StatusGlyphs}.

Lemma indexOf_absent_no_occurrence : forall s needle,
  indexOf s needle = (-1)%Z -> forall pre post, s <> pre ++ needle ++ post.
Proof.
  intros s needle H pre post ->. unfold indexOf in H.
  destruct (@indexOf_from_least needle pre post 0%Z ltac:(lia)) as [_ H1].
  contradiction.
Qed.

Lemma matchedLinks_none : forall content,
  indexOf content (js "fatebook.io/q/") = (-1)%Z -> matchedLinks content = [].
Proof.
  intros content H.
  destruct (matchedLinks content) as [|m ms] eqn:E; [reflexivity|].
  exfalso.
  assert (Hin : In m (matchedLinks content)) by (rewrite E; left; reflexivity).
  apply matched_question_link in Hin.
  destruct Hin as [pre [t [scheme [host [path [post [Hc _]]]]]]].
  apply (indexOf_absent_no_occurrence _ H
           (pre ++ js "[" ++ t ++ js "](" ++ scheme ++ host)
           (path ++ js ")" ++ post)).
  rewrite Hc. unfold markdownLink. rewrite <- !app_assoc. reflexivity.
Qed.

(** X5: a document in which the text [fatebook.io/q/] does not occur is left
    alone: the scan matches nothing, so that no request is made and no
    change recorded, and the run writes the editor's value back as it
    is. *)
Theorem document_without_question_url_untouched :
  forall net content,
    indexOf content (js "fatebook.io/q/") = (-1)%Z ->
    matchedLinks content = []
    /\ collectChanges net content = Some []
    /\ forall v editor later editor',
         view_editor v = Some editor ->
         editor_value editor = content ->
         view_editor later = Some editor' ->
         enhanceMarkdownLinks net (Some v) later = ViewChanged
         \/ enhanceMarkdownLinks net (Some v) later
            = Rewritten [] (editor_value editor').
Proof.
  intros net content H.
  pose proof (matchedLinks_none content H) as Hm.
  assert (Hc : collectChanges net content = Some []).
  { rewrite collectChanges_changesFor, Hm. reflexivity. }
  split; [exact Hm|]. split; [exact Hc|].
  intros v editor later editor' Hv Hval Hl.
  unfold enhanceMarkdownLinks. rewrite Hv, Hval, Hc, Hl.
  destruct (Nat.eqb (editor_id editor') (editor_id editor)
            && Nat.eqb (view_file later) (view_file v)); [right|left]; reflexivity.
Qed.

Lemma applyChanges_absent : forall changes value,
  (forall c, In c changes -> indexOf value (from c) = (-1)%Z) ->
  applyChanges value changes = value.
Proof.
  induction changes as [|c changes IH]; intros value H; simpl; [reflexivity|].
  assert (E : applyChange value c = value).
  { unfold applyChange. rewrite (H c (or_introl eq_refl)). reflexivity. }
  rewrite E. apply IH. intros c' Hc'. apply H. right. exact Hc'.
Qed.

(** X6: the changes are applied to the value the editor has when the fetches
    are done, by searching for the text of each matched link.  When none of
    the matched links occurs in that value any more (the user has edited
    them away in the meantime), the run writes nothing: the editor keeps
    the value the user gave it. *)
Theorem vanished_links_are_skipped :
  forall net v editor later editor',
    view_editor v = Some editor ->
    view_editor later = Some editor' ->
    (forall m, In m (matchedLinks (editor_value editor)) ->
               indexOf (editor_value editor') (m_text m) = (-1)%Z) ->
    enhanceMarkdownLinks net (Some v) later = ViewChanged
    \/ exists changes,
         enhanceMarkdownLinks net (Some v) later
         = Rewritten changes (editor_value editor').
Proof.
  intros net v editor later editor' Hv Hl Hgone.
  unfold enhanceMarkdownLinks. rewrite Hv, collectChanges_changesFor, Hl.
  destruct (Nat.eqb (editor_id editor') (editor_id editor)
            && Nat.eqb (view_file later) (view_file v)); [right|left; reflexivity].
  exists (changesFor net 0 (matchedLinks (editor_value editor))).
  rewrite applyChanges_absent; [reflexivity|].
  intros c Hc. apply changesFor_recorded in Hc.
  destruct Hc as [k [m [e [Hk [_ [Hf _]]]]]].
  rewrite Hf. apply Hgone. eapply nth_error_In. exact Hk.
Qed.

Lemma app_same_length : forall (a b c d : jsstring),
  a ++ b = c ++ d -> length a = length c -> a = c /\ b = d.
Proof.
  induction a as [|x a IH]; intros b c d E Hl; destruct c as [|y c];
    simpl in *; try discriminate; [auto|].
  injection E as -> E. injection Hl as Hl.
  destruct (IH _ _ _ E Hl) as [-> ->]. auto.
Qed.

(** X7: a recorded change rewrites the first occurrence of its text in the
    editor's value, and only that one: what stands before and after it is
    kept, later occurrences included. *)
Theorem change_rewrites_first_occurrence :
  forall value c pre post,
    value = pre ++ from c ++ post ->
    (forall pre' post', value = pre' ++ from c ++ post' -> length pre <= length pre') ->
    applyChange value c = pre ++ to c ++ post.
Proof.
  intros value c pre post Hv Hfirst.
  unfold applyChange, indexOf.
  destruct (@indexOf_from_least (from c) pre post 0%Z ltac:(lia)) as [Hle Hne].
  rewrite <- Hv in Hle, Hne.
  destruct (indexOf_from_found _ _ Hne ltac:(lia)) as [pre0 [post0 [Hv0 Hi]]].
  pose proof (Hfirst pre0 post0 Hv0) as Hge.
  assert (Hlen : length pre0 = length pre) by lia.
  assert (E : pre0 = pre /\ from c ++ post0 = from c ++ post).
  { apply app_same_length; [congruence|exact Hlen]. }
  destruct E as [-> E]. apply app_inv_head in E. subst post0.
  apply Z.eqb_neq in Hne. rewrite Hne, Hi. unfold replaceRange.
  replace (Z.to_nat (0 + Z.of_nat (length pre))) with (length pre) by lia.
  rewrite Hv at 1 2.
  rewrite firstn_app, Nat.sub_diag, firstn_all. simpl. rewrite app_nil_r.
  rewrite skipn_app.
  rewrite (skipn_all2 (n := length pre + length (from c))) by lia.
  replace (length pre + length (from c) - length pre) with (length (from c)) by lia.
  rewrite skipn_app, skipn_all, Nat.sub_diag. reflexivity.
Qed.

(** A text that [enhanceFatebookLink] gives holds the space that follows
    the glyph. *)
Lemma enhanceFatebookLink_not_empty : forall fetch questionId e,
  enhanceFatebookLink fetch questionId = Some e -> e <> [].
Proof.
  intros fetch questionId e H. unfold enhanceFatebookLink in H.
  destruct (fetch (getQuestionUrl questionId)) as [|response]; [discriminate|].
  destruct (negb (response_ok response)); [discriminate|].
  destruct (body response) as [|v]; [discriminate|].
  destruct (getProp v (js "title")) as [title|]; [|discriminate].
  destruct (getProp v (js "resolved")) as [resolved|]; [|discriminate].
  destruct (getProp v (js "resolution")) as [resolution|]; [|discriminate].
  destruct (getProp v (js "yourLatestPrediction")) as [p|]; [|discriminate].
  destruct (truthy title); [|discriminate].
  destruct (predictionText p) as [suffix|]; [|discriminate].
  destruct (toStr title) as [titleText|]; [|discriminate].
  injection H as <-. intros E.
  apply app_eq_nil in E. destruct E as [_ E]. discriminate.
Qed.

(** X8: [enhanceFatebookLink] gives a text exactly when the request was
    answered with a status in 200-299 and a JSON body, other than [null],
    whose [title] is truthy, and the two conversions to a string succeed:
    that of the prediction, when there is one, and that of the title; in
    every other case (the fetch throws, the status is not ok, the body is
    not JSON, the title is missing, empty or otherwise falsy, a
    conversion throws) it gives [null].  A text it gives is never
    empty. *)
Theorem enhanceFatebookLink_result_iff :
  forall fetch questionId,
    (enhanceFatebookLink fetch questionId <> None <->
     exists response v title,
       fetch (getQuestionUrl questionId) = FetchResolved response
       /\ response_ok response = true
       /\ body response = BodyJson v
       /\ getProp v (js "title") = Some title
       /\ truthy title = true
       /\ toStr title <> None
       /\ (getField v (js "yourLatestPrediction") = VUndefined
           \/ toStr (getField v (js "yourLatestPrediction")) <> None))
    /\ (forall e, enhanceFatebookLink fetch questionId = Some e -> e <> []).
Proof.
  intros fetch questionId. split;
    [|intros e H; apply (enhanceFatebookLink_not_empty _ _ H)].
  assert (Hpt : forall p : JsValue,
             predictionText p <> None <-> (p = VUndefined \/ toStr p <> None)).
  { intros p. unfold predictionText, parseFloat.
    destruct p; simpl;
      try (split; [intros _; right; discriminate|discriminate]);
      try (split; [intros _; left; reflexivity|discriminate]).
    - destruct b; (split; [intros _; right; discriminate|discriminate]).
    - match goal with
      | |- context [option_map _ ?x] => destruct x
      end; simpl; split; try discriminate; try (intros _; right; discriminate);
        try (intros H; contradiction); intros [H|H]; [discriminate|contradiction].
    - destruct (lookup (js "toString") fields); simpl; split;
        try discriminate; try (intros _; right; discriminate);
        try (intros H; contradiction); intros [H|H]; [discriminate|contradiction]. }
  unfold enhanceFatebookLink.
  destruct (fetch (getQuestionUrl questionId)) as [|response].
  { split; [intros H; contradiction|]. intros [r [v [t [H _]]]]. discriminate. }
  destruct (response_ok response) eqn:Eok; simpl.
  2:{ split; [intros H; contradiction|].
      intros [r [v [t [H [Hok _]]]]]. injection H as <-. congruence. }
  destruct (body response) as [|v] eqn:Eb.
  { split; [intros H; contradiction|].
    intros [r [v [t [H [_ [Hb _]]]]]]. injection H as <-. congruence. }
  destruct (getProp v (js "title")) as [title|] eqn:Et.
  2:{ split; [intros H; contradiction|].
      intros [r [v' [t [H [_ [Hb [Hp _]]]]]]]. injection H as <-.
      rewrite Eb in Hb. injection Hb as <-. congruence. }
  assert (Hv : forall name, getProp v name = Some (getField v name)).
  { intros name. destruct v; try reflexivity; discriminate. }
  rewrite !Hv.
  destruct (truthy title) eqn:Etr.
  2:{ split; [intros H; contradiction|].
      intros [r [v' [t [H [_ [Hb [Hp [Htr' _]]]]]]]]. injection H as <-.
      rewrite Eb in Hb. injection Hb as <-. rewrite Et in Hp.
      injection Hp as <-. congruence. }
  pose proof (Hpt (getField v (js "yourLatestPrediction"))) as Hp.
  destruct (predictionText (getField v (js "yourLatestPrediction")))
    as [suffix|] eqn:Es.
  - destruct (toStr title) as [titleText|] eqn:Ett.
    + split; [|discriminate]. intros _.
      exists response, v, title. repeat split; auto.
      * rewrite Ett. discriminate.
      * apply Hp. discriminate.
    + split; [intros H; contradiction|].
      intros [r [v' [t [H [_ [Hb [Hp' [_ [Hts _]]]]]]]]]. injection H as <-.
      rewrite Eb in Hb. injection Hb as <-. rewrite Et in Hp'.
      injection Hp' as <-. congruence.
  - split; [intros H; contradiction|].
    intros [r [v' [t [H [_ [Hb [_ [_ [_ Hpr]]]]]]]]]. injection H as <-.
    rewrite Eb in Hb. injection Hb as <-.
    apply Hp in Hpr. contradiction.
Qed.

End Untouched.

Section RoundTrip.
Variable A : Type.

(** The target pattern accepts every target of the shape it describes. *)
Lemma urlPattern_accepts : forall scheme host path rest caps
    (k : jsstring -> captures -> option A) r,
  scheme = js "http://" \/ scheme = js "https://" ->
  host = [] \/ host = js "www." ->
  path <> [] -> ~ In c_rparen path ->
  k (c_rparen :: rest) caps = Some r ->
  rmatch urlPattern
         ((scheme ++ host ++ js "fatebook.io/q/" ++ path) ++ c_rparen :: rest)
         caps k
  = Some r.
Proof.
  intros scheme host path rest caps k r Hs Hh Hp Hn Hk.
  destruct path as [|x path]; [contradiction|].
  assert (Hx : not_rparen x = true).
  { unfold not_rparen. destruct (N.eqb x c_rparen) eqn:E; [|reflexivity].
    apply N.eqb_eq in E. subst. exfalso. apply Hn. left. reflexivity. }
  assert (Hplus : star_greedy not_rparen (path ++ c_rparen :: rest)
                              (fun s1 => k s1 caps) = Some r).
  { apply star_greedy_take.
    - apply not_in_forallb. intros Hi. apply Hn. right. exact Hi.
    - intros hd tl E. injection E as <- _. reflexivity.
    - exact Hk. }
  unfold urlPattern.
  destruct Hs as [-> | ->]; destruct Hh as [-> | ->];
    cbn -[star_greedy not_rparen]; rewrite <- ?app_assoc;
    cbn -[star_greedy not_rparen]; rewrite Hx, Hplus; reflexivity.
Qed.

End RoundTrip.

Section RoundTrip2.

Lemma rewritten_link_matches : forall e scheme host path rest,
  ~ In c_rbracket e ->
  scheme = js "http://" \/ scheme = js "https://" ->
  host = [] \/ host = js "www." ->
  path <> [] -> ~ In c_rparen path ->
  match_here linkRegex
    (markdownLink e (scheme ++ host ++ js "fatebook.io/q/" ++ path) ++ rest)
  = Some (rest, [(2, scheme ++ host ++ js "fatebook.io/q/" ++ path); (1, e)]).
Proof.
  intros e scheme host path rest He Hs Hh Hp Hn.
  rewrite markdownLink_cons.
  unfold match_here, linkRegex. cbn [rmatch]. rewrite N.eqb_refl.
  apply star_greedy_take.
  - apply not_in_forallb. exact He.
  - intros hd tl E. injection E as <- _. reflexivity.
  - rewrite !N.eqb_refl. rewrite firstn_app_exact.
    replace ((scheme ++ host ++ js "fatebook.io/q/" ++ path) ++ c_rparen :: rest)
      with ((scheme ++ host ++ js "fatebook.io/q/" ++ path) ++ (c_rparen :: rest))
      by reflexivity.
    apply urlPattern_accepts; auto.
    rewrite N.eqb_refl.
    rewrite firstn_app_exact. reflexivity.
Qed.

End RoundTrip2.

(** X9: the text written for a matched link is found again: for every link
    [[t](u)] the scan matched and every text [e] without a closing
    bracket, the pattern matches [[e](u)] at its first character, whatever
    follows, and captures [e] as the text and [u] as the target. *)
Theorem rewritten_link_is_matched_again :
  forall content m e rest,
    In m (matchedLinks content) ->
    ~ In c_rbracket e ->
    exec linkRegex (markdownLink e (m_group 2 m) ++ rest) 0
    = Some (mkMatch 0 (markdownLink e (m_group 2 m))
                    [(2, m_group 2 m); (1, e)] rest).
Proof.
  intros content m e rest Hm He.
  apply matched_question_link in Hm.
  destruct Hm as [pre [t [scheme [host [path [post
                   [_ [_ [_ [_ [Hu [_ [Hs [Hh [Hp Hn]]]]]]]]]]]]]]].
  rewrite Hu. unfold exec. cbn [Nat.ltb Nat.leb skipn].
  rewrite (@search_here _ _ 0 _ _
             (@rewritten_link_matches e scheme host path rest He Hs Hh Hp Hn)).
  rewrite firstn_app_exact. reflexivity.
Qed.

Section InPlace.
Context {ops : NumberOps} {glyphs : StatusGlyphs}.

(** X10: a run on a plain document (an opening bracket only ever opens a link
    to a question, link texts hold no bracket), with answers that depend on
    the target only and enhanced texts without brackets, rewrites every
    link in place: a link [[t](u)] whose question yields a text [e] other
    than [t] reads [[e](u)] afterwards; the other links, the text between
    the links, the targets and the end of the document are as before; one
    change is recorded for each rewritten link, in document order. *)
Theorem plain_document_is_enhanced_in_place :
  forall (fetch : jsstring -> FetchOutcome) items tail,
    plainDocument items tail ->
    enhancedPlain fetch items ->
    enhanceDocument (fun _ => fetch) (renderItems items ++ tail)
    = Rewritten (itemChanges fetch items)
                (renderItems (map (enhanceItem fetch) items) ++ tail).
Proof.
  intros fetch items tail Hp He.
  rewrite enhanceDocument_plain by exact Hp. f_equal.
  destruct Hp as [Hi Ht].
  apply (@applyChanges_items ops glyphs fetch items [] tail); auto.
Qed.

End InPlace.

Section SkippedText.
#[local] Arguments markdownLink : simpl never.

Ltac flatten_links :=
  rewrite ?markdownLink_cons;
  repeat (progress (rewrite <- ?app_assoc; cbn [app])).

Lemma search_skip : forall g s i,
  noMatchWithin g s ->
  search linkRegex (g ++ s) i = search linkRegex s (i + length g).
Proof.
  induction g as [|c g IH]; intros s i H; simpl.
  - rewrite Nat.add_0_r. reflexivity.
  - assert (H0 : match_here linkRegex (c :: g ++ s) = None).
    { apply (H [] (c :: g) eq_refl). discriminate. }
    rewrite H0. rewrite IH.
    + f_equal. lia.
    + intros a b E Hb. apply (H (c :: a) b); [simpl; rewrite E; reflexivity|exact Hb].
Qed.

Lemma search_quiet_tail : forall tail i,
  noMatchWithin tail [] -> search linkRegex tail i = None.
Proof.
  intros tail i H. rewrite <- (app_nil_r tail). rewrite search_skip by exact H.
  reflexivity.
Qed.

Lemma search_found : forall r s i m,
  search r s i = Some m ->
  exists g t,
    s = g ++ t /\ m_index m = i + length g
    /\ match_here r t = Some (m_rest m, m_caps m)
    /\ m_text m = firstn (length t - length (m_rest m)) t
    /\ (forall a b, g = a ++ b -> b <> [] -> match_here r (b ++ t) = None).
Proof.
  induction s as [|c s IH]; intros i m H; simpl in H.
  - destruct (match_here r []) as [[rest caps]|] eqn:E; [|discriminate].
    injection H as <-. exists [], []. simpl. rewrite E. repeat split; auto.
    intros a b Hab Hb. destruct a; destruct b; try discriminate. contradiction.
  - destruct (match_here r (c :: s)) as [[rest caps]|] eqn:E.
    + injection H as <-. exists [], (c :: s). simpl. rewrite E.
      repeat split; auto.
      intros a b Hab Hb. destruct a; destruct b; try discriminate. contradiction.
    + apply IH in H. destruct H as [g [t [-> [Hi [Hm [Ht Hq]]]]]].
      exists (c :: g), t. simpl. repeat split; auto; [lia|].
      intros a b Hab Hb. destruct a as [|x a]; simpl in Hab.
      * subst b. simpl. exact E.
      * injection Hab as _ Hab. apply (Hq a b Hab Hb).
Qed.

Lemma search_nowhere : forall r s i,
  search r s i = None -> forall a b, s = a ++ b -> match_here r b = None.
Proof.
  induction s as [|c s IH]; intros i H a b E; simpl in H.
  - destruct a; destruct b; try discriminate.
    destruct (match_here r []); [destruct p; discriminate|reflexivity].
  - destruct (match_here r (c :: s)) as [[rest caps]|] eqn:Em; [discriminate|].
    destruct a as [|x a]; simpl in E.
    + subst b. exact Em.
    + injection E as _ E. apply (IH _ H a b E).
Qed.

Lemma first_split : forall (c : char16) s,
  In c s -> exists pre post, s = pre ++ c :: post /\ ~ In c pre.
Proof.
  induction s as [|x s IH]; intros H; [contradiction|].
  destruct (N.eq_dec x c) as [->|Hne].
  - exists [], s. split; [reflexivity|]. intros [].
  - destruct H as [H|H]; [contradiction|].
    destruct (IH H) as [pre [post [-> Hn]]].
    exists (x :: pre), post. split; [reflexivity|].
    intros [E|E]; [contradiction|]. apply (Hn E).
Qed.

Lemma isLinkTarget_chars : forall u, isLinkTarget u -> ~ In c_rparen u.
Proof.
  intros u [scheme [host [path [-> [Hs [Hh [_ Hr]]]]]]] Hi.
  repeat (apply in_app_or in Hi; destruct Hi as [Hi|Hi]);
    try (destruct Hs as [-> | ->]; simpl in Hi;
         repeat (destruct Hi as [Hi|Hi]; [discriminate|]); contradiction);
    try (destruct Hh as [-> | ->]; simpl in Hi;
         repeat (destruct Hi as [Hi|Hi]; [discriminate|]); contradiction);
    try (simpl in Hi; repeat (destruct Hi as [Hi|Hi]; [discriminate|]); contradiction);
    tauto.
Qed.

Lemma linkTarget_matches : forall e u rest,
  ~ In c_rbracket e -> isLinkTarget u ->
  match_here linkRegex (markdownLink e u ++ rest) = Some (rest, [(2, u); (1, e)]).
Proof.
  intros e u rest He [scheme [host [path [-> [Hs [Hh [Hp Hn]]]]]]].
  apply rewritten_link_matches; assumption.
Qed.

(** The prefix [scheme ++ host ++ 'fatebook.io/q/'] holds no opening bracket. *)
Lemma target_prefix_no_bracket : forall scheme host,
  scheme = js "http://" \/ scheme = js "https://" ->
  host = [] \/ host = js "www." ->
  ~ In c_lbracket (scheme ++ host ++ js "fatebook.io/q/").
Proof.
  intros scheme host Hs Hh Hi.
  repeat (apply in_app_or in Hi; destruct Hi as [Hi|Hi]);
    try (destruct Hs as [-> | ->]; simpl in Hi;
         repeat (destruct Hi as [Hi|Hi]; [discriminate|]); contradiction);
    try (destruct Hh as [-> | ->]; simpl in Hi;
         repeat (destruct Hi as [Hi|Hi]; [discriminate|]); contradiction);
    try (simpl in Hi; repeat (destruct Hi as [Hi|Hi]; [discriminate|]); contradiction).
Qed.

(** Whether an attempt inside the text before a link succeeds does not
    depend on the text of that link, nor on what follows the link. *)
Lemma noMatch_transfer : forall g t u rest t' rest',
  ~ In c_rbracket t -> ~ In c_rbracket t' -> isLinkTarget u ->
  noMatchWithin g (markdownLink t u ++ rest) ->
  noMatchWithin g (markdownLink t' u ++ rest').
Proof.
  intros g t u rest t' rest' Ht Ht' Hu H a b Hg Hb.
  destruct (match_here linkRegex (b ++ markdownLink t' u ++ rest'))
    as [[r caps]|] eqn:E; [exfalso|reflexivity].
  assert (Hgoal : exists e u0 z,
             b ++ markdownLink t u ++ rest = markdownLink e u0 ++ z
             /\ ~ In c_rbracket e /\ isLinkTarget u0).
  2:{ destruct Hgoal as [e [u0 [z [Eq [He Hu0]]]]].
      pose proof (H a b Hg Hb) as Hn. rewrite Eq in Hn.
      rewrite (@linkTarget_matches e u0 z He Hu0) in Hn. discriminate. }
  apply linkRegex_question_link in E.
  destruct E as [x [sc [ho [pa [E [_ [Hx [Hs [Hh [Hp Hn]]]]]]]]]].
  assert (HU : isLinkTarget (sc ++ ho ++ js "fatebook.io/q/" ++ pa))
    by (exists sc, ho, pa; auto).
  remember (sc ++ ho ++ js "fatebook.io/q/" ++ pa) as U eqn:EU.
  pose proof (isLinkTarget_chars HU) as HUr.
  pose proof (isLinkTarget_chars Hu) as Hur.
  rewrite !markdownLink_cons in E.
  destruct b as [|c b1]; [contradiction|].
  cbn [app] in E. injection E as -> E.
  destruct (in_dec N.eq_dec c_rbracket b1) as [Hin|Hnin].
  - (* the text ends inside the gap *)
    destruct (@first_split _ _ Hin) as [x0 [b2 [-> Hx0]]].
    rewrite <- app_assoc in E. cbn [app] in E.
    apply first_delimiter in E; [|exact Hx0|exact Hx].
    destruct E as [<- E].
    destruct b2 as [|c2 b3]; [discriminate|].
    cbn [app] in E. injection E as -> E.
    destruct (in_dec N.eq_dec c_rparen b3) as [Hin3|Hnin3].
    + (* the whole match lies inside the gap *)
      destruct (@first_split _ _ Hin3) as [u0 [b4 [-> Hu0]]].
      rewrite <- app_assoc in E. cbn [app] in E.
      apply first_delimiter in E; [|exact Hu0|exact HUr].
      destruct E as [-> _].
      exists x0, U, (b4 ++ markdownLink t u ++ rest).
      split; [|split; [exact Hx0|exact HU]].
      flatten_links. reflexivity.
    + (* the target runs into the link *)
      pose proof (@occurrence_after _ _ _ _ _ _ E Hnin3) as Hlen.
      destruct (@app_eq_split _ _ _ _ _ E Hlen) as [l [HU' El]].
      destruct l as [|cl l1]; [discriminate|].
      cbn [app] in El. injection El as <- El.
      assert (Hpre : ~ In c_lbracket (sc ++ ho ++ js "fatebook.io/q/"))
        by (apply target_prefix_no_bracket; assumption).
      assert (HU2 : (sc ++ ho ++ js "fatebook.io/q/") ++ pa = b3 ++ c_lbracket :: l1)
        by (rewrite <- HU', EU, <- !app_assoc; reflexivity).
      pose proof (@occurrence_after _ _ _ _ _ _ HU2 Hpre) as Hlen2.
      destruct (@app_eq_split _ _ _ _ _ HU2 Hlen2) as [p1 [Hb3 Hpa]].
      assert (Hin4 : In c_rparen (c_lbracket :: t ++ c_rbracket :: c_lparen :: u
                                    ++ c_rparen :: rest)).
      { right. apply in_or_app. right. right. right.
        apply in_or_app. right. left. reflexivity. }
      destruct (@first_split _ _ Hin4) as [z0 [z1 [Ez Hz0]]].
      destruct z0 as [|cz z0]; [discriminate|].
      exists x0, (sc ++ ho ++ js "fatebook.io/q/" ++ (p1 ++ cz :: z0)), z1.
      split; [|split; [exact Hx0|]].
      * rewrite Hb3. flatten_links. rewrite Ez. flatten_links. reflexivity.
      * exists sc, ho, (p1 ++ cz :: z0). repeat split; auto.
        -- destruct p1; discriminate.
        -- intros Hi. apply in_app_or in Hi. destruct Hi as [Hi|Hi].
           ++ apply Hn. rewrite Hpa. apply in_or_app. left. exact Hi.
           ++ apply Hz0. exact Hi.
  - (* the text runs into the link *)
    assert (Hb1 : ~ In c_rbracket (b1 ++ c_lbracket :: t')).
    { intros Hi. apply in_app_or in Hi. destruct Hi as [Hi|[Hi|Hi]];
        [contradiction|discriminate|contradiction]. }
    replace (b1 ++ c_lbracket :: t' ++ c_rbracket :: c_lparen :: u ++ c_rparen :: rest')
      with ((b1 ++ c_lbracket :: t') ++ c_rbracket :: c_lparen :: u ++ c_rparen :: rest')
      in E by (rewrite <- app_assoc; reflexivity).
    apply first_delimiter in E; [|exact Hb1|exact Hx].
    destruct E as [_ E]. injection E as E.
    apply first_delimiter in E; [|exact Hur|exact HUr].
    destruct E as [Eu _].
    exists (b1 ++ c_lbracket :: t), u, rest.
    split; [|split; [|exact Hu]].
    + flatten_links. reflexivity.
    + intros Hi. apply in_app_or in Hi. destruct Hi as [Hi|[Hi|Hi]];
        [contradiction|discriminate|contradiction].
Qed.

End SkippedText.

Section ScannedDocuments.
#[local] Arguments markdownLink : simpl never.
Context {ops : NumberOps} {glyphs : StatusGlyphs}.
Variable fetch : jsstring -> FetchOutcome.

(** Every document is the text the scan skips and the links it matches;
    when no matched link holds an opening bracket, these are the items of
    a scanned document. *)
Lemma scan_items : forall fuel pre s,
  length s < fuel ->
  (forall m, In m (allMatches fuel (pre ++ s) (length pre)) ->
             ~ In c_lbracket (m_group 2 m)) ->
  exists items tail,
    s = renderItems items ++ tail
    /\ scannedDocument items tail
    /\ map view (allMatches fuel (pre ++ s) (length pre)) = map itemView items.
Proof.
  induction fuel as [|fuel IH]; intros pre s Hf Hm; [lia|].
  cbn [allMatches] in *. rewrite exec_at in *.
  destruct (search linkRegex s (length pre)) as [m|] eqn:E.
  - destruct (search_found _ _ _ E) as [g [t0 [-> [Hi [Hh [Ht Hq]]]]]].
    pose proof Hh as Hshape. apply linkRegex_question_link in Hshape.
    destruct Hshape as [t [sc [ho [pa [-> [Hcaps [Hrb [Hs [Hho [Hp Hn]]]]]]]]]].
    set (u := sc ++ ho ++ js "fatebook.io/q/" ++ pa) in *.
    assert (Hg1 : m_group 1 m = t) by (unfold m_group; rewrite Hcaps; reflexivity).
    assert (Hg2 : m_group 2 m = u) by (unfold m_group; rewrite Hcaps; reflexivity).
    assert (Htext : m_text m = markdownLink t u)
      by (rewrite Ht; apply firstn_app_exact).
    pose proof (Hm m (or_introl eq_refl)) as Hlu. rewrite Hg2 in Hlu.
    assert (Hend : m_end m = length (pre ++ g ++ markdownLink t u)).
    { unfold m_end. rewrite Hi, Htext, !length_app. lia. }
    rewrite Hend in *.
    replace (pre ++ g ++ markdownLink t u ++ m_rest m)
      with ((pre ++ g ++ markdownLink t u) ++ m_rest m) in *
      by (rewrite <- !app_assoc; reflexivity).
    destruct (IH (pre ++ g ++ markdownLink t u) (m_rest m)) as [items [tail [Er [[Hit Htl] Hv]]]].
    + rewrite !length_app in Hf. pose proof (markdownLink_length t u). lia.
    + intros m' Hin. apply Hm. right. exact Hin.
    + assert (Hu : isLinkTarget u) by (exists sc, ho, pa; auto).
      exists ((g, t, u) :: items), tail. split; [|split; [split|]].
      * cbn [renderItems renderItem]. rewrite Er, <- !app_assoc. reflexivity.
      * constructor; [|exact Hit]. split; [|split; [exact Hrb|]].
        -- intros t' rest' Ht'.
           apply (@noMatch_transfer g t u (m_rest m) t' rest' Hrb Ht' Hu).
           exact Hq.
        -- exists sc, ho, pa. repeat split; auto.
           intros Hi'. apply Hlu. unfold u.
           apply in_or_app. right. apply in_or_app. right.
           apply in_or_app. right. exact Hi'.
      * exact Htl.
      * cbn [map]. f_equal; [|exact Hv].
        unfold view. rewrite Htext, Hg1, Hg2. reflexivity.
  - exists [], s. split; [reflexivity|]. split; [split; [constructor|]|reflexivity].
    intros a b Eab Hb. rewrite app_nil_r. apply (search_nowhere _ _ E a b Eab).
Qed.

(** The scan of a scanned document visits its links, in order. *)
Lemma allMatches_scanned : forall items tail fuel pre,
  scannedDocument items tail ->
  length items < fuel ->
  map view (allMatches fuel (pre ++ renderItems items ++ tail) (length pre))
  = map itemView items.
Proof.
  induction items as [|[[g t] u] items IH]; intros tail fuel pre [Hi Ht] Hf.
  - destruct fuel as [|fuel]; [lia|]. simpl.
    rewrite exec_at, search_quiet_tail by exact Ht. reflexivity.
  - destruct fuel as [|fuel]; [simpl in Hf; lia|].
    inversion Hi as [|? ? Hit Hi']; subst.
    simpl in Hit. destruct Hit as [Hg [Hrb Hu]].
    cbn [allMatches renderItems renderItem].
    rewrite exec_at. rewrite <- !app_assoc.
    rewrite search_skip by (apply Hg; exact Hrb).
    rewrite (@search_here _ _ (length pre + length g) _ _
               (linkRegex_matches t (renderItems items ++ tail) Hrb Hu)).
    rewrite firstn_app_exact.
    cbn [map]. f_equal.
    + unfold m_end. cbn [m_index m_text].
      replace (pre ++ g ++ markdownLink t u ++ renderItems items ++ tail)
        with ((pre ++ g ++ markdownLink t u) ++ renderItems items ++ tail)
        by (rewrite <- !app_assoc; reflexivity).
      replace (length pre + length g + length (markdownLink t u))
        with (length (pre ++ g ++ markdownLink t u))
        by (rewrite !length_app; lia).
      apply IH; [split; assumption|simpl in Hf; lia].
Qed.

(** The text of a link does not begin inside text the scan skips. *)
Lemma occurrence_not_in_gap : forall g s t u pre post,
  noMatchWithin g s -> ~ In c_rbracket t -> isQuestionUrl u ->
  g ++ s = pre ++ markdownLink t u ++ post ->
  length g <= length pre.
Proof.
  intros g s t u pre post Hq Ht Hu E.
  destruct (le_lt_dec (length g) (length pre)) as [Hle|Hlt]; [exact Hle|].
  exfalso. symmetry in E.
  destruct (@app_eq_split _ _ _ _ _ E ltac:(lia)) as [l [Hg Hl]].
  assert (Hne : l <> []).
  { intros ->. rewrite app_nil_r in Hg. subst g. lia. }
  pose proof (Hq pre l Hg Hne) as Hn. rewrite <- Hl in Hn.
  rewrite (linkRegex_matches t post Ht Hu) in Hn. discriminate.
Qed.

(** In a scanned document, the text of a link occurs only where an item
    with that text and target stands, or inside the text of a link with
    the same target. *)
Lemma no_occurrence_before_scanned : forall done g t u rest pre post,
  Forall scannedItem done ->
  Forall (fun it : Item =>
            let '(_, t', u') := it in
            (t', u') <> (t, u) /\ (u' = u -> ~ In c_lbracket t')) done ->
  noMatchWithin g rest ->
  ~ In c_rbracket t -> isQuestionUrl u ->
  renderItems done ++ g ++ rest = pre ++ markdownLink t u ++ post ->
  length (renderItems done ++ g) <= length pre.
Proof.
  induction done as [|[[g0 t0] u0] done IH];
    intros g t u rest pre post Hp Hne Hg Ht Hu E.
  - cbn [renderItems app] in *.
    apply (@occurrence_not_in_gap g rest t u pre post); assumption.
  - inversion Hp as [|? ? Hit Hp']; subst.
    inversion Hne as [|? ? Hne0 Hne']; subst.
    cbn beta iota in Hne0. destruct Hne0 as [Hneq Hsame].
    simpl in Hit. destruct Hit as [Hg0 [Hr0 Hu0]].
    destruct (isQuestionUrl_chars Hu0) as [Hu0r Hu0l].
    destruct (isQuestionUrl_chars Hu) as [Hur _].
    cbn [renderItems renderItem] in E. rewrite <- !app_assoc in E.
    assert (H1 : length g0 <= length pre).
    { apply (@occurrence_not_in_gap g0
               (markdownLink t0 u0 ++ renderItems done ++ g ++ rest) t u pre post);
        [apply Hg0; exact Hr0|exact Ht|exact Hu|exact E]. }
    destruct (@app_eq_split _ _ _ _ _ E H1) as [pre1 [-> E1]].
    destruct pre1 as [|c pre1].
    + exfalso. cbn [app] in E1. rewrite !markdownLink_cons in E1.
      injection E1 as E1.
      apply first_delimiter in E1; [|exact Hr0|exact Ht].
      destruct E1 as [-> E1]. injection E1 as E1.
      apply first_delimiter in E1; [|exact Hu0r|exact Hur].
      destruct E1 as [-> _]. apply Hneq. reflexivity.
    + assert (H2 : length (markdownLink t0 u0) <= length (c :: pre1)).
      { rewrite <- app_comm_cons in E1.
        rewrite !markdownLink_cons in E1. injection E1 as <- E1.
        destruct (le_lt_dec (length t0) (length pre1)) as [Hle|Hlt].
        - (* the occurrence begins after the text of the link *)
          destruct (@app_eq_split _ _ _ _ _ E1 Hle) as [l [-> El]].
          assert (Hin : ~ In c_lbracket (c_rbracket :: c_lparen :: u0 ++ [c_rparen])).
          { intros Hi. simpl in Hi. destruct Hi as [Hi|[Hi|Hi]]; try discriminate.
            apply in_app_or in Hi. destruct Hi as [Hi|Hi]; [tauto|].
            simpl in Hi. destruct Hi as [Hi|[]]. discriminate. }
          replace (c_rbracket :: c_lparen :: u0 ++
                      c_rparen :: renderItems done ++ g ++ rest)
            with ((c_rbracket :: c_lparen :: u0 ++ [c_rparen])
                    ++ renderItems done ++ g ++ rest) in El
            by (cbn [app]; rewrite <- !app_assoc; reflexivity).
          apply occurrence_after in El; [|exact Hin].
          unfold markdownLink. simpl. rewrite !length_app in *. simpl in *.
          rewrite !length_app in *. simpl in *. lia.
        - (* the occurrence would begin inside the text of the link *)
          exfalso. symmetry in E1.
          destruct (@app_eq_split _ _ _ _ _ E1 ltac:(lia)) as [l [Et0 El]].
          destruct l as [|cl z].
          { rewrite app_nil_r in Et0. subst t0. lia. }
          cbn [app] in El. injection El as <- El.
          assert (Hz : ~ In c_rbracket z).
          { intros Hi. apply Hr0. rewrite Et0. apply in_or_app. right. right.
            exact Hi. }
          apply first_delimiter in El; [|exact Ht|exact Hz].
          destruct El as [_ El]. injection El as El.
          apply first_delimiter in El; [|exact Hur|exact Hu0r].
          destruct El as [Eu _].
          apply (Hsame (eq_sym Eu)). rewrite Et0. apply in_or_app. right. left.
          reflexivity. }
      destruct (@app_eq_split _ _ _ _ _ E1 H2) as [pre2 [-> E2]].
      apply IH in E2; auto.
      cbn [renderItems renderItem]. rewrite !length_app in *. lia.
Qed.

(** Applying the change of the first unsettled item rewrites that item. *)
Lemma applyChange_scanned_item : forall done g t u e rest,
  Forall scannedItem done ->
  Forall (fun it : Item =>
            let '(_, t', u') := it in
            (t', u') <> (t, u) /\ (u' = u -> ~ In c_lbracket t')) done ->
  noMatchWithin g (markdownLink t u ++ rest) ->
  ~ In c_rbracket t -> isQuestionUrl u ->
  applyChange (renderItems done ++ g ++ markdownLink t u ++ rest)
              (mkChange (markdownLink t u) (markdownLink e u))
  = renderItems done ++ g ++ markdownLink e u ++ rest.
Proof.
  intros done g t u e rest Hp Hne Hg Ht Hu.
  set (doc := renderItems done ++ g ++ markdownLink t u ++ rest).
  assert (Hdoc : doc = (renderItems done ++ g) ++ markdownLink t u ++ rest)
    by (unfold doc; rewrite <- app_assoc; reflexivity).
  unfold applyChange, indexOf. cbn [from to].
  destruct (@indexOf_from_least (markdownLink t u) (renderItems done ++ g) rest
              0%Z ltac:(lia)) as [Hle Hfound].
  rewrite <- Hdoc in Hle, Hfound.
  destruct (@indexOf_from_found _ _ _ Hfound ltac:(lia)) as [pre [post [Hocc Hidx]]].
  assert (Hge : length (renderItems done ++ g) <= length pre).
  { apply (@no_occurrence_before_scanned done g t u (markdownLink t u ++ rest)
             pre post); auto. }
  assert (Hi : indexOf_from (markdownLink t u) doc 0
               = Z.of_nat (length (renderItems done ++ g))) by lia.
  rewrite Hi.
  assert (Hneq : (Z.of_nat (length (renderItems done ++ g)) =? -1)%Z = false)
    by (apply Z.eqb_neq; lia).
  rewrite Hneq, Nat2Z.id. unfold replaceRange.
  rewrite Hdoc. rewrite firstn_length_app.
  assert (Hs : forall (a b c : jsstring),
             skipn (length a + length b) (a ++ b ++ c) = c).
  { intros a b c. rewrite <- length_app, app_assoc. apply skipn_length_app. }
  rewrite Hs, <- !app_assoc. reflexivity.
Qed.

Lemma enhanceItem_scanned_settled : forall it,
  scannedItem it -> (enhancedPlain fetch) [it] ->
  scannedItem ((enhanceItem fetch) it) /\ (settled fetch) ((enhanceItem fetch) it).
Proof.
  intros [[g t] u] Hp He. inversion He as [|? ? Hb _]; subst.
  unfold enhanceItem. destruct ((changeOf fetch) t u) as [c|] eqn:Ec.
  - apply changeOf_some in Ec. destruct Ec as [e [Ee _]]. rewrite Ee.
    simpl in Hp. destruct Hp as [Hg [_ Hu]]. simpl. split.
    + repeat split; auto; apply (Hb e Ee).
    + apply changeOf_enhanced. exact Ee.
  - split; [exact Hp|exact Ec].
Qed.

(** An item after a run has the enhanced text of its target, if there
    is one. *)
Lemma enhanceItem_enhancedPlain : forall it,
  (enhancedPlain fetch) [it] -> (enhancedPlain fetch) [(enhanceItem fetch) it].
Proof.
  intros [[g t] u] He. inversion He as [|? ? Hb _]; subst.
  assert (H : forall t', (enhancedPlain fetch) [(g, t', u)])
    by (intros t'; constructor; [exact Hb|constructor]).
  unfold enhanceItem.
  destruct ((changeOf fetch) t u); [|apply H].
  destruct ((enhanced fetch) u); apply H.
Qed.

(** A settled item whose target has an enhanced text shows that text. *)
Lemma settled_text : forall g t u c t0,
  (settled fetch) (g, t, u) -> (changeOf fetch) t0 u = Some c ->
  (enhanced fetch) u = Some t.
Proof.
  intros g t u c t0 Hs Hc. simpl in Hs. unfold changeOf in *.
  destruct ((enhanced fetch) u) as [[|x e]|]; try discriminate.
  destruct (jsstring_eqb (x :: e) t) eqn:E; simpl in Hs; [|discriminate].
  apply jsstring_eqb_eq in E. rewrite E. reflexivity.
Qed.

Lemma applyChanges_scanned_items : forall pending done tail,
  Forall scannedItem done -> Forall (settled fetch) done ->
  (enhancedPlain fetch) done ->
  Forall scannedItem pending -> (enhancedPlain fetch) pending ->
  applyChanges (renderItems done ++ renderItems pending ++ tail)
               ((itemChanges fetch) pending)
  = renderItems done ++ renderItems (map (enhanceItem fetch) pending) ++ tail.
Proof.
  induction pending as [|[[g t] u] pending IH];
    intros done tail Hd Hs Hde Hp He; [reflexivity|].
  inversion Hp as [|? ? Hit Hp']; subst.
  inversion He as [|? ? Hb He']; subst.
  assert (Hone : (enhancedPlain fetch) [(g, t, u)]) by (constructor; [exact Hb|constructor]).
  destruct (enhanceItem_scanned_settled Hit Hone) as [Hplain' Hsettled'].
  pose proof (enhanceItem_enhancedPlain Hone) as Hone'.
  assert (Hnext : forall it',
             scannedItem it' -> (settled fetch) it' -> (enhancedPlain fetch) [it'] ->
             applyChanges (renderItems (done ++ [it']) ++ renderItems pending ++ tail)
                          ((itemChanges fetch) pending)
             = renderItems (done ++ [it'])
               ++ renderItems (map (enhanceItem fetch) pending) ++ tail).
  { intros it' Hpl Hse Hen. apply IH; auto.
    - apply Forall_app. split; [exact Hd|constructor; [exact Hpl|constructor]].
    - apply Forall_app. split; [exact Hs|constructor; [exact Hse|constructor]].
    - apply Forall_app. split; [exact Hde|exact Hen]. }
  cbn [itemChanges flat_map map]. fold (itemChanges fetch pending).
  unfold enhanceItem in *. fold (enhanceItem fetch) in *.
  destruct ((changeOf fetch) t u) as [c|] eqn:Ec.
  - destruct (changeOf_some _ _ _ Ec) as [e [Ee [Hne ->]]]. rewrite Ee in *.
    cbn [pushed app applyChanges fold_left]. fold (applyChanges).
    cbn [renderItems renderItem]. rewrite <- !app_assoc.
    simpl in Hit. destruct Hit as [Hg [Hrb Hu]].
    rewrite applyChange_scanned_item;
      [|exact Hd| |apply Hg; exact Hrb|exact Hrb|exact Hu].
    + specialize (Hnext (g, e, u) Hplain' Hsettled' Hone').
      rewrite renderItems_app in Hnext. cbn [renderItems renderItem] in Hnext.
      rewrite app_nil_r, <- !app_assoc in Hnext. exact Hnext.
    + clear - Hs Hde Ec.
      induction Hs as [|[[g' t'] u'] done Hx Hs IH]; constructor.
      * split.
        -- intros E. injection E as -> ->. simpl in Hx. congruence.
        -- intros ->. inversion Hde as [|? ? Hb' _]; subst.
           destruct (Hb' t' (@settled_text g' t' u _ t Hx Ec)) as [Hl _]. exact Hl.
      * apply IH. inversion Hde; assumption.
  - cbn [pushed app].
    specialize (Hnext (g, t, u) Hplain' Hsettled' Hone').
    rewrite renderItems_app in Hnext. cbn [renderItems renderItem] in Hnext.
    rewrite app_nil_r, <- !app_assoc in Hnext.
    cbn [renderItems renderItem]. rewrite <- !app_assoc. exact Hnext.
Qed.

Lemma enhanceDocument_scanned : forall items tail,
  scannedDocument items tail ->
  enhanceDocument (fun _ => fetch) (renderItems items ++ tail)
  = Rewritten ((itemChanges fetch) items)
              (applyChanges (renderItems items ++ tail) ((itemChanges fetch) items)).
Proof.
  intros items tail Hp. rewrite enhanceDocument_changesFor.
  assert (Hc : changesFor (fun _ => fetch) 0 (matchedLinks (renderItems items ++ tail))
               = (itemChanges fetch) items).
  { apply changesFor_items. unfold matchedLinks.
    apply (@allMatches_scanned items tail (S (length (renderItems items ++ tail))) [] Hp).
    rewrite length_app. pose proof (renderItems_length items). lia. }
  rewrite Hc. reflexivity.
Qed.

(** The targets of the items are targets of matched links. *)
Lemma views_targets : forall ms items,
  map view ms = map itemView items ->
  Forall (fun it : Item => let '(_, _, u) := it in
            exists m, In m ms /\ m_group 2 m = u) items.
Proof.
  induction ms as [|m ms IH]; intros [|[[g t] u] items] H; try discriminate;
    constructor.
  - exists m. split; [left; reflexivity|].
    cbn [map] in H. injection H as _ _ H2 _. exact H2.
  - cbn [map] in H. injection H as _ _ _ H.
    specialize (IH _ H). clear - IH.
    induction IH as [|[[g' t'] u'] l [m' [Hin E]] _ IHl]; constructor; auto.
    exists m'. split; [right; exact Hin|exact E].
Qed.

(** C9, amended: with fixed answers of the API, on a document in which no
    link the scan matches holds an opening bracket in its target, and when
    no enhanced text holds a bracket, the first run gives a document on
    which a second run records no change and which it leaves identical.
    Brackets elsewhere in the document, and opening brackets in the texts
    of the links, do not matter. *)
Theorem second_enhancement_changes_nothing :
  forall doc,
    targetsWithoutOpeningBracket doc ->
    enhancedTextsPlain fetch doc ->
    exists changes doc',
      enhanceDocument (fun _ => fetch) doc = Rewritten changes doc'
      /\ enhanceDocument (fun _ => fetch) doc' = Rewritten [] doc'.
Proof.
  intros doc Hl He.
  destruct (@scan_items (S (length doc)) [] doc ltac:(lia) Hl)
    as [items [tail [-> [[Hi Ht] Hv]]]].
  assert (Hep : enhancedPlain fetch items).
  { pose proof (views_targets _ _ Hv) as Hvt. unfold enhancedPlain.
    clear - Hvt He. induction Hvt as [|[[g t] u] l [m [Hin E]] _ IH];
      constructor; auto.
    intros e Hen. apply (He m e Hin). rewrite E. exact Hen. }
  exists ((itemChanges fetch) items),
    (renderItems (map (enhanceItem fetch) items) ++ tail).
  assert (Hall : Forall scannedItem (map (enhanceItem fetch) items)
                 /\ Forall (settled fetch) (map (enhanceItem fetch) items)).
  { clear Ht Hv Hl He. induction items as [|it items IH]; [split; constructor|].
    inversion Hi as [|? ? Hit Hi']; subst. inversion Hep as [|? ? Hb He']; subst.
    destruct (IH Hi' He') as [H1 H2].
    assert (Hone : (enhancedPlain fetch) [it]) by (constructor; [exact Hb|constructor]).
    destruct (enhanceItem_scanned_settled Hit Hone) as [H3 H4].
    split; constructor; assumption. }
  destruct Hall as [Hscanned Hsettled]. split.
  - rewrite enhanceDocument_scanned by (split; assumption). f_equal.
    apply (@applyChanges_scanned_items items [] tail); auto. constructor.
  - rewrite enhanceDocument_scanned by (split; assumption).
    rewrite itemChanges_settled by exact Hsettled. reflexivity.
Qed.

End ScannedDocuments.

Section DebounceBursts.
Import Debounce.
Variable Args : Type.
Variable wait : nat.

Lemma executions_app : forall (l1 l2 : list (Entry Args)),
  executions (l1 ++ l2) = executions l1 ++ executions l2.
Proof.
  induction l1 as [|[t a|t a] l1 IH]; intros l2; simpl; [reflexivity| |];
    rewrite IH; reflexivity.
Qed.

(** During a burst the timer of the last call stays pending and [func]
    does not run. *)
Lemma burst_keeps_pending : forall burst (s : State Args) quiet args t,
  rapid wait quiet burst = true ->
  quiet < wait ->
  timers s = [t] -> timeout s = Some (timer_id t) ->
  S (timer_id t) = next_id s ->
  timer_args t = args ->
  timer_due t + quiet = now s + wait ->
  let s' := fold_left (step wait) burst s in
  exists t' quiet',
    timers s' = [t'] /\ timeout s' = Some (timer_id t')
    /\ S (timer_id t') = next_id s'
    /\ timer_args t' = last_call args burst
    /\ timer_due t' + quiet' = now s' + wait
    /\ quiet' < wait
    /\ executions (log s') = executions (log s).
Proof.
  induction burst as [|e burst IH]; intros s quiet args t Hr Hq Ht Hto Hid Ha Hdue.
  - simpl. exists t, quiet. repeat split; auto.
  - destruct e as [args'|ms|id]; cbn [fold_left step rapid last_call] in *.
    + destruct (IH (executedFunction wait args' s) 0 args'
                   (mkTimer (next_id s) (now s + wait) args'))
        as [t' [q' [H1 [H2 [H3 [H4 [H5 [H6 H7]]]]]]]]; simpl; auto; try lia.
      * rewrite Ht, Hto. simpl. rewrite Nat.eqb_refl. reflexivity.
      * exists t', q'. repeat split; auto.
        rewrite H7. simpl. rewrite executions_app. simpl. apply app_nil_r.
    + apply andb_true_iff in Hr. destruct Hr as [Hlt Hr].
      apply Nat.ltb_lt in Hlt.
      destruct (IH (mkState (now s + ms) (next_id s) (timers s) (timeout s) (log s))
                   (quiet + ms) args t)
        as [t' [q' H]]; simpl; auto; try lia.
      exists t', q'. exact H.
    + assert (E : fire id s = s).
      { unfold fire. rewrite Ht. simpl.
        destruct (Nat.eqb (timer_id t) id); [|reflexivity].
        destruct (Nat.leb (timer_due t) (now s)) eqn:Ed; [|reflexivity].
        apply Nat.leb_le in Ed. lia. }
      rewrite E. apply (IH s quiet args t); auto.
Qed.

(** X11: a burst of calls, each less than [wait] milliseconds after the one
    before, does not run [func], whatever timers the host attempts to fire
    meanwhile; it leaves one timer pending, and when [wait] milliseconds or
    more have passed after the burst and the host fires that timer, [func]
    runs once, with the arguments of the last call of the burst, and no
    timer is left. *)
Theorem debounce_burst_runs_once :
  forall (events burst : list (Event Args)) args ms,
    0 < wait ->
    rapid wait 0 burst = true ->
    wait <= ms ->
    let s := run wait events in
    let s1 := fold_left (step wait) (Call args :: burst) s in
    executions (log s1) = executions (log s)
    /\ exists t,
         timers s1 = [t]
         /\ timer_args t = last_call args burst
         /\ let s2 := fold_left (step wait) [Elapse Args ms; Fire Args (timer_id t)] s1 in
            executions (log s2) = executions (log s) ++ [last_call args burst]
            /\ timers s2 = [].
Proof.
  intros events burst args ms Hw Hr Hms s s1.
  assert (Hinv : pending_is_last_call wait s /\ runs_follow_quiet_calls wait (log s)).
  { apply run_invariant. split.
    - left. reflexivity.
    - intros pre t a post E. destruct pre; discriminate. }
  destruct Hinv as [Hp _].
  destruct (@burst_keeps_pending burst (executedFunction wait args s) 0 args
              (mkTimer (next_id s) (now s + wait) args))
    as [t [q [H1 [H2 [H3 [H4 [H5 [H6 H7]]]]]]]]; simpl; auto; try lia.
  { unfold executedFunction. rewrite (clearTimeout_pending Hp). reflexivity. }
  change (fold_left (step wait) burst (executedFunction wait args s)) with s1 in *.
  assert (He : executions (log s1) = executions (log s)).
  { rewrite H7. simpl. rewrite executions_app. simpl. apply app_nil_r. }
  split; [exact He|].
  exists t. split; [exact H1|]. split; [exact H4|].
  cbn [fold_left step]. unfold fire. simpl. rewrite H1. simpl.
  rewrite Nat.eqb_refl.
  assert (Hd : Nat.leb (timer_due t) (now s1 + ms) = true)
    by (apply Nat.leb_le; lia).
  rewrite Hd. unfold later. simpl.
  rewrite executions_app, He. simpl. rewrite H4. split; [reflexivity|].
  destruct (timeout s1); reflexivity.
Qed.

End DebounceBursts.

Section Rev1Invariants.
Context {ops : NumberOps}.
Import Rev1.

Ltac in_effects H :=
  repeat (apply in_app_or in H; destruct H as [H|H]);
  try (left; exact H); try exact H;
  try (simpl in H; repeat (destruct H as [H|H]; [discriminate|]); contradiction).

Lemma closePredictionModal_page : forall w,
  loginStyle (closePredictionModal w) = loginStyle w
  /\ (embeds_present w ->
      embeds_present (closePredictionModal w)
      /\ (In webviewNotFound (effects (closePredictionModal w)) ->
          In webviewNotFound (effects w))).
Proof.
  intros w. unfold closePredictionModal, loginStyle, embeds_present, webviewNotFound.
  destruct w as [p q l mo li cb rs np iv ni po st hv ef]; simpl.
  destruct p as [f|]; simpl; destruct hv; simpl; (split; [reflexivity|]);
    intros [p0 [q0 [Hp [Hq H]]]]; try discriminate;
    injection Hp as <-; (split; [exists (set_display (js "none") f), q0; auto|]);
    intros Hin; in_effects Hin.
Qed.

Lemma handlePredictionCreated_page : forall v w w1,
  handlePredictionCreated v w = Some w1 ->
  loginStyle w1 = loginStyle w
  /\ (embeds_present w ->
      embeds_present w1
      /\ (In webviewNotFound (effects w1) -> In webviewNotFound (effects w))).
Proof.
  intros v w w1 E. unfold handlePredictionCreated in E. unfold webviewNotFound.
  destruct (hasActiveView w); [|injection E as <-; auto].
  destruct (toStr v); [|discriminate]. injection E as <-.
  split; [reflexivity|]. intros H. split; [exact H|].
  simpl. intros Hin. in_effects Hin.
Qed.

Lemma update_target_src_page : forall t v w,
  loginStyle (update_target t (set_src v) w) = loginStyle w
  /\ effects (update_target t (set_src v) w) = effects w
  /\ (embeds_present w -> embeds_present (update_target t (set_src v) w)).
Proof.
  intros t v w. destruct w as [p q l mo li cb rs np iv ni po st hv ef].
  unfold loginStyle, embeds_present.
  destruct t; simpl; (split; [try reflexivity|split; [reflexivity|]]).
  - intros [p0 [q0 [Hp [Hq H]]]]. subst p q.
    exists (set_src v p0), q0. auto.
  - intros [p0 [q0 [Hp [Hq H]]]]. subst p q.
    exists p0, (set_src v q0). auto.
  - destruct l; reflexivity.
  - auto.
  - auto.
Qed.

Lemma handleIframeMessage_page : forall data w w',
  after (handleIframeMessage data w) = Some w' ->
  loginStyle w' = loginStyle w
  /\ (embeds_present w ->
      embeds_present w'
      /\ (In webviewNotFound (effects w') -> In webviewNotFound (effects w))).
Proof.
  intros data w w' H.
  destruct (handleIframeMessage data w) as [w1|w1|member value] eqn:E;
    simpl in H; [|injection H as <-|discriminate].
  2:{ apply handleIframeMessage_threw in E. destruct E as [-> _]. auto. }
  injection H as ->. rename E into H.
  unfold handleIframeMessage, handleIframeMessageWith in H.
  destruct (negb (truthy (getField data (js "isFatebook")))).
  { injection H as <-. auto. }
  destruct (strict_eq_string (getField data (js "action")) (js "prediction_cancel")).
  { injection H as <-. apply closePredictionModal_page. }
  destruct (strict_eq_string (getField data (js "action"))
                             (js "prediction_create_success")).
  { destruct (handlePredictionCreated
                (getField (rest_of data) (js "predictionLink")) w)
      as [w2|] eqn:Eh; [|discriminate].
    injection H as <-.
    destruct (closePredictionModal_page w2) as [H1 H2].
    destruct (handlePredictionCreated_page _ _ Eh) as [H3 H4].
    split; [congruence|]. intros He.
    destruct (H4 He) as [He1 Hin1]. destruct (H2 He1) as [He2 Hin2]. auto. }
  destruct (strict_eq_string (getField data (js "action")) (js "load-url")) eqn:Ea.
  { destruct (getWebviewByEmbedId w (getField data (js "embedId"))) as [[t|]|];
      [| |discriminate].
    - rewrite loadUrlBody_load_url in H by exact Ea.
      assert (Hd : Done (update_target t (set_src (getField (rest_of data) (js "src"))) w)
                   = Done w')
        by (destruct t; try discriminate; exact H).
      injection Hd as <-.
      destruct (update_target_src_page t (getField (rest_of data) (js "src")) w)
        as [H1 [H2 H3]].
      split; [exact H1|]. intros He. split; [exact (H3 He)|].
      rewrite H2. auto.
    - injection H as <-. auto. }
  destruct (toStr (getField data (js "action"))); [|discriminate].
  injection H as <-. split; [reflexivity|]. intros He. split; [exact He|].
  simpl. unfold webviewNotFound. intros Hin. in_effects Hin.
Qed.

Lemma loginState_same : forall w w',
  loginState w' = loginState w -> loginStyle w' = loginStyle w ->
  promises_in_order w -> login_frame_follows_flag w -> waiters_are_polled w ->
  promises_in_order w' /\ login_frame_follows_flag w' /\ waiters_are_polled w'.
Proof.
  intros w w' H Hs. unfold loginState in H. inversion H as [[Hmo Hli Hcb Hrs Hnp Hiv Hni Hpo Hst]].
  unfold promises_in_order, login_frame_follows_flag, waiters_are_polled, loginStyle in *.
  rewrite Hmo, Hcb, Hrs, Hnp, Hiv.
  intros Hp Hf Hw. split; [exact Hp|]. split; [|exact Hw].
  destruct (loginWebview w) as [f|], (loginWebview w') as [f'|]; simpl in Hs;
    try discriminate; [|exact Hf].
  injection Hs as -> -> ->. exact Hf.
Qed.

Lemma invariants_loaded : forall o view, invariants (loaded o view).
Proof.
  intros o view. unfold invariants, loaded, checkLoginStatus.
  destruct o; simpl; unfold promises_in_order, login_frame_follows_flag,
    waiters_are_polled, embeds_present, timers_ok; simpl;
    repeat split; auto; try discriminate; try tauto;
    try (eexists; eexists; repeat split; reflexivity);
    intros id [[]|[]].
Qed.

Lemma seq_snoc : forall n, seq 0 (S n) = seq 0 n ++ [n].
Proof. intros n. rewrite seq_S. reflexivity. Qed.

Lemma invariants_ensureLoggedIn : forall o w,
  invariants w -> invariants (ensureLoggedIn o w).
Proof.
  intros o w [Hp [Hf [Hw [He [Hn Ht]]]]].
  pose proof (@timers_ok_ensureLoggedIn _ o w Ht) as Ht'.
  unfold invariants. repeat match goal with |- _ /\ _ => split end;
    try exact Ht'; clear Ht Ht'.
  all: unfold ensureLoggedIn, ensureLoggedInResume, openLoginModal, checkLoginStatus,
       promises_in_order, login_frame_follows_flag, waiters_are_polled,
       embeds_present in *.
  all: destruct w as [p q l mo li cb rs np iv ni po st hv ef]; simpl in *.
  all: destruct o as [|response]; simpl;
       try destruct (negb (N.eqb (status response) 401)); simpl;
       destruct mo; simpl; try destruct l as [f|]; simpl; auto.
  all: try (change (0 :: seq 1 np) with (seq 0 (S np));
            rewrite seq_snoc, app_assoc, Hp; reflexivity).
  all: try (destruct Hw as [Hw1 Hw2]; split;
            [intros _; reflexivity
            |intros _; try (apply Hw2; reflexivity);
             intros E; apply app_eq_nil in E; destruct E; discriminate]).
  all: try tauto.
Qed.

Lemma invariants_intervalFires : forall id w,
  invariants w -> invariants (intervalFires id w).
Proof.
  intros id w [Hp [Hf [Hw [He [Hn Ht]]]]].
  pose proof (@timers_ok_intervalFires _ id w Ht) as Ht'.
  unfold intervalFires in *.
  destruct (existsb (Nat.eqb id) (intervals w)); unfold invariants; auto 10.
Qed.

Lemma invariants_pollCompletes : forall id o w,
  invariants w -> invariants (pollCompletes id o w).
Proof.
  intros id o w [Hp [Hf [Hw [He [Hn Ht]]]]].
  pose proof (@timers_ok_pollCompletes _ id o w Ht) as Ht'.
  unfold pollCompletes in *.
  destruct (existsb (Nat.eqb id) (polls w)) eqn:Ex; [|unfold invariants; auto 10].
  apply existsb_eqb_In in Ex.
  destruct (Ht id (or_intror Ex)) as [Hl _].
  unfold invariants. repeat match goal with |- _ /\ _ => split end;
    try exact Ht'; clear Ht Ht'.
  all: unfold pollResume, checkLoginStatus,
       promises_in_order, login_frame_follows_flag, waiters_are_polled,
       embeds_present, webviewNotFound in *.
  all: destruct w as [p q l mo li cb rs np iv ni po st hv ef]; simpl in *.
  all: destruct l as [f|]; [|contradiction].
  all: destruct o as [|response]; simpl;
       try destruct (negb (N.eqb (status response) 401)); simpl; auto.
  - rewrite app_nil_r. exact Hp.
  - destruct Hf as [_ Hf]. auto.
  - split; [intros H; contradiction|discriminate].
  - intros Hin. apply in_app_or in Hin. destruct Hin as [Hin|Hin]; [contradiction|].
    destruct Hin as [Hin|Hin]; [discriminate|].
    destruct hv; simpl in Hin; [destruct Hin as [Hin|[]]; discriminate|contradiction].
Qed.

Lemma invariants_step : forall w e w',
  invariants w -> step w e = Some w' -> invariants w'.
Proof.
  intros w e w' H Hs. destruct e as [data|o|id|id o|view]; simpl in Hs.
  - destruct (after (handleIframeMessage data w)) as [w1|] eqn:E; [|discriminate].
    injection Hs as <-.
    destruct H as [Hp [Hf [Hw [He [Hn Ht]]]]].
    pose proof (@timers_ok_step _ w (Message data) w1 Ht) as Ht'.
    simpl in Ht'. rewrite E in Ht'. specialize (Ht' eq_refl).
    destruct (handleIframeMessage_page _ _ E) as [Hs1 Hs2].
    destruct (Hs2 He) as [He' Hin].
    apply handleIframeMessage_keeps in E. destruct E as [_ [Hl _]].
    destruct (loginState_same Hl Hs1 Hp Hf Hw) as [Hp' [Hf' Hw']].
    unfold invariants. auto 10.
  - injection Hs as <-. apply invariants_ensureLoggedIn. exact H.
  - injection Hs as <-. apply invariants_intervalFires. exact H.
  - injection Hs as <-. apply invariants_pollCompletes. exact H.
  - injection Hs as <-. exact H.
Qed.

Lemma invariants_run : forall events w w',
  invariants w -> run w events = Some w' -> invariants w'.
Proof.
  induction events as [|e events IH]; intros w w' H Hr; simpl in Hr.
  - injection Hr as <-. exact H.
  - destruct (step w e) as [w1|] eqn:E; [|discriminate].
    apply (IH w1 w'); [|exact Hr]. apply (@invariants_step w e w1 H E).
Qed.

Lemma reachable_invariants : forall w, reachable w -> invariants w.
Proof.
  intros w [o [view [events H]]].
  apply (@invariants_run events (loaded o view) w (invariants_loaded o view) H).
Qed.

(** X12: in every world the plugin can reach, the promises handed out by
    [ensureLoggedIn] are numbered in the order of their creation, and the
    resolved ones followed by the queued ones are all of them, in that
    order: no promise is lost, none is resolved twice, none is both queued
    and resolved, and callers are released in the order in which they
    queued. *)
Theorem login_promises_resolved_in_order :
  forall w,
    reachable w ->
    resolved w ++ loginCallbacks w = seq 0 (next_promise w).
Proof.
  intros w H. apply reachable_invariants in H. apply H.
Qed.

(** X13: in every world the plugin can reach in which a caller of
    [ensureLoggedIn] waits, the login modal counts as open and an interval
    timer is pending; and when that timer ticks and the tick's session
    check finds the user logged in, every waiting caller is released: the
    queue is empty, every promise handed out is resolved, and the modal is
    closed. *)
Theorem waiting_callers_can_be_released :
  forall w,
    reachable w ->
    loginCallbacks w <> [] ->
    isLoginModalOpen w = true
    /\ exists id,
         In id (intervals w)
         /\ forall o,
              isLoggedIn (checkLoginStatus o w) = true ->
              exists w',
                run w [IntervalFires id; PollCompletes id o] = Some w'
                /\ loginCallbacks w' = []
                /\ resolved w' = seq 0 (next_promise w')
                /\ isLoginModalOpen w' = false.
Proof.
  intros w H Hcb. apply reachable_invariants in H.
  destruct H as [Hp [_ [[Hw1 Hw2] [_ [_ Ht]]]]].
  pose proof (Hw1 Hcb) as Hopen. split; [exact Hopen|].
  pose proof (Hw2 Hopen) as Hiv.
  destruct (intervals w) as [|id iv'] eqn:Ei; [contradiction|].
  exists id. split; [left; reflexivity|].
  intros o Ho.
  assert (Hin : In id (intervals w)) by (rewrite Ei; left; reflexivity).
  destruct (Ht id (or_introl Hin)) as [Hl _].
  assert (Hex : existsb (Nat.eqb id) (intervals w) = true)
    by (apply existsb_eqb_In; exact Hin).
  cbn [run step]. unfold intervalFires. rewrite Hex.
  unfold pollCompletes. cbn [polls].
  assert (Hex2 : existsb (Nat.eqb id) (polls w ++ [id]) = true).
  { apply existsb_eqb_In. apply in_or_app. right. left. reflexivity. }
  rewrite Hex2.
  unfold promises_in_order in Hp.
  destruct w as [p q l mo li cb rs np iv ni po st hv ef]; simpl in *.
  destruct l as [f|]; [|contradiction].
  destruct o as [|response]; simpl in Ho; [discriminate|].
  unfold pollResume, checkLoginStatus. simpl. rewrite Ho. simpl.
  eexists. split; [reflexivity|]. simpl. auto.
Qed.

(** X14: in every world the plugin can reach, the login frame, once it exists,
    is displayed exactly while [isLoginModalOpen] is set and hidden
    otherwise, and it has the size [openLoginModal] gave it; as long as it
    does not exist the modal does not count as open. *)
Theorem login_frame_shown_while_modal_open :
  forall w,
    reachable w ->
    match loginWebview w with
    | None => isLoginModalOpen w = false
    | Some f =>
        (isLoginModalOpen w = true -> display f = js "block")
        /\ (isLoginModalOpen w = false -> display f = js "none")
        /\ width f = js "400px" /\ height f = js "1000px"
    end.
Proof.
  intros w H. apply reachable_invariants in H.
  destruct H as [_ [Hf _]]. unfold login_frame_follows_flag in Hf.
  destruct (loginWebview w) as [f|]; [|exact Hf].
  destruct Hf as [Hd Hs]. split; [|split; [|exact Hs]];
    intros E; rewrite E in Hd; exact Hd.
Qed.

(** X15: in every world the plugin can reach, the two embeds exist and carry
    no inline width or height, and [closePredictionModal] has never taken
    its [else] branch: the console shows no 'Prediction webview not
    found'. *)
Theorem embeds_are_always_present :
  forall w,
    reachable w ->
    embeds_present w /\ ~ In webviewNotFound (effects w).
Proof.
  intros w H. apply reachable_invariants in H.
  destruct H as [_ [_ [_ [He [Hn _]]]]]. auto.
Qed.

End Rev1Invariants.

Section Rev2Handler.
Context {ops : NumberOps}.

Lemma getWebviewByEmbedId_same : forall (p : Rev1.World) embedId,
  Rev1.loginWebview p = None ->
  Rev2.getWebviewByEmbedId p embedId = Rev1.getWebviewByEmbedId p embedId.
Proof.
  intros p embedId Hl. unfold Rev2.getWebviewByEmbedId, Rev1.getWebviewByEmbedId.
  destruct (toStr embedId) as [key|]; [|reflexivity]. f_equal.
  destruct (jsstring_eqb key (js "predict-modal")); [reflexivity|].
  destruct (jsstring_eqb key (js "question-loader")); [reflexivity|].
  destruct (jsstring_eqb key (js "login")) eqn:E; [|reflexivity].
  apply jsstring_eqb_eq in E. rewrite E, Hl. reflexivity.
Qed.

Lemma ensureLoggedIn_logged_in : forall p : Rev1.World,
  Rev1.isLoggedIn p = true -> Rev2.ensureLoggedIn p = p.
Proof. intros p H. unfold Rev2.ensureLoggedIn. rewrite H. reflexivity. Qed.

Lemma handlePredictionCreated_same : forall v (p : Rev1.World),
  Rev1.isLoggedIn p = true ->
  Rev2.handlePredictionCreated v p = Rev1.handlePredictionCreated v p.
Proof.
  intros v p H. unfold Rev2.handlePredictionCreated, Rev1.handlePredictionCreated.
  destruct (Rev1.hasActiveView p) eqn:Hv; [|reflexivity].
  destruct (toStr v); [|reflexivity]. simpl. f_equal.
  apply ensureLoggedIn_logged_in. exact H.
Qed.

(** X16: the handler of the second revision, in which the branch for
    [resize_iframe] is commented out and the [login] embed is gone, does
    to the plugin what the handler of the first revision does, for every
    message, as long as there is no login frame and [isLoggedIn] is set
    (so that the enhancement started after a created prediction is not
    queued). *)
Theorem handlers_of_both_revisions_agree :
  forall data (p : Rev1.World),
    Rev1.loginWebview p = None ->
    Rev1.isLoggedIn p = true ->
    Rev2.as_first (Rev2.dispatch data p) = Rev1.handleIframeMessage data p.
Proof.
  intros data p Hl Hi.
  unfold Rev2.dispatch, Rev1.handleIframeMessage, Rev1.handleIframeMessageWith.
  destruct (negb (truthy (getField data (js "isFatebook")))); [reflexivity|].
  destruct (strict_eq_string (getField data (js "action")) (js "prediction_cancel"));
    [reflexivity|].
  destruct (strict_eq_string (getField data (js "action"))
                             (js "prediction_create_success")).
  { rewrite handlePredictionCreated_same by exact Hi.
    destruct (Rev1.handlePredictionCreated
                (getField (Rev1.rest_of data) (js "predictionLink")) p);
      reflexivity. }
  destruct (strict_eq_string (getField data (js "action")) (js "load-url")) eqn:Ea.
  2:{ destruct (toStr (getField data (js "action"))); reflexivity. }
  rewrite getWebviewByEmbedId_same by exact Hl.
  destruct (Rev1.getWebviewByEmbedId p (getField data (js "embedId"))) as [[t|]|];
    try reflexivity.
  rewrite loadUrlBody_load_url by exact Ea.
  destruct t; reflexivity.
Qed.

End Rev2Handler.

Section Rev2Login.
Context {ops : NumberOps}.
Import Rev2.

Lemma page_same_refl : forall p, page_same p p.
Proof. intros p. unfold page_same. tauto. Qed.

Lemma stage_ok_page : forall w p',
  page_same (page w) p' -> stage_ok w ->
  stage_ok (mkWorld p' (stage w) (listening w) (loginFrame w) (logged w)).
Proof.
  intros w p' [Hi [Hp [Hn [Hl [Hpw Hqw]]]]] H. unfold stage_ok in *. simpl.
  destruct (stage w); rewrite ?Hi, ?Hp, ?Hn, ?Hl, ?Hpw, ?Hqw; tauto.
Qed.

Lemma ensureLoggedIn_queue : forall p : Rev1.World,
  Rev1.resolved p ++ Rev1.loginCallbacks p = seq 0 (Rev1.next_promise p) ->
  Rev1.resolved (ensureLoggedIn p) ++ Rev1.loginCallbacks (ensureLoggedIn p)
  = seq 0 (Rev1.next_promise (ensureLoggedIn p)).
Proof.
  intros p H. unfold ensureLoggedIn.
  destruct (negb (Rev1.isLoggedIn p)); [|exact H].
  cbn [Rev1.resolved Rev1.loginCallbacks Rev1.next_promise].
  rewrite seq_S, app_assoc, H. reflexivity.
Qed.

Lemma ensureLoggedIn_same : forall p : Rev1.World, page_same p (ensureLoggedIn p).
Proof.
  intros p. unfold ensureLoggedIn, page_same.
  destruct (negb (Rev1.isLoggedIn p)); simpl; tauto.
Qed.

Lemma page_same_trans : forall p1 p2 p3 : Rev1.World,
  page_same p1 p2 -> page_same p2 p3 -> page_same p1 p3.
Proof.
  unfold page_same. intros p1 p2 p3 [A1 [A2 [A3 [A4 [A5 A6]]]]] [B1 [B2 [B3 [B4 [B5 B6]]]]].
  rewrite B1, B2, B3, B4, B5, B6. tauto.
Qed.

(** What is kept by a piece of code that keeps the sizes of the frames
    and the login part of the world. *)
Lemma keeps_page_same : forall p p' : Rev1.World,
  Rev1.frameSizes p' = Rev1.frameSizes p ->
  Rev1.loginState p' = Rev1.loginState p ->
  page_same p p'
  /\ Rev1.resolved p' = Rev1.resolved p
  /\ Rev1.loginCallbacks p' = Rev1.loginCallbacks p
  /\ Rev1.next_promise p' = Rev1.next_promise p.
Proof.
  intros p p' Hf Hl. unfold Rev1.loginState in Hl.
  inversion Hl as [[Hmo Hli Hcb Hrs Hnp Hiv Hni Hpo Hst]].
  unfold Rev1.frameSizes in Hf. simpl in Hf.
  inversion Hf as [[Hp Hq Hlw]].
  unfold page_same. repeat split; auto.
  - intros E. rewrite E in Hp. destruct (Rev1.predictWebview p); [discriminate|reflexivity].
  - intros E. rewrite E in Hp. destruct (Rev1.predictWebview p'); [discriminate|reflexivity].
  - intros E. rewrite E in Hq. destruct (Rev1.questionWebview p); [discriminate|reflexivity].
  - intros E. rewrite E in Hq. destruct (Rev1.questionWebview p'); [discriminate|reflexivity].
Qed.

Lemma keeps_page : forall p p' : Rev1.World,
  Rev1.frameSizes p' = Rev1.frameSizes p ->
  Rev1.loginState p' = Rev1.loginState p ->
  page_same p p' /\ (page_queue p -> page_queue p').
Proof.
  intros p p' Hf Hl. destruct (keeps_page_same Hf Hl) as [H [H1 [H2 H3]]].
  split; [exact H|]. unfold page_queue. rewrite H1, H2, H3. auto.
Qed.

(** Where [dispatch] throws, nothing was changed. *)
Lemma dispatch_threw : forall data (p p' : Rev1.World),
  dispatch data p = Threw p' -> p' = p.
Proof.
  intros data p p' H. unfold dispatch in H.
  destruct (negb (truthy (getField data (js "isFatebook")))); [discriminate|].
  destruct (strict_eq_string (getField data (js "action")) (js "prediction_cancel"));
    [discriminate|].
  destruct (strict_eq_string (getField data (js "action"))
                             (js "prediction_create_success")).
  { destruct (handlePredictionCreated
                (getField (Rev1.rest_of data) (js "predictionLink")) p);
      [discriminate|].
    injection H as <-. reflexivity. }
  destruct (strict_eq_string (getField data (js "action")) (js "load-url")).
  { destruct (getWebviewByEmbedId p (getField data (js "embedId"))) as [[t|]|];
      [destruct t; discriminate|discriminate|].
    injection H as <-. reflexivity. }
  destruct (toStr (getField data (js "action"))); [discriminate|].
  injection H as <-. reflexivity.
Qed.

(** What [handlePredictionCreated] does when it does not throw. *)
Lemma handlePredictionCreated_cases : forall v (p p1 : Rev1.World),
  handlePredictionCreated v p = Some p1 ->
  p1 = p
  \/ exists p0,
       Rev1.frameSizes p0 = Rev1.frameSizes p
       /\ Rev1.loginState p0 = Rev1.loginState p
       /\ p1 = ensureLoggedIn p0.
Proof.
  intros v p p1 H. unfold handlePredictionCreated in H.
  destruct (Rev1.hasActiveView p); [|injection H as <-; left; reflexivity].
  destruct (Rev1.handlePredictionCreated v p) as [p0|] eqn:E; [|discriminate].
  simpl in H. injection H as <-.
  destruct (handlePredictionCreated_keeps _ _ E) as [H1 [H2 _]].
  right. exists p0. auto.
Qed.

Lemma dispatch_keeps : forall data (p p' : Rev1.World),
  after (dispatch data p) = Some p' ->
  page_same p p' /\ (page_queue p -> page_queue p').
Proof.
  intros data p p' H.
  destruct (dispatch data p) as [p1|p1|member value] eqn:E;
    simpl in H; [|injection H as <-|discriminate].
  2:{ apply dispatch_threw in E. subst p1. split; [apply page_same_refl|auto]. }
  injection H as ->. rename E into H. unfold dispatch in H.
  destruct (negb (truthy (getField data (js "isFatebook")))).
  { injection H as <-. split; [apply page_same_refl|auto]. }
  destruct (strict_eq_string (getField data (js "action")) (js "prediction_cancel")).
  { injection H as <-. destruct (closePredictionModal_keeps p) as [H1 [H2 _]].
    apply keeps_page; assumption. }
  destruct (strict_eq_string (getField data (js "action"))
                             (js "prediction_create_success")).
  { destruct (handlePredictionCreated
                (getField (Rev1.rest_of data) (js "predictionLink")) p)
      as [p2|] eqn:Eh; [|discriminate].
    injection H as <-.
    assert (Hh : page_same p p2 /\ (page_queue p -> page_queue p2)).
    { destruct (handlePredictionCreated_cases _ _ Eh) as [->|[p0 [H1 [H2 ->]]]].
      - split; [apply page_same_refl|auto].
      - destruct (keeps_page H1 H2) as [K1 K2].
        split.
        + eapply page_same_trans; [exact K1|apply ensureLoggedIn_same].
        + intros Hq. apply ensureLoggedIn_queue. apply K2. exact Hq. }
    destruct Hh as [K1 K2].
    destruct (closePredictionModal_keeps p2) as [H1 [H2 _]].
    destruct (keeps_page H1 H2) as [K3 K4].
    split; [eapply page_same_trans; eassumption|auto]. }
  destruct (strict_eq_string (getField data (js "action")) (js "load-url")).
  { destruct (getWebviewByEmbedId p (getField data (js "embedId"))) as [[t|]|];
      [| |discriminate].
    - assert (Hd : Done (Rev1.update_target t
                           (Rev1.set_src (getField (Rev1.rest_of data) (js "src"))) p)
                   = Done p')
        by (destruct t; try discriminate; exact H).
      injection Hd as <-.
      destruct (update_target_src_keeps t (getField (Rev1.rest_of data) (js "src")) p)
        as [H1 [H2 _]].
      apply keeps_page; assumption.
    - injection H as <-. split; [apply page_same_refl|auto]. }
  destruct (toStr (getField data (js "action"))); [|discriminate].
  injection H as <-. split; [|auto].
  unfold page_same. simpl. tauto.
Qed.

(** The handler logs the message and leaves the rest to [dispatch]. *)
Lemma handleIframeMessage_after : forall data w w',
  after (handleIframeMessage data w) = Some w' ->
  exists p',
    after (dispatch data (page w)) = Some p'
    /\ w' = on_page (fun _ => p')
                    (mkWorld (page w) (stage w) (listening w) (loginFrame w)
                             (logged w ++ [data])).
Proof.
  intros data w w' H. unfold handleIframeMessage in H. cbn [page] in H.
  destruct (dispatch data (page w)) as [p1|p1|member value];
    simpl in H; try discriminate; injection H as <-; exists p1; auto.
Qed.

Lemma stages_loading : forall view, invariants (loading view).
Proof.
  intros view. unfold invariants, queue_ok, stage_ok, loading. simpl.
  repeat split; reflexivity.
Qed.

Lemma stages_on_page : forall f w,
  page_same (page w) (f (page w)) ->
  (page_queue (page w) -> page_queue (f (page w))) ->
  invariants w -> invariants (on_page f w).
Proof.
  intros f w Hs Hq [H1 H2]. split.
  - apply Hq. exact H1.
  - apply (stage_ok_page w Hs H2).
Qed.

Lemma stages_finishSetup : forall w,
  queue_ok w ->
  Rev1.intervals (page w) = [] -> loginFrame w = false ->
  invariants (finishSetup w).
Proof.
  intros w Hq Hi Hl. unfold finishSetup.
  destruct w as [[p q l mo li cb rs np iv ni po st hv ef] sg ls lf lg].
  unfold invariants, queue_ok, stage_ok, enhanceMarkdownLinksCalled, ensureLoggedIn in *.
  simpl in *. subst iv lf.
  destruct hv; simpl; [destruct li; simpl|];
    repeat split; auto; try discriminate.
  change (0 :: seq 1 np) with (seq 0 (S np)).
  rewrite seq_S, app_assoc, Hq. reflexivity.
Qed.

Lemma stages_step : forall w e w',
  invariants w -> step w e = Some w' -> invariants w'.
Proof.
  intros w e w' H Hs. destruct e as [o sr| |id|id o|data|view]; simpl in Hs.
  - destruct (stage w) eqn:Es; injection Hs as <-; try exact H.
    destruct H as [Hq Hst]. unfold stage_ok in Hst. rewrite Es in Hst.
    destruct Hst as [Hi [Hp [Hpw [Hqw [Hls [Hlf [Hli Hni]]]]]]].
    unfold setupLoginResume.
    destruct (Rev1.isLoggedIn (page (on_page (fun p => Rev1.with_isLoggedIn p (checkLoginStatus o)) w)))
      eqn:El.
    + apply stages_finishSetup; auto.
    + unfold openLoginModal. destruct sr.
      * split.
        -- exact Hq.
        -- unfold stage_ok. simpl. rewrite Hi, Hp, Hni. simpl in El.
           repeat split; auto. intros id [].
      * split; [exact Hq|]. unfold stage_ok. simpl. simpl in El. auto 10.
  - injection Hs as <-. apply stages_on_page; [| |exact H].
    + unfold enhanceMarkdownLinksCalled.
      eapply page_same_trans; [|apply ensureLoggedIn_same].
      unfold page_same. simpl. tauto.
    + intros Hq. unfold enhanceMarkdownLinksCalled. apply ensureLoggedIn_queue.
      exact Hq.
  - injection Hs as <-. destruct H as [Hq Hst]. split.
    + unfold queue_ok, on_page, Rev1.intervalFires in *. simpl.
      destruct (existsb (Nat.eqb id) (Rev1.intervals (page w))); exact Hq.
    + unfold stage_ok, on_page, Rev1.intervalFires in *. simpl.
      destruct (existsb (Nat.eqb id) (Rev1.intervals (page w))) eqn:Ex; [|exact Hst].
      apply existsb_eqb_In in Ex. simpl.
      destruct (stage w); destruct Hst as [Hi Hst]; rewrite Hi in Ex;
        try contradiction.
      destruct Ex as [<-|[]]. destruct Hst as [Hp Hst].
      split; [exact Hi|]. split; [|exact Hst].
      intros x Hx. apply in_app_or in Hx. destruct Hx as [Hx|[<-|[]]]; auto.
  - injection Hs as <-. destruct H as [Hq Hst]. unfold pollCompletes.
    destruct (existsb (Nat.eqb id) (Rev1.polls (page w))) eqn:Ex; [|split; assumption].
    apply existsb_eqb_In in Ex.
    unfold pollResume. cbn [page Rev1.isLoggedIn].
    destruct (checkLoginStatus o) eqn:Eo.
    + destruct (stage w) eqn:Es; cbn [stage];
        unfold stage_ok in Hst; rewrite Es in Hst.
      * destruct Hst as [_ [Hp _]]. rewrite Hp in Ex. contradiction.
      * destruct Hst as [Hi [Hp _]]. pose proof (Hp id Ex) as ->.
        apply stages_finishSetup; simpl.
        -- unfold queue_ok in *. simpl. rewrite app_nil_r. exact Hq.
        -- rewrite Hi. reflexivity.
        -- reflexivity.
      * split.
        -- unfold queue_ok in *. simpl. rewrite app_nil_r. exact Hq.
        -- unfold stage_ok. simpl.
           destruct Hst as [Hi [Hpw [Hqw [Hls Hlf]]]]. rewrite Hi. auto.
      * destruct Hst as [_ [Hp _]]. rewrite Hp in Ex. contradiction.
    + split; [exact Hq|]. unfold stage_ok in *. simpl.
      destruct (stage w) eqn:Es.
      * destruct Hst as [_ [Hp _]]. rewrite Hp in Ex. contradiction.
      * destruct Hst as [Hi [Hp Hr]]. split; [exact Hi|]. split; [|tauto].
        intros x Hx. apply Hp. apply (@In_remove_one id x _ Hx).
      * exact Hst.
      * destruct Hst as [_ [Hp _]]. rewrite Hp in Ex. contradiction.
  - destruct (listening w) eqn:Els; [|injection Hs as <-; exact H].
    apply handleIframeMessage_after in Hs. destruct Hs as [p' [Ed ->]].
    destruct H as [Hq Hst].
    destruct (dispatch_keeps _ _ Ed) as [K1 K2]. split.
    + apply K2. exact Hq.
    + apply (stage_ok_page w K1 Hst).
  - injection Hs as <-. exact H.
Qed.

Lemma stages_run : forall events w w',
  invariants w -> run w events = Some w' -> invariants w'.
Proof.
  induction events as [|e events IH]; intros w w' H Hr; simpl in Hr.
  - injection Hr as <-. exact H.
  - destruct (step w e) as [w1|] eqn:E; [|discriminate].
    apply (IH w1 w'); [|exact Hr]. apply (@stages_step w e w1 H E).
Qed.

Lemma reachable_stages : forall w, reachable w -> invariants w.
Proof.
  intros w [view [events H]].
  apply (@stages_run events (loading view) w (stages_loading view) H).
Qed.

(** X17: second revision: in every world the plugin can reach, the promises
    handed out by [ensureLoggedIn] are the resolved ones followed by the
    queued ones, in the order of their creation: an enhancement that had
    to wait is either still queued or has been released, once, and
    releases follow the order of the calls. *)
Theorem queued_enhancements_are_kept_in_order :
  forall w,
    reachable w ->
    Rev1.resolved (page w) ++ Rev1.loginCallbacks (page w)
    = seq 0 (Rev1.next_promise (page w)).
Proof.
  intros w H. apply reachable_stages in H. apply H.
Qed.

(** X18: second revision: a polling timer is pending exactly while
    [setupLogin] awaits the promise of [openLoginModal], which is exactly
    while the login frame is attached; there is never more than one, and
    once it has been cleared none is pending again. *)
Theorem login_timer_only_while_login_frame_shown :
  forall w,
    reachable w ->
    length (Rev1.intervals (page w)) <= 1
    /\ (Rev1.intervals (page w) <> [] <-> stage w = AwaitingLogin)
    /\ (loginFrame w = true <-> stage w = AwaitingLogin)
    /\ (stage w = Ready ->
        forall events w',
          run w events = Some w' ->
          stage w' = Ready /\ Rev1.intervals (page w') = []).
Proof.
  intros w H. apply reachable_stages in H.
  assert (Hshape : forall w0, invariants w0 ->
            length (Rev1.intervals (page w0)) <= 1
            /\ (Rev1.intervals (page w0) <> [] <-> stage w0 = AwaitingLogin)
            /\ (loginFrame w0 = true <-> stage w0 = AwaitingLogin)).
  { intros w0 [_ Hst]. unfold stage_ok in Hst.
    destruct (stage w0); destruct Hst as [Hi Hst]; rewrite Hi; simpl;
      (split; [lia|]); split; split; intros E;
      try discriminate; try reflexivity; try (contradiction E; reflexivity);
      try tauto.
    all: destruct Hst as [_ [_ [_ [_ [Hl _]]]]] || destruct Hst as [_ [_ [_ Hl]]];
      congruence. }
  destruct (Hshape w H) as [H1 [H2 H3]].
  split; [exact H1|]. split; [exact H2|]. split; [exact H3|].
  intros Hready events. clear H1 H2 H3 Hshape. revert w H Hready.
  induction events as [|e events IH]; intros w H Hready w' Hr; simpl in Hr.
  - injection Hr as <-. split; [exact Hready|].
    destruct H as [_ Hst]. unfold stage_ok in Hst. rewrite Hready in Hst. tauto.
  - destruct (step w e) as [w1|] eqn:E; [|discriminate].
    apply (IH w1); [eapply stages_step; eassumption| |exact Hr].
    clear - E Hready.
    destruct e as [o sr| |id|id o|data|view]; simpl in E.
    + rewrite Hready in E. injection E as <-. exact Hready.
    + injection E as <-. exact Hready.
    + injection E as <-. exact Hready.
    + injection E as <-. unfold pollCompletes.
      destruct (existsb (Nat.eqb id) (Rev1.polls (page w))); [|exact Hready].
      unfold pollResume. cbn [page Rev1.isLoggedIn stage].
      destruct (checkLoginStatus o); [|exact Hready].
      rewrite Hready. reflexivity.
    + destruct (listening w); [|injection E as <-; exact Hready].
      apply handleIframeMessage_after in E. destruct E as [p' [_ ->]].
      exact Hready.
    + injection E as <-. exact Hready.
Qed.

(** X19: second revision: the two embeds exist and the [message] listener is
    registered exactly when [setupLogin] has got past its two [await]s; up
    to then [isLoggedIn] is false, so that every call of
    [enhanceMarkdownLinks] is queued, and no message is handled. *)
Theorem embeds_exist_once_session_is_confirmed :
  forall w,
    reachable w ->
    (listening w = true <-> stage w = Ready)
    /\ (Rev1.predictWebview (page w) <> None <-> stage w = Ready)
    /\ (Rev1.questionWebview (page w) <> None <-> stage w = Ready)
    /\ (stage w <> Ready -> Rev1.isLoggedIn (page w) = false).
Proof.
  intros w H. apply reachable_stages in H. destruct H as [_ Hst].
  unfold stage_ok in Hst.
  destruct (stage w).
  - destruct Hst as [_ [_ [Hp [Hq [Hl [_ [Hi _]]]]]]]. rewrite Hp, Hq, Hl.
    repeat split; intros E; try discriminate; try exact Hi; contradiction E; reflexivity.
  - destruct Hst as [_ [_ [Hp [Hq [Hl [_ Hi]]]]]]. rewrite Hp, Hq, Hl.
    repeat split; intros E; try discriminate; try exact Hi; contradiction E; reflexivity.
  - destruct Hst as [_ [Hp [Hq [Hl _]]]].
    repeat split; auto. intros E. contradiction E. reflexivity.
  - destruct Hst as [_ [_ [Hp [Hq [Hl [_ Hi]]]]]]. rewrite Hp, Hq, Hl.
    repeat split; intros E; try discriminate; try exact Hi; contradiction E; reflexivity.
Qed.

(** X20: second revision: while [setupLogin] awaits the promise of
    [openLoginModal], the first poll tick whose session check finds the
    user logged in clears the timer, releases every queued enhancement,
    removes the login frame and lets [setupLogin] go on: the two embeds
    are created with their [embed/] addresses and the [message] listener
    is registered. *)
Theorem successful_poll_completes_setup :
  forall w id o,
    reachable w ->
    stage w = AwaitingLogin ->
    In id (Rev1.polls (page w)) ->
    checkLoginStatus o = true ->
    let w' := pollCompletes id o w in
    stage w' = Ready
    /\ Rev1.intervals (page w') = []
    /\ Rev1.loginCallbacks (page w') = []
    /\ (forall p, In p (Rev1.loginCallbacks (page w)) -> In p (Rev1.resolved (page w')))
    /\ loginFrame w' = false
    /\ listening w' = true
    /\ Rev1.predictWebview (page w')
       = Some (Rev1.mkIframe (VString (js "https://fatebook.io/embed/predict-modal"))
                             (js "") (js "") (js ""))
    /\ Rev1.questionWebview (page w')
       = Some (Rev1.mkIframe (VString (js "https://fatebook.io/embed/question-loader"))
                             (js "") (js "") (js "")).
Proof.
  intros w id o H Hs Hin Ho w'. apply reachable_stages in H.
  destruct H as [_ Hst]. unfold stage_ok in Hst. rewrite Hs in Hst.
  destruct Hst as [Hi [Hp _]]. pose proof (Hp id Hin) as ->.
  subst w'. unfold pollCompletes.
  assert (Hex : existsb (Nat.eqb 1) (Rev1.polls (page w)) = true)
    by (apply existsb_eqb_In; exact Hin).
  rewrite Hex. unfold pollResume. cbn [page Rev1.isLoggedIn stage].
  rewrite Ho, Hs. unfold finishSetup, enhanceMarkdownLinksCalled, ensureLoggedIn.
  destruct w as [[p q l mo li cb rs np iv ni po st hv ef] sg ls lf lg].
  simpl in *. subst iv.
  destruct hv; simpl; repeat split; auto;
    intros x Hx; apply in_or_app; right; exact Hx.
Qed.

End Rev2Login.

Section Rev2Early.
Context {ops : NumberOps}.
Import Rev2.

Lemma ensureLoggedIn_grows : forall p : Rev1.World,
  queue_grows p (ensureLoggedIn p).
Proof.
  intros p. unfold ensureLoggedIn, queue_grows.
  destruct (negb (Rev1.isLoggedIn p)); simpl.
  - split; [reflexivity|]. eexists. reflexivity.
  - split; [reflexivity|]. exists []. symmetry. apply app_nil_r.
Qed.

Lemma queue_grows_refl : forall p : Rev1.World, queue_grows p p.
Proof.
  intros p. split; [reflexivity|]. exists []. symmetry. apply app_nil_r.
Qed.

Lemma with_effects_grows : forall (p : Rev1.World) es,
  queue_grows p (Rev1.with_effects p es).
Proof.
  intros p es. split; [reflexivity|]. exists []. simpl. symmetry. apply app_nil_r.
Qed.

Lemma queue_grows_trans : forall p1 p2 p3 : Rev1.World,
  queue_grows p1 p2 -> queue_grows p2 p3 -> queue_grows p1 p3.
Proof.
  intros p1 p2 p3 [A1 [m1 A2]] [B1 [m2 B2]]. split; [congruence|].
  exists (m1 ++ m2). rewrite B2, A2, app_assoc. reflexivity.
Qed.

Lemma keeps_queue_grows : forall p p' : Rev1.World,
  Rev1.frameSizes p' = Rev1.frameSizes p ->
  Rev1.loginState p' = Rev1.loginState p ->
  queue_grows p p'.
Proof.
  intros p p' Hf Hl. destruct (keeps_page_same Hf Hl) as [_ [H1 [H2 _]]].
  split; [exact H1|]. exists []. rewrite H2. symmetry. apply app_nil_r.
Qed.

Lemma dispatch_grows : forall data (p p' : Rev1.World),
  after (dispatch data p) = Some p' -> queue_grows p p'.
Proof.
  intros data p p' H.
  destruct (dispatch data p) as [p1|p1|member value] eqn:E;
    simpl in H; [|injection H as <-|discriminate].
  2:{ apply dispatch_threw in E. subst p1. apply queue_grows_refl. }
  injection H as ->. rename E into H. unfold dispatch in H.
  destruct (negb (truthy (getField data (js "isFatebook")))).
  { injection H as <-. apply queue_grows_refl. }
  destruct (strict_eq_string (getField data (js "action")) (js "prediction_cancel")).
  { injection H as <-. destruct (closePredictionModal_keeps p) as [H1 [H2 _]].
    apply keeps_queue_grows; assumption. }
  destruct (strict_eq_string (getField data (js "action"))
                             (js "prediction_create_success")).
  { destruct (handlePredictionCreated
                (getField (Rev1.rest_of data) (js "predictionLink")) p)
      as [p2|] eqn:Eh; [|discriminate].
    injection H as <-.
    assert (Hh : queue_grows p p2).
    { destruct (handlePredictionCreated_cases _ _ Eh) as [->|[p0 [H1 [H2 ->]]]].
      - apply queue_grows_refl.
      - eapply queue_grows_trans;
          [apply keeps_queue_grows; eassumption|apply ensureLoggedIn_grows]. }
    destruct (closePredictionModal_keeps p2) as [H1 [H2 _]].
    eapply queue_grows_trans; [exact Hh|apply keeps_queue_grows; assumption]. }
  destruct (strict_eq_string (getField data (js "action")) (js "load-url")).
  { destruct (getWebviewByEmbedId p (getField data (js "embedId"))) as [[t|]|];
      [| |discriminate].
    - assert (Hd : Done (Rev1.update_target t
                           (Rev1.set_src (getField (Rev1.rest_of data) (js "src"))) p)
                   = Done p')
        by (destruct t; try discriminate; exact H).
      injection Hd as <-.
      destruct (update_target_src_keeps t (getField (Rev1.rest_of data) (js "src")) p)
        as [H1 [H2 _]].
      apply keeps_queue_grows; assumption.
    - injection H as <-. apply queue_grows_refl. }
  destruct (toStr (getField data (js "action"))); [|discriminate].
  injection H as <-. apply with_effects_grows.
Qed.

(** Once set-up is complete with no poll tick in flight, nothing resolves
    a promise any more. *)
Lemma settled_step : forall w e w',
  settled w -> step w e = Some w' ->
  settled w' /\ queue_grows (page w) (page w').
Proof.
  intros w e w' [Hs [Hp Hi]] H. unfold settled.
  destruct e as [o sr| |id|id o|data|view]; simpl in H.
  - rewrite Hs in H. injection H as <-. auto using queue_grows_refl.
  - injection H as <-. unfold on_page, enhanceMarkdownLinksCalled. simpl.
    pose proof (ensureLoggedIn_same (Rev1.with_effects (page w) [Rev1.EnhanceStarted]))
      as [K1 [K2 _]].
    rewrite K1, K2. simpl. split; [auto|].
    eapply queue_grows_trans; [|apply ensureLoggedIn_grows].
    apply with_effects_grows.
  - injection H as <-. unfold on_page, Rev1.intervalFires. simpl.
    rewrite Hi. simpl. auto using queue_grows_refl.
  - injection H as <-. unfold pollCompletes. rewrite Hp. simpl.
    auto using queue_grows_refl.
  - destruct (listening w); [|injection H as <-; auto using queue_grows_refl].
    apply handleIframeMessage_after in H. destruct H as [p' [Ed ->]]. simpl.
    destruct (dispatch_keeps _ _ Ed) as [[K1 [K2 _]] _].
    rewrite K1, K2. split; [auto|]. apply (dispatch_grows _ _ Ed).
  - injection H as <-. simpl. split; [auto|]. split; [reflexivity|].
    exists []. simpl. symmetry. apply app_nil_r.
Qed.

Lemma settled_run : forall events w w',
  settled w -> run w events = Some w' ->
  settled w' /\ queue_grows (page w) (page w').
Proof.
  induction events as [|e events IH]; intros w w' H Hr; simpl in Hr.
  - injection Hr as <-. split; [exact H|apply queue_grows_refl].
  - destruct (step w e) as [w1|] eqn:E; [|discriminate].
    destruct (@settled_step w e w1 H E) as [H1 G1].
    destruct (IH w1 w' H1 Hr) as [H2 G2].
    split; [exact H2|]. eapply queue_grows_trans; eassumption.
Qed.

(** Calls of [enhanceMarkdownLinks] while the first session check is
    awaited. *)
Lemma early_calls : forall n w,
  stage w = AwaitingCheck ->
  Rev1.isLoggedIn (page w) = false ->
  exists w1,
    (forall rest, run w (repeat EnhanceCalled n ++ rest) = run w1 rest)
    /\ stage w1 = AwaitingCheck
    /\ Rev1.isLoggedIn (page w1) = false
    /\ Rev1.polls (page w1) = Rev1.polls (page w)
    /\ Rev1.intervals (page w1) = Rev1.intervals (page w)
    /\ Rev1.resolved (page w1) = Rev1.resolved (page w)
    /\ Rev1.loginCallbacks (page w1)
       = Rev1.loginCallbacks (page w) ++ seq (Rev1.next_promise (page w)) n.
Proof.
  induction n as [|n IH]; intros w Hs Hl.
  - exists w. repeat split; auto. symmetry. apply app_nil_r.
  - destruct (IH (on_page enhanceMarkdownLinksCalled w)) as [w1 [Hr H]].
    + exact Hs.
    + unfold on_page, enhanceMarkdownLinksCalled, ensureLoggedIn. simpl.
      rewrite Hl. reflexivity.
    + exists w1. split; [intros rest; simpl; apply Hr|].
      revert H. unfold on_page, enhanceMarkdownLinksCalled, ensureLoggedIn.
      simpl. rewrite Hl. simpl.
      intros [H1 [H2 [H3 [H4 [H5 H6]]]]]. repeat split; auto.
      rewrite H6, <- app_assoc. reflexivity.
Qed.

(** X21: second revision: when the first session check finds the user
    logged in, the calls of [enhanceMarkdownLinks] made before its answer
    came back are never released: whatever happens afterwards, no promise
    is resolved and the first [n] promises stay in [loginCallbacks]. *)
Theorem enhancements_before_first_check_stay_queued :
  forall view n o shadowRoot events w',
    checkLoginStatus o = true ->
    run (loading view)
        (repeat EnhanceCalled n ++ SetupCheckCompletes o shadowRoot :: events)
    = Some w' ->
    Rev1.resolved (page w') = []
    /\ firstn n (Rev1.loginCallbacks (page w')) = seq 0 n.
Proof.
  intros view n o sr events w' Ho Hr.
  destruct (@early_calls n (loading view) eq_refl eq_refl)
    as [w1 [Hrun [Hs [Hl [Hp [Hi [Hres Hcb]]]]]]].
  rewrite Hrun in Hr. simpl in Hr. rewrite Hs in Hr.
  simpl in Hp, Hi, Hres, Hcb.
  set (w2 := setupLoginResume o sr w1) in Hr.
  assert (H2 : settled w2 /\ queue_grows (page w1) (page w2)).
  { subst w2. unfold setupLoginResume. cbn [on_page page Rev1.with_isLoggedIn Rev1.isLoggedIn].
    rewrite Ho. unfold finishSetup, settled, queue_grows.
    cbn [page stage].
    destruct (Rev1.hasActiveView _) eqn:Hv.
    - unfold enhanceMarkdownLinksCalled, ensureLoggedIn. simpl.
      rewrite Hp, Hi. repeat split; auto. exists []. symmetry. apply app_nil_r.
    - simpl. rewrite Hp, Hi. repeat split; auto. exists []. symmetry. apply app_nil_r. }
  destruct H2 as [Hset [G1 [m1 G2]]].
  destruct (@settled_run events w2 w' Hset Hr) as [_ [G3 [m2 G4]]].
  split; [congruence|].
  rewrite G4, G2, Hcb, <- app_assoc.
  assert (Hlen : length (seq 0 n) = n) by apply length_seq.
  rewrite firstn_app, Hlen, Nat.sub_diag. cbn [firstn]. rewrite app_nil_r.
  apply firstn_all2. lia.
Qed.

End Rev2Early.

Import Float64.

(** The concrete runs below use the glyph literals of the second listing,
    except where they name those of the first. *)
#[local] Existing Instance Rev2.glyphs.

(** C3, witness: a question URL with a slug, a separator and a query. *)
Lemma getQuestionIdFromUrl_last_segment_witness :
  getQuestionIdFromUrl (js "https://fatebook.io/q/will-x-happen--abc123?foo=1")
  = js "abc123".
Proof.
  destruct (@getQuestionIdFromUrl_last_segment
              (js "https://fatebook.io/q/will-x-happen--abc123?foo=1")
              (js "will-x-happen--abc123?foo=1")) as [H _].
  - split.
    + apply not_in_by_existsb. reflexivity.
    + right. exists (js "https://fatebook.io/q"). reflexivity.
  - reflexivity.
  - apply (H (js "will-x-happen") (js "abc123?foo=1") eq_refl).
    apply (@last_occurrence (js "will-x-happen--abc123?foo=1") (js "--") 13).
    reflexivity.
Defined.

(** C3: the claim fails when the last segment holds a line feed. *)
Lemma getQuestionIdFromUrl_line_terminator :
  let url := js "https://fatebook.io/q/a--b" ++ [10%N] ++ js "c" in
  let seg := js "a--b" ++ [10%N] ++ js "c" in
  lastSegmentOf url seg
  /\ seg = js "a" ++ js "--" ++ (js "b" ++ [10%N] ++ js "c")
  /\ (forall a' b', seg = a' ++ js "--" ++ b' -> length a' <= 1)
  /\ getQuestionIdFromUrl url = seg
  /\ getQuestionIdFromUrl url <> upto_delimiter (js "b" ++ [10%N] ++ js "c").
Proof.
  cbv zeta. split; [|split; [|split; [|split]]].
  - split.
    + apply not_in_by_existsb. reflexivity.
    + right. exists (js "https://fatebook.io/q"). reflexivity.
  - reflexivity.
  - apply (@last_occurrence _ (js "--") 1). reflexivity.
  - reflexivity.
  - vm_compute. discriminate.
Qed.





(** C5: in the first revision a 200 answer without [user] logs in. *)
Lemma status_200_without_user :
  Rev1.isLoggedIn
    (Rev1.checkLoginStatus (question []) (Rev1.loaded FetchRejected false))
  = true
  /\ @lookup ops (js "user") [] = None.
Proof. split; reflexivity. Qed.


(** C9: two documents on which a second run rewrites again.  In the
    first, the title holds a closing and an opening bracket: the
    rewritten link is matched as a link with empty text.  In the second,
    the titles hold no bracket, but the target of the first link, which
    runs up to the first closing parenthesis, holds the text of the second
    link: the change recorded for the second link is applied inside that
    target, and the second link is only rewritten by the second run. *)
Lemma second_run_rewrites_again :
  (let net := fun (_ : nat) (_ : jsstring) => openQuestion "][" in
   let doc1 := js "[" ++ @glyph_scales Rev2.glyphs ++ js " ][](https://fatebook.io/q/k)" in
   enhanceDocument net (js "[x](https://fatebook.io/q/k)")
   = Rewritten [mkChange (js "[x](https://fatebook.io/q/k)") doc1] doc1
   /\ enhanceDocument net doc1
      = Rewritten
          [mkChange (js "[](https://fatebook.io/q/k)") doc1]
          (js "[" ++ @glyph_scales Rev2.glyphs ++ js " ][" ++ @glyph_scales Rev2.glyphs
              ++ js " ][](https://fatebook.io/q/k)"))
  /\ (let net := fun (_ : nat) (_ : jsstring) => openQuestion "T" in
      let scales := @glyph_scales Rev2.glyphs in
      let doc :=
        js "[a](https://fatebook.io/q/1[b](https://fatebook.io/q/2) [b](https://fatebook.io/q/2)" in
      let doc1 :=
        js "[" ++ scales ++ js " T](https://fatebook.io/q/1[" ++ scales
           ++ js " T](https://fatebook.io/q/2) [b](https://fatebook.io/q/2)" in
      let doc2 :=
        js "[" ++ scales ++ js " T](https://fatebook.io/q/1[" ++ scales
           ++ js " T](https://fatebook.io/q/2) [" ++ scales
           ++ js " T](https://fatebook.io/q/2)" in
      map (fun m => (m_index m, m_group 1 m, m_group 2 m)) (matchedLinks doc)
      = [(0, js "a", js "https://fatebook.io/q/1[b](https://fatebook.io/q/2");
         (56, js "b", js "https://fatebook.io/q/2")]
      /\ enhanceDocument net doc
         = Rewritten
             [mkChange
                (js "[a](https://fatebook.io/q/1[b](https://fatebook.io/q/2)")
                (js "[" ++ scales
                    ++ js " T](https://fatebook.io/q/1[b](https://fatebook.io/q/2)");
              mkChange (js "[b](https://fatebook.io/q/2)")
                       (js "[" ++ scales ++ js " T](https://fatebook.io/q/2)")]
             doc1
      /\ enhanceDocument net doc1
         = Rewritten
             [mkChange (js "[b](https://fatebook.io/q/2)")
                       (js "[" ++ scales ++ js " T](https://fatebook.io/q/2)")]
             doc2).
Proof. cbv zeta. repeat split; vm_compute; reflexivity. Qed.

(** C9, witness: a note with a check box, a wiki link, a bracketed word
    and two links to questions, one of which has an opening bracket in
    its text; a title without brackets. *)
Lemma second_enhancement_changes_nothing_witness :
  exists changes doc',
    enhanceDocument
      (fun _ _ => openQuestion "hello")
      (js "[note] see [foo](https://fatebook.io/q/x--1) and [[wiki]] - [ ] task, [x[y](http://www.fatebook.io/q/2)")
    = Rewritten changes doc'
    /\ enhanceDocument (fun _ _ => openQuestion "hello") doc' = Rewritten [] doc'.
Proof.
  apply (@second_enhancement_changes_nothing ops Rev2.glyphs
           (fun _ => openQuestion "hello")).
  - intros m Hin. vm_compute in Hin.
    destruct Hin as [<-|[<-|[]]]; apply not_in_by_existsb; reflexivity.
  - intros m e Hin Hen. vm_compute in Hin.
    destruct Hin as [<-|[<-|[]]]; vm_compute in Hen; injection Hen as <-;
      split; apply not_in_by_existsb; reflexivity.
Defined.

(** C7, witness: logged out at load, one waiter, one poll tick, which
    then sees a 200 answer. *)
Lemma login_poll_clears_timer_and_releases_waiters_witness :
  let w := Rev1.pollCompletes 1 (question [])
             (Rev1.intervalFires 1
                (Rev1.ensureLoggedIn FetchRejected
                   (Rev1.loaded FetchRejected false))) in
  Rev1.intervals w = [] /\ Rev1.resolved w = [0] /\ Rev1.loginCallbacks w = [].
Proof.
  cbv zeta.
  destruct (@login_poll_clears_timer_and_releases_waiters ops
              (Rev1.intervalFires 1
                 (Rev1.ensureLoggedIn FetchRejected
                    (Rev1.loaded FetchRejected false)))
              1 (question []))
    as [_ [_ [_ H]]].
  - exists FetchRejected, false,
      [Rev1.EnsureLoggedIn FetchRejected; Rev1.IntervalFires 1].
    reflexivity.
  - left. reflexivity.
  - reflexivity.
  - repeat split; try exact H; reflexivity.
Defined.

(** C6, witness: a run in which the second call cancels the first. *)
Lemma debounce_runs_after_quiet_period_witness :
  Debounce.log
    (Debounce.run 5 [Debounce.Call 1; Debounce.Elapse nat 2; Debounce.Call 2;
                     Debounce.Elapse nat 3; Debounce.Fire nat 1; Debounce.Elapse nat 2;
                     Debounce.Fire nat 2; Debounce.Fire nat 2])
  = [Debounce.Called 0 1; Debounce.Called 2 2; Debounce.Ran 7 2]
  /\ Debounce.runs_follow_quiet_calls 5
       [Debounce.Called 0 1; Debounce.Called 2 2; Debounce.Ran 7 2].
Proof.
  split; [reflexivity|].
  apply (@debounce_runs_after_quiet_period nat 5
           [Debounce.Call 1; Debounce.Elapse nat 2; Debounce.Call 2;
            Debounce.Elapse nat 3; Debounce.Fire nat 1; Debounce.Elapse nat 2;
            Debounce.Fire nat 2; Debounce.Fire nat 2]).
Defined.

(** C2: a message that asks for a resize is not a [load-url] message and
    goes to the default case. *)
Lemma resize_message_is_unhandled :
  Rev1.handleIframeMessage
    (@VObject ops [(js "isFatebook", VBool true);
                   (js "action", VString (js "resize_iframe"));
                   (js "embedId", VString (js "predict-modal"));
                   (js "box", VObject [(js "width", VString (js "10"));
                                       (js "height", VString (js "20"))])])
    (Rev1.loaded FetchRejected false)
  = Rev1.Done
      (Rev1.with_effects (Rev1.loaded FetchRejected false)
         [Rev1.ConsoleLog (js "Unhandled Fatebook action: resize_iframe")]).
Proof. reflexivity. Qed.

(** X3, witness: a link in running text. *)
Lemma scan_matches_question_links_witness :
  let content := js "a [x](http://fatebook.io/q/1) b" in
  let m := mkMatch 2 (js "[x](http://fatebook.io/q/1)")
                   [(2, js "http://fatebook.io/q/1"); (1, js "x")] (js " b") in
  In m (matchedLinks content)
  /\ exists pre t scheme host path post,
       content = pre ++ markdownLink t (scheme ++ host ++ js "fatebook.io/q/" ++ path)
                     ++ post
       /\ m_index m = length pre
       /\ m_text m = markdownLink t (scheme ++ host ++ js "fatebook.io/q/" ++ path)
       /\ m_group 1 m = t
       /\ m_group 2 m = scheme ++ host ++ js "fatebook.io/q/" ++ path
       /\ ~ In c_rbracket t
       /\ (scheme = js "http://" \/ scheme = js "https://")
       /\ (host = [] \/ host = js "www.")
       /\ path <> [] /\ ~ In c_rparen path.
Proof.
  cbv zeta. split; [vm_compute; left; reflexivity|].
  apply scan_matches_question_links. vm_compute. left. reflexivity.
Defined.

(** X4, witness: two links. *)
Lemma scan_matches_do_not_overlap_witness :
  let content :=
    js "a [x](http://fatebook.io/q/1) b [y](https://www.fatebook.io/q/t--2?z) c" in
  (map (fun m => (m_index m, m_end m)) (matchedLinks content), length content)
  = ([(2, 29); (32, 69)], 71)
  /\ (forall m, In m (matchedLinks content) ->
                m_index m < m_end m /\ m_end m <= length content)
  /\ (forall k1 k2 m1 m2,
         k1 < k2 ->
         nth_error (matchedLinks content) k1 = Some m1 ->
         nth_error (matchedLinks content) k2 = Some m2 ->
         m_end m1 <= m_index m2).
Proof.
  cbv zeta. split; [vm_compute; reflexivity|].
  apply (@scan_matches_do_not_overlap
           (js "a [x](http://fatebook.io/q/1) b [y](https://www.fatebook.io/q/t--2?z) c")).
Defined.

(** X5, witness: a link to another site. *)
Lemma document_without_question_url_untouched_witness :
  matchedLinks (js "see [docs](https://example.org/q/1).") = []
  /\ collectChanges (fun _ _ => @FetchRejected ops)
                    (js "see [docs](https://example.org/q/1).") = Some [].
Proof.
  destruct (@document_without_question_url_untouched ops Rev2.glyphs
              (fun _ _ => FetchRejected)
              (js "see [docs](https://example.org/q/1).")
              ltac:(vm_compute; reflexivity))
    as [H1 [H2 _]].
  split; [exact H1|exact H2].
Defined.

(** X6, witness: the user replaces the document while the fetch runs. *)
Lemma vanished_links_are_skipped_witness :
  exists changes,
    enhanceMarkdownLinks
      (fun _ _ => openQuestion "hello")
      (Some (mkView (Some (mkEditor 0 (js "see [foo](https://fatebook.io/q/x--1)."))) 0))
      (mkView (Some (mkEditor 0 (js "something else"))) 0)
    = Rewritten changes (js "something else").
Proof.
  destruct (@vanished_links_are_skipped ops Rev2.glyphs
              (fun _ _ => openQuestion "hello")
              (mkView (Some (mkEditor 0 (js "see [foo](https://fatebook.io/q/x--1)."))) 0)
              (mkEditor 0 (js "see [foo](https://fatebook.io/q/x--1)."))
              (mkView (Some (mkEditor 0 (js "something else"))) 0)
              (mkEditor 0 (js "something else"))
              eq_refl eq_refl)
    as [H|H].
  - intros m Hm. vm_compute in Hm. destruct Hm as [<-|[]]. vm_compute. reflexivity.
  - vm_compute in H. discriminate.
  - exact H.
Defined.

(** X7, witness: the text of the change occurs twice. *)
Lemma change_rewrites_first_occurrence_witness :
  applyChange (js "x ab ab") (mkChange (js "ab") (js "CD")) = js "x CD ab".
Proof.
  apply (@change_rewrites_first_occurrence
           (js "x ab ab") (mkChange (js "ab") (js "CD")) (js "x ") (js " ab")).
  - reflexivity.
  - intros pre' post' E. destruct pre' as [|a [|b pre']]; simpl; try lia;
      vm_compute in E; discriminate.
Defined.

(** X9, witness: the link of the witness of X3, rewritten. *)
Lemma rewritten_link_is_matched_again_witness :
  exec linkRegex (js "[new](http://fatebook.io/q/1) b") 0
  = Some (mkMatch 0 (js "[new](http://fatebook.io/q/1)")
                  [(2, js "http://fatebook.io/q/1"); (1, js "new")] (js " b")).
Proof.
  apply (@rewritten_link_is_matched_again
           (js "a [x](http://fatebook.io/q/1) b")
           (mkMatch 2 (js "[x](http://fatebook.io/q/1)")
                    [(2, js "http://fatebook.io/q/1"); (1, js "x")] (js " b"))
           (js "new") (js " b")).
  - vm_compute. left. reflexivity.
  - apply not_in_by_existsb. reflexivity.
Defined.

(** X10, witness: one link in plain text, whose question is open. *)
Lemma plain_document_is_enhanced_in_place_witness :
  enhanceDocument (fun _ _ => openQuestion "hello")
                  (js "see [foo](https://fatebook.io/q/x--1).")
  = Rewritten [mkChange (js "[foo](https://fatebook.io/q/x--1)")
                        (js "[" ++ @glyph_scales Rev2.glyphs ++ js " hello](https://fatebook.io/q/x--1)")]
              (js "see [" ++ @glyph_scales Rev2.glyphs ++ js " hello](https://fatebook.io/q/x--1).").
Proof.
  apply (@plain_document_is_enhanced_in_place ops Rev2.glyphs (fun _ => openQuestion "hello")
           [(js "see ", js "foo", js "https://fatebook.io/q/x--1")] (js ".")).
  - split; [|apply not_in_by_existsb; reflexivity].
    constructor; [|constructor].
    split; [apply not_in_by_existsb; reflexivity|].
    split; [split; apply not_in_by_existsb; reflexivity|].
    exists (js "https://"), [], (js "x--1").
    split; [reflexivity|]. split; [right; reflexivity|].
    split; [left; reflexivity|]. split; [discriminate|].
    split; apply not_in_by_existsb; reflexivity.
  - constructor; [|constructor]. intros e H. vm_compute in H. injection H as <-.
    split; apply not_in_by_existsb; reflexivity.
Defined.

(** X11, witness: three calls less than 5 ms apart, then 5 ms of quiet. *)
Lemma debounce_burst_runs_once_witness :
  let s1 := fold_left (Debounce.step 5)
              [Debounce.Call 1; Debounce.Elapse nat 2; Debounce.Call 2;
               Debounce.Fire nat 1; Debounce.Elapse nat 4; Debounce.Call 3;
               Debounce.Elapse nat 1]
              (Debounce.run 5 []) in
  Debounce.executions (Debounce.log s1) = []
  /\ exists t,
       Debounce.timers s1 = [t]
       /\ Debounce.timer_args t = 3
       /\ Debounce.executions
            (Debounce.log
               (fold_left (Debounce.step 5)
                          [Debounce.Elapse nat 5; Debounce.Fire nat (Debounce.timer_id t)]
                          s1))
          = [3]
       /\ Debounce.timers
            (fold_left (Debounce.step 5)
                       [Debounce.Elapse nat 5; Debounce.Fire nat (Debounce.timer_id t)]
                       s1)
          = [].
Proof.
  cbv zeta.
  apply (@debounce_burst_runs_once nat 5 []
           [Debounce.Elapse nat 2; Debounce.Call 2; Debounce.Fire nat 1;
            Debounce.Elapse nat 4; Debounce.Call 3; Debounce.Elapse nat 1]
           1 5); [lia|reflexivity|lia].
Defined.

(** X12, witness: two callers while logged out. *)
Lemma login_promises_resolved_in_order_witness :
  let w := Rev1.ensureLoggedIn FetchRejected
             (Rev1.ensureLoggedIn FetchRejected (Rev1.loaded FetchRejected false)) in
  Rev1.loginCallbacks w = [0; 1]
  /\ Rev1.resolved w ++ Rev1.loginCallbacks w = seq 0 (Rev1.next_promise w).
Proof.
  cbv zeta. split; [reflexivity|].
  apply (@login_promises_resolved_in_order ops).
  exists FetchRejected, false,
    [Rev1.EnsureLoggedIn FetchRejected; Rev1.EnsureLoggedIn FetchRejected].
  reflexivity.
Defined.

(** X13, witness: two callers wait; the tick of timer 1 releases them. *)
Lemma waiting_callers_can_be_released_witness :
  let w := Rev1.ensureLoggedIn FetchRejected
             (Rev1.ensureLoggedIn FetchRejected (Rev1.loaded FetchRejected false)) in
  Rev1.isLoginModalOpen w = true
  /\ exists id,
       In id (Rev1.intervals w)
       /\ forall o,
            Rev1.isLoggedIn (Rev1.checkLoginStatus o w) = true ->
            exists w',
              Rev1.run w [Rev1.IntervalFires id; Rev1.PollCompletes id o] = Some w'
              /\ Rev1.loginCallbacks w' = []
              /\ Rev1.resolved w' = seq 0 (Rev1.next_promise w')
              /\ Rev1.isLoginModalOpen w' = false.
Proof.
  cbv zeta.
  apply (@waiting_callers_can_be_released ops).
  - exists FetchRejected, false,
      [Rev1.EnsureLoggedIn FetchRejected; Rev1.EnsureLoggedIn FetchRejected].
    reflexivity.
  - discriminate.
Defined.

(** X14, witness: the modal has been opened. *)
Lemma login_frame_shown_while_modal_open_witness :
  let w := Rev1.ensureLoggedIn FetchRejected (Rev1.loaded FetchRejected false) in
  match Rev1.loginWebview w with
  | None => Rev1.isLoginModalOpen w = false
  | Some f =>
      (Rev1.isLoginModalOpen w = true -> Rev1.display f = js "block")
      /\ (Rev1.isLoginModalOpen w = false -> Rev1.display f = js "none")
      /\ Rev1.width f = js "400px" /\ Rev1.height f = js "1000px"
  end.
Proof.
  cbv zeta.
  apply (@login_frame_shown_while_modal_open ops).
  exists FetchRejected, false, [Rev1.EnsureLoggedIn FetchRejected].
  reflexivity.
Defined.

(** X15, witness: a cancelled prediction. *)
Lemma embeds_are_always_present_witness :
  let w := Rev1.closePredictionModal (Rev1.loaded (question []) true) in
  Rev1.embeds_present w /\ ~ In Rev1.webviewNotFound (Rev1.effects w).
Proof.
  cbv zeta.
  apply (@embeds_are_always_present ops).
  exists (question []), true,
    [Rev1.Message (VObject [(js "isFatebook", VBool true);
                            (js "action", VString (js "prediction_cancel"))])].
  reflexivity.
Defined.

(** X16, witness: a [load-url] message for the [login] embed, which
    neither revision knows at that moment. *)
Lemma handlers_of_both_revisions_agree_witness :
  let data := VObject [(js "isFatebook", VBool true);
                       (js "action", VString (js "load-url"));
                       (js "embedId", VString (js "login"));
                       (js "src", VString (js "x"))] in
  Rev2.as_first (Rev2.dispatch data (Rev1.loaded (question []) true))
  = Rev1.handleIframeMessage data (Rev1.loaded (question []) true)
  /\ Rev1.handleIframeMessage data (Rev1.loaded (question []) true)
     = Rev1.Done (Rev1.loaded (question []) true).
Proof.
  cbv zeta. split; [|reflexivity].
  apply (@handlers_of_both_revisions_agree ops); reflexivity.
Defined.

(** X17, witness: two enhancements are requested before the first session
    check has come back. *)
Lemma queued_enhancements_are_kept_in_order_witness :
  let w := Rev2.on_page Rev2.enhanceMarkdownLinksCalled
             (Rev2.on_page Rev2.enhanceMarkdownLinksCalled (Rev2.loading true)) in
  Rev1.loginCallbacks (Rev2.page w) = [0; 1]
  /\ Rev1.resolved (Rev2.page w) ++ Rev1.loginCallbacks (Rev2.page w)
     = seq 0 (Rev1.next_promise (Rev2.page w)).
Proof.
  cbv zeta. split; [reflexivity|].
  apply (@queued_enhancements_are_kept_in_order ops).
  exists true, [Rev2.EnhanceCalled; Rev2.EnhanceCalled]. reflexivity.
Defined.

(** X18, witness: the first session check failed and the login frame is
    shown. *)
Lemma login_timer_only_while_login_frame_shown_witness :
  let w := Rev2.setupLoginResume FetchRejected true (Rev2.loading false) in
  Rev1.intervals (Rev2.page w) = [1]
  /\ length (Rev1.intervals (Rev2.page w)) <= 1
  /\ (Rev1.intervals (Rev2.page w) <> [] <-> Rev2.stage w = Rev2.AwaitingLogin)
  /\ (Rev2.loginFrame w = true <-> Rev2.stage w = Rev2.AwaitingLogin).
Proof.
  cbv zeta. split; [reflexivity|].
  destruct (@login_timer_only_while_login_frame_shown ops
              (Rev2.setupLoginResume FetchRejected true (Rev2.loading false)))
    as [H1 [H2 [H3 _]]].
  - exists false, [Rev2.SetupCheckCompletes FetchRejected true]. reflexivity.
  - split; [exact H1|]. split; [exact H2|exact H3].
Defined.

(** X19, witness: the first session check finds the user logged in. *)
Lemma embeds_exist_once_session_is_confirmed_witness :
  let w := Rev2.setupLoginResume
             (FetchResolved (mkResponse 200 (BodyJson (VObject [(js "user", VObject [])]))))
             true (Rev2.loading false) in
  Rev2.stage w = Rev2.Ready
  /\ (Rev2.listening w = true <-> Rev2.stage w = Rev2.Ready)
  /\ (Rev1.predictWebview (Rev2.page w) <> None <-> Rev2.stage w = Rev2.Ready)
  /\ (Rev1.questionWebview (Rev2.page w) <> None <-> Rev2.stage w = Rev2.Ready)
  /\ (Rev2.stage w <> Rev2.Ready -> Rev1.isLoggedIn (Rev2.page w) = false).
Proof.
  cbv zeta. split; [reflexivity|].
  apply (@embeds_exist_once_session_is_confirmed ops).
  exists false,
    [Rev2.SetupCheckCompletes
       (FetchResolved (mkResponse 200 (BodyJson (VObject [(js "user", VObject [])]))))
       true].
  reflexivity.
Defined.

(** X20, witness: logged out at load, one enhancement waits, the first
    tick finds the user logged in. *)
Lemma successful_poll_completes_setup_witness :
  let w := Rev2.on_page (Rev1.intervalFires 1)
             (Rev2.on_page Rev2.enhanceMarkdownLinksCalled
                (Rev2.setupLoginResume FetchRejected true (Rev2.loading false))) in
  let w' := Rev2.pollCompletes 1
              (FetchResolved (mkResponse 200 (BodyJson (VObject [(js "user", VObject [])]))))
              w in
  Rev1.loginCallbacks (Rev2.page w) = [0]
  /\ Rev2.stage w' = Rev2.Ready
  /\ Rev1.intervals (Rev2.page w') = []
  /\ Rev1.loginCallbacks (Rev2.page w') = []
  /\ In 0 (Rev1.resolved (Rev2.page w'))
  /\ Rev2.loginFrame w' = false
  /\ Rev2.listening w' = true.
Proof.
  cbv zeta. split; [reflexivity|].
  destruct (@successful_poll_completes_setup ops
              (Rev2.on_page (Rev1.intervalFires 1)
                 (Rev2.on_page Rev2.enhanceMarkdownLinksCalled
                    (Rev2.setupLoginResume FetchRejected true (Rev2.loading false))))
              1
              (FetchResolved (mkResponse 200 (BodyJson (VObject [(js "user", VObject [])])))))
    as [H1 [H2 [H3 [H4 [H5 [H6 _]]]]]].
  - exists false,
      [Rev2.SetupCheckCompletes FetchRejected true; Rev2.EnhanceCalled;
       Rev2.IntervalFires 1].
    reflexivity.
  - reflexivity.
  - left. reflexivity.
  - reflexivity.
  - repeat split; auto. apply H4. left. reflexivity.
Defined.

(** X21, witness: two enhancements are requested, the first session check
    finds the user logged in, a third enhancement and a message follow. *)
Lemma enhancements_before_first_check_stay_queued_witness :
  exists w',
    Rev2.run (Rev2.loading true)
             [Rev2.EnhanceCalled; Rev2.EnhanceCalled;
              Rev2.SetupCheckCompletes
                (FetchResolved
                   (mkResponse 200 (BodyJson (VObject [(js "user", VObject [])]))))
                true;
              Rev2.EnhanceCalled;
              Rev2.Message (VObject [(js "isFatebook", VBool true);
                                     (js "action", VString (js "prediction_cancel"))])]
    = Some w'
    /\ Rev1.resolved (Rev2.page w') = []
    /\ firstn 2 (Rev1.loginCallbacks (Rev2.page w')) = [0; 1].
Proof.
  eexists. split; [reflexivity|].
  apply (@enhancements_before_first_check_stay_queued ops true 2
           (FetchResolved
              (mkResponse 200 (BodyJson (VObject [(js "user", VObject [])]))))
           true
           [Rev2.EnhanceCalled;
            Rev2.Message (VObject [(js "isFatebook", VBool true);
                                   (js "action", VString (js "prediction_cancel"))])]);
    reflexivity.
Defined.

Lemma parseFloat_no_number : forall s,
  starts_no_number s = true -> f64_parseFloat s = S754_nan.
Proof.
  intros [|c rest] H; [reflexivity|].
  unfold starts_no_number in H. apply negb_true_iff in H.
  do 5 (apply orb_false_iff in H; destruct H as [H ?]).
  unfold f64_parseFloat. cbn [skip_whitespace]. rewrite H.
  assert (Hs : read_sign (c :: rest) = (false, c :: rest)).
  { unfold read_sign.
    repeat match goal with
           | E : N.eqb c _ = false |- _ => apply N.eqb_neq in E
           end.
    destruct c as [|p]; [reflexivity|].
    repeat (destruct p as [p|p|]; try reflexivity); congruence. }
  rewrite Hs.
  assert (Hp : prefixb (js "Infinity") (c :: rest) = false).
  { cbn [js list_ascii_of_string map prefixb]. simpl N_of_ascii.
    rewrite N.eqb_sym.
    match goal with E : N.eqb c 73 = false |- _ => rewrite E end. reflexivity. }
  rewrite Hp. cbn [read_digits].
  match goal with E : is_digit c = false |- _ => rewrite E end.
  assert (Hd : forall r, c :: rest <> 46%N :: r).
  { intros r E. injection E as -> _. discriminate. }
  destruct c as [|p]; [reflexivity|].
  repeat (destruct p as [p|p|]; try reflexivity).
  exfalso. apply (Hd rest). reflexivity.
Qed.

(** X22: when [yourLatestPrediction] is present and has a text form that
    starts with no number (it is empty, or begins with a character that is
    neither white space, a digit, a sign, a dot nor the [I] of
    [Infinity]; such are [null], [true], [false], an object without a
    member [toString], a string like [n/a]), [parseFloat] gives NaN and
    the suffix reads [(You: NaN% yes)]. *)
Theorem prediction_that_is_not_numeric_shows_NaN :
  forall (p : JsValue) text,
    p <> VUndefined ->
    toStr p = Some text ->
    starts_no_number text = true ->
    predictionText p = Some (js " (You: NaN% yes)").
Proof.
  intros p text Hp Ht Hs.
  assert (E : predictionText p
              = Some (js " (You: "
                      ++ number_toFixed0
                           (number_mul (parseFloat_string text) number_100)
                      ++ js "% yes)")).
  { unfold predictionText, parseFloat. rewrite Ht.
    destruct p; try reflexivity. contradiction. }
  rewrite E. cbn [parseFloat_string ops].
  rewrite (parseFloat_no_number _ Hs). reflexivity.
Qed.

(** X22, witness: the API answers [null] for the prediction; [false], an
    object and a string that is not a number. *)
Lemma prediction_that_is_not_numeric_shows_NaN_witness :
  predictionText VNull = Some (js " (You: NaN% yes)")
  /\ predictionText (VBool false) = Some (js " (You: NaN% yes)")
  /\ predictionText (VObject []) = Some (js " (You: NaN% yes)")
  /\ predictionText (VString (js "n/a")) = Some (js " (You: NaN% yes)").
Proof.
  split; [|split; [|split]].
  - apply (@prediction_that_is_not_numeric_shows_NaN VNull (js "null"));
      [discriminate|reflexivity|reflexivity].
  - apply (@prediction_that_is_not_numeric_shows_NaN (VBool false) (js "false"));
      [discriminate|reflexivity|reflexivity].
  - apply (@prediction_that_is_not_numeric_shows_NaN (VObject [])
             (js "[object Object]"));
      [discriminate|reflexivity|reflexivity].
  - apply (@prediction_that_is_not_numeric_shows_NaN (VString (js "n/a"))
             (js "n/a"));
      [discriminate|reflexivity|reflexivity].
Defined.

(** X23: a prediction that is a whole number of percent, given as the
    double nearest to [k/100] for [k] from 0 to 100, is shown as [k]: the
    multiplication by 100 and [toFixed(0)] lose nothing. *)
Theorem whole_percent_prediction_is_shown_exactly :
  forall k,
    k <= 100 ->
    predictionText (VNumber (of_decimal false (Z.of_nat k) (-2)))
    = Some (js " (You: " ++ digits_of_Z (Z.of_nat k) ++ js "% yes)").
Proof.
  assert (H : forallb
                (fun k =>
                   match predictionText
                           (VNumber (of_decimal false (Z.of_nat k) (-2))) with
                   | Some text =>
                       jsstring_eqb text
                         (js " (You: " ++ digits_of_Z (Z.of_nat k) ++ js "% yes)")
                   | None => false
                   end)
                (seq 0 101) = true)
    by (vm_compute; reflexivity).
  rewrite forallb_forall in H.
  intros k Hk. assert (Hin : In k (seq 0 101)) by (apply in_seq; lia).
  specialize (H k Hin).
  match goal with
  | |- ?x = _ => destruct x as [text|]; [|discriminate]
  end.
  apply jsstring_eqb_eq in H. rewrite H. reflexivity.
Qed.

(** X23, witness: a prediction of 0.57. *)
Lemma whole_percent_prediction_is_shown_exactly_witness :
  predictionText (VNumber (of_decimal false 57 (-2))) = Some (js " (You: 57% yes)").
Proof.
  apply (@whole_percent_prediction_is_shown_exactly 57). lia.
Defined.

